(** * Scroll-reactive chromatic aberration overlay

    A shallow embedding of [src/chromatic-abberation/chromatic-abberation.tsx].
    The file holds four successive revisions of the component; the claims are
    about three of them:

    - lines 182-591: [ChromaticImages], the intersection-observer overlay;
    - lines 592-1101: [ImageWithEffect] / [ShaderEffectOverlay] with
      time-scaled damping and device detection (module [TimeScaled]);
    - lines 1102-1516: [ImageWithEffect] / [ShaderEffectOverlay] with fixed
      damping and the stuck-animation watchdog (module [Watchdog]).

    JavaScript numbers are idealised as real numbers: every arithmetic
    operation is exact, and [Math.pow] on a positive base is [Rpower].
    React refs are fields of a record threaded through the handlers; the
    browser's timer table is a finite map from timer ids to callbacks. *)

From Stdlib Require Import Reals Lra String Ascii DecimalString List Bool Arith Lia.
From stdpp Require Import gmap.
Import ListNotations.

(** ** JavaScript numbers and three.js helpers *)

Module JS.
Local Open Scope R_scope.

Definition Math_abs (x : R) : R := Rabs x.

Definition Math_min (x y : R) : R := Rmin x y.

(** [Math.sign]: 1 for positive, -1 for negative, 0 for zero. *)
Definition Math_sign (x : R) : R :=
  if Rlt_dec 0 x then 1 else if Rlt_dec x 0 then -1 else 0.

(** [Math.pow base e] for a positive [base]. *)
Definition Math_pow (base e : R) : R := Rpower base e.

(** [x < y] as a JavaScript condition. *)
Definition lt (x y : R) : bool := if Rlt_dec x y then true else false.

(** [x <= y] as a JavaScript condition. *)
Definition le (x y : R) : bool := if Rle_dec x y then true else false.

(** [x > y] as a JavaScript condition. *)
Definition gt (x y : R) : bool := lt y x.

(** [x === y] on numbers. *)
Definition eq (x y : R) : bool := if Req_dec_T x y then true else false.

(** [THREE.MathUtils.lerp(x, y, t)] is [(1 - t) * x + t * y]. *)
Definition lerp (x y t : R) : R := (1 - t) * x + t * y.

End JS.

(** [THREE.Vector2] with the two methods the component calls. *)
Module Vector2.
Local Open Scope R_scope.

Record t : Type := mk { x : R; y : R }.

Definition set (_ : t) (nx ny : R) : t := mk nx ny.

(** [this.x += (v.x - this.x) * alpha], likewise for [y]. *)
Definition lerp (this v : t) (alpha : R) : t :=
  mk (x this + (x v - x this) * alpha) (y this + (y v - y this) * alpha).

End Vector2.

(** ** The browser window *)

Fixpoint lower (s : string) : string :=
  match s with
  | EmptyString => EmptyString
  | String c r =>
      let n := nat_of_ascii c in
      String (if (65 <=? n) && (n <=? 90) then ascii_of_nat (n + 32) else c)
             (lower r)
  end.

Fixpoint contains (needle hay : string) : bool :=
  String.prefix needle hay ||
  match hay with
  | EmptyString => false
  | String _ r => contains needle r
  end.

(** [/Android|webOS|iPhone|iPad|iPod|BlackBerry|IEMobile|Opera Mini/i.test] *)
Definition mobileAgent (userAgent : string) : bool :=
  existsb (fun k => contains (lower k) (lower userAgent))
    ["Android"; "webOS"; "iPhone"; "iPad"; "iPod"; "BlackBerry"; "IEMobile";
     "Opera Mini"]%string.

Record Window : Type := {
  scrollY : R;
  innerWidth : R;
  innerHeight : R;
  userAgent : string
}.

(** ** Timers

    [window.setTimeout] stores a callback under a fresh id and
    [window.clearTimeout] drops it.  The callbacks a component schedules are
    named by a type [C] of its own rather than stored as closures. *)

Record Timer (C : Type) : Type := { callback : C; delay : nat }.
Arguments callback {C} _.
Arguments delay {C} _.

Record TimerTable (C : Type) : Type :=
  { pending : gmap nat (Timer C); nextId : nat }.
Arguments pending {C} _.
Arguments nextId {C} _.

Definition setTimeout {C} (cb : C) (ms : nat) (tbl : TimerTable C)
  : nat * TimerTable C :=
  (nextId tbl,
   {| pending := <[nextId tbl := {| callback := cb; delay := ms |}]> (pending tbl);
      nextId := S (nextId tbl) |}).

Definition clearTimeout {C} (id : nat) (tbl : TimerTable C) : TimerTable C :=
  {| pending := delete id (pending tbl); nextId := nextId tbl |}.

(** Every id handed out so far is below [nextId]. *)
Definition timers_wf {C} (tbl : TimerTable C) : Prop :=
  forall id, is_Some (pending tbl !! id) -> id < nextId tbl.

(** ** The refs of [ImageWithEffect]

    Both revisions declare the same refs (lines 687-699 and 1196-1208).
    [materialRef] is [None] until the texture effect has created the shader
    material; afterwards it holds the three uniforms the frame loop writes. *)

Record Uniforms : Type := {
  aberrationStrength : R;
  aberrationDirection : Vector2.t;
  uOffset : Vector2.t
}.

Record Refs : Type := {
  materialRef : option Uniforms;
  isScrolling : bool;
  targetAberrationStrength : R;
  currentAberrationStrength : R;
  targetDirection : Vector2.t;
  currentDirection : Vector2.t;
  lastScrollY : R;
  scrollTimer : option nat;
  forceReset : bool
}.

Definition set_materialRef (v : option Uniforms) (r : Refs) : Refs :=
  {| materialRef := v; isScrolling := isScrolling r;
     targetAberrationStrength := targetAberrationStrength r;
     currentAberrationStrength := currentAberrationStrength r;
     targetDirection := targetDirection r;
     currentDirection := currentDirection r;
     lastScrollY := lastScrollY r; scrollTimer := scrollTimer r;
     forceReset := forceReset r |}.

Definition set_isScrolling (v : bool) (r : Refs) : Refs :=
  {| materialRef := materialRef r; isScrolling := v;
     targetAberrationStrength := targetAberrationStrength r;
     currentAberrationStrength := currentAberrationStrength r;
     targetDirection := targetDirection r;
     currentDirection := currentDirection r;
     lastScrollY := lastScrollY r; scrollTimer := scrollTimer r;
     forceReset := forceReset r |}.

Definition set_targetAberrationStrength (v : R) (r : Refs) : Refs :=
  {| materialRef := materialRef r; isScrolling := isScrolling r;
     targetAberrationStrength := v;
     currentAberrationStrength := currentAberrationStrength r;
     targetDirection := targetDirection r;
     currentDirection := currentDirection r;
     lastScrollY := lastScrollY r; scrollTimer := scrollTimer r;
     forceReset := forceReset r |}.

Definition set_currentAberrationStrength (v : R) (r : Refs) : Refs :=
  {| materialRef := materialRef r; isScrolling := isScrolling r;
     targetAberrationStrength := targetAberrationStrength r;
     currentAberrationStrength := v;
     targetDirection := targetDirection r;
     currentDirection := currentDirection r;
     lastScrollY := lastScrollY r; scrollTimer := scrollTimer r;
     forceReset := forceReset r |}.

Definition set_targetDirection (v : Vector2.t) (r : Refs) : Refs :=
  {| materialRef := materialRef r; isScrolling := isScrolling r;
     targetAberrationStrength := targetAberrationStrength r;
     currentAberrationStrength := currentAberrationStrength r;
     targetDirection := v;
     currentDirection := currentDirection r;
     lastScrollY := lastScrollY r; scrollTimer := scrollTimer r;
     forceReset := forceReset r |}.

Definition set_currentDirection (v : Vector2.t) (r : Refs) : Refs :=
  {| materialRef := materialRef r; isScrolling := isScrolling r;
     targetAberrationStrength := targetAberrationStrength r;
     currentAberrationStrength := currentAberrationStrength r;
     targetDirection := targetDirection r;
     currentDirection := v;
     lastScrollY := lastScrollY r; scrollTimer := scrollTimer r;
     forceReset := forceReset r |}.

Definition set_lastScrollY (v : R) (r : Refs) : Refs :=
  {| materialRef := materialRef r; isScrolling := isScrolling r;
     targetAberrationStrength := targetAberrationStrength r;
     currentAberrationStrength := currentAberrationStrength r;
     targetDirection := targetDirection r;
     currentDirection := currentDirection r;
     lastScrollY := v; scrollTimer := scrollTimer r;
     forceReset := forceReset r |}.

Definition set_scrollTimer (v : option nat) (r : Refs) : Refs :=
  {| materialRef := materialRef r; isScrolling := isScrolling r;
     targetAberrationStrength := targetAberrationStrength r;
     currentAberrationStrength := currentAberrationStrength r;
     targetDirection := targetDirection r;
     currentDirection := currentDirection r;
     lastScrollY := lastScrollY r; scrollTimer := v;
     forceReset := forceReset r |}.

Definition set_forceReset (v : bool) (r : Refs) : Refs :=
  {| materialRef := materialRef r; isScrolling := isScrolling r;
     targetAberrationStrength := targetAberrationStrength r;
     currentAberrationStrength := currentAberrationStrength r;
     targetDirection := targetDirection r;
     currentDirection := currentDirection r;
     lastScrollY := lastScrollY r; scrollTimer := scrollTimer r;
     forceReset := v |}.

(** The values the [useRef] calls start from, on a page scrolled to
    [window.scrollY]. *)
Definition initialRefs (w : Window) : Refs :=
  {| materialRef := None; isScrolling := false;
     targetAberrationStrength := 0; currentAberrationStrength := 0;
     targetDirection := Vector2.mk 0 0; currentDirection := Vector2.mk 0 0;
     lastScrollY := scrollY w; scrollTimer := None; forceReset := false |}.

(** [createChromaticAberrationMaterial]: the uniforms of a fresh material. *)
Definition createChromaticAberrationMaterial : Uniforms :=
  {| aberrationStrength := 0; aberrationDirection := Vector2.mk 0 0;
     uOffset := Vector2.mk 0 0 |}.

(** One mounted [ImageWithEffect]: its refs and the window's timer table. *)
Record World (C : Type) : Type := { refs : Refs; timers : TimerTable C }.
Arguments refs {C} _.
Arguments timers {C} _.
Arguments Build_World {C} _ _.

(** ** Third revision: time-scaled damping (lines 592-1101) *)

Module TimeScaled.
Local Open Scope R_scope.
Import JS.

Inductive Callback : Type := ScrollStop.

(** [isMobile], lines 848-854. *)
Definition isMobile (w : Window) : bool :=
  mobileAgent (userAgent w) || le (innerWidth w) 768.

Section Component.
Variable maxAberration : R.

(** The callback [handleScroll] hands to [requestAnimationFrame]
    (lines 716-762); [w] is the window at the time it runs. *)
Definition handleScroll (w : Window) (s : World Callback) : World Callback :=
  let currentScrollY := scrollY w in
  let delta := currentScrollY - lastScrollY (refs s) in
  let r := set_lastScrollY currentScrollY (refs s) in
  if lt (Math_abs delta) 0.1 then Build_World r (timers s) else
  let normalizedDelta :=
    Math_min 1.0 (Math_abs delta / (if isMobile w then 15 else 30)) in
  let r := set_targetDirection
             (Vector2.set (targetDirection r) 0 (normalizedDelta * Math_sign delta)) r in
  let speedFactor :=
    Math_min 1.0 (Math_abs delta / (if isMobile w then 12 else 25)) in
  let r := set_targetAberrationStrength (speedFactor * maxAberration) r in
  let r := set_isScrolling true r in
  let r := set_forceReset false r in
  let tbl := match scrollTimer r with
            | Some id => clearTimeout id (timers s)
            | None => timers s
            end in
  let '(id, tbl) := setTimeout ScrollStop (if isMobile w then 250 else 200)%nat tbl in
  Build_World (set_scrollTimer (Some id) r) tbl.

(** The body of the debounce callback (lines 752-759). *)
Definition onTimeout (cb : Callback) (s : World Callback) : World Callback :=
  match cb with
  | ScrollStop =>
      Build_World
        (set_targetAberrationStrength 0 (set_isScrolling false (refs s)))
        (timers s)
  end.

(** The browser runs a pending timer and forgets it. *)
Definition fire (id : nat) (s : World Callback) : World Callback :=
  match pending (timers s) !! id with
  | None => s
  | Some t => onTimeout (callback t)
                (Build_World (refs s) (clearTimeout id (timers s)))
  end.

(** The smoothing of the frame loop, lines 785-832. *)
Definition smooth (w : Window) (delta : R) (r : Refs) : Refs :=
  let isMobileDevice := isMobile w in
  let strengthDamping := if isMobileDevice then 0.12 else 0.15 in
  if forceReset r then
    let resetDamping := if isMobileDevice then 0.4 else 0.25 in
    let r := set_currentAberrationStrength
               (lerp (currentAberrationStrength r) 0 resetDamping) r in
    let r := set_currentDirection
               (Vector2.lerp (currentDirection r) (Vector2.mk 0 0) resetDamping) r in
    if lt (currentAberrationStrength r) 0.0005 then
      set_forceReset false
        (set_currentDirection (Vector2.set (currentDirection r) 0 0)
           (set_currentAberrationStrength 0 r))
    else r
  else
    let scaledDamping := 1.0 - Math_pow (1.0 - strengthDamping) (delta * 60) in
    let r := set_currentAberrationStrength
               (lerp (currentAberrationStrength r)
                     (targetAberrationStrength r) scaledDamping) r in
    let r := if lt (currentAberrationStrength r) 0.0005
             then set_currentAberrationStrength 0 r else r in
    let directionDamping := if isMobileDevice then 0.12 else 0.15 in
    let scaledDirectionDamping :=
      1.0 - Math_pow (1.0 - directionDamping) (delta * 60) in
    set_currentDirection
      (Vector2.lerp (currentDirection r) (targetDirection r)
                    scaledDirectionDamping) r.

(** The [useFrame] callback, lines 782-845; [delta] is the time since the
    previous frame in seconds.  The direction uniform is assigned the very
    [Vector2] that [currentDirection] holds; only the frame loop mutates that
    object, so the value read here is the one the shader sees. *)
Definition useFrame (w : Window) (delta : R) (r : Refs) : Refs :=
  match materialRef r with
  | None => r
  | Some _ =>
      let r := smooth w delta r in
      let offset :=
        currentAberrationStrength r * 0.5 * Vector2.y (currentDirection r) in
      set_materialRef
        (Some {| aberrationStrength := currentAberrationStrength r;
                 aberrationDirection := currentDirection r;
                 uOffset := Vector2.mk 0 offset |}) r
  end.

(** What can happen to a mounted item. *)
Inductive Event : Type :=
| TextureLoaded                     (* the effect of lines 702-711 *)
| Scroll (w : Window)               (* a scroll or touchmove callback runs *)
| Timeout (id : nat)                (* the browser fires timer [id] *)
| Frame (w : Window) (delta : R).   (* the renderer calls [useFrame] *)

Definition step (s : World Callback) (e : Event) : World Callback :=
  match e with
  | TextureLoaded =>
      Build_World (set_materialRef (Some createChromaticAberrationMaterial) (refs s))
                  (timers s)
  | Scroll w => handleScroll w s
  | Timeout id => fire id s
  | Frame w delta => Build_World (useFrame w delta (refs s)) (timers s)
  end.

Definition run (s : World Callback) (es : list Event) : World Callback :=
  fold_left step es s.

Definition mount (w : Window) : World Callback :=
  Build_World (initialRefs w) {| pending := ∅; nextId := 0 |}.

End Component.

(** Events without scroll input that leave timer [id] pending. *)
Definition quiet (id : nat) (e : Event) : Prop :=
  match e with
  | Scroll _ => False
  | Timeout id' => id' <> id
  | TextureLoaded | Frame _ _ => True
  end.

(** Frame times are elapsed times. *)
Definition elapsed (e : Event) : Prop :=
  match e with
  | Frame _ delta => 0 <= delta
  | _ => True
  end.

End TimeScaled.

(** ** Fourth revision: fixed damping and a watchdog (lines 1102-1516) *)

Module Watchdog.
Local Open Scope R_scope.
Import JS.

Inductive Callback : Type :=
| ScrollStop    (* the debounce callback, lines 1250-1265 *)
| StuckCheck.   (* the inner one-second callback, lines 1256-1264 *)

Section Component.
Variable maxAberration : R.

(** [handleScroll], lines 1224-1266. *)
Definition handleScroll (w : Window) (s : World Callback) : World Callback :=
  let currentScrollY := scrollY w in
  let delta := currentScrollY - lastScrollY (refs s) in
  let r := set_lastScrollY currentScrollY (refs s) in
  if lt (Math_abs delta) 0.5 then Build_World r (timers s) else
  let direction := Math_sign delta in
  let r := set_targetDirection (Vector2.set (targetDirection r) 0 direction) r in
  let speedFactor := Math_min 1.0 (Math_abs delta / 20) in
  let r := set_targetAberrationStrength (speedFactor * maxAberration) r in
  let r := set_isScrolling true r in
  let r := set_forceReset false r in
  let tbl := match scrollTimer r with
             | Some id => clearTimeout id (timers s)
             | None => timers s
             end in
  let '(id, tbl) := setTimeout ScrollStop 200%nat tbl in
  Build_World (set_scrollTimer (Some id) r) tbl.

(** The bodies of the two timer callbacks. *)
Definition onTimeout (cb : Callback) (s : World Callback) : World Callback :=
  match cb with
  | ScrollStop =>
      let r := set_targetAberrationStrength 0 (set_isScrolling false (refs s)) in
      Build_World r (snd (setTimeout StuckCheck 1000%nat (timers s)))
  | StuckCheck =>
      if gt (currentAberrationStrength (refs s)) 0
         && lt (currentAberrationStrength (refs s)) 0.05
      then Build_World (set_forceReset true (refs s)) (timers s)
      else s
  end.

(** The browser runs a pending timer and forgets it. *)
Definition fire (id : nat) (s : World Callback) : World Callback :=
  match pending (timers s) !! id with
  | None => s
  | Some t => onTimeout (callback t)
                (Build_World (refs s) (clearTimeout id (timers s)))
  end.

(** The smoothing of the frame loop, lines 1282-1307. *)
Definition smooth (r : Refs) : Refs :=
  let strengthDamping := if isScrolling r then 0.15 else 0.08 in
  if forceReset r then
    set_forceReset false
      (set_currentDirection (Vector2.set (currentDirection r) 0 0)
         (set_currentAberrationStrength 0 r))
  else
    let r := set_currentAberrationStrength
               (lerp (currentAberrationStrength r)
                     (targetAberrationStrength r) strengthDamping) r in
    let r := if lt (currentAberrationStrength r) 0.001
             then set_currentAberrationStrength 0 r else r in
    let directionDamping := 0.2 in
    set_currentDirection
      (Vector2.lerp (currentDirection r) (targetDirection r) directionDamping) r.

(** The [useFrame] callback, lines 1279-1324.  It receives the frame time
    [delta] and does not use it. *)
Definition useFrame (delta : R) (r : Refs) : Refs :=
  match materialRef r with
  | None => r
  | Some _ =>
      let r := smooth r in
      let offset :=
        currentAberrationStrength r * 0.5 *
        (if eq (Vector2.y (currentDirection r)) 0 then 0
         else Math_sign (Vector2.y (currentDirection r))) in
      set_materialRef
        (Some {| aberrationStrength := currentAberrationStrength r;
                 aberrationDirection := currentDirection r;
                 uOffset := Vector2.mk 0 offset |}) r
  end.

Inductive Event : Type :=
| TextureLoaded                     (* the effect of lines 1211-1220 *)
| Scroll (w : Window)               (* the scroll listener runs *)
| Timeout (id : nat)                (* the browser fires timer [id] *)
| Frame (delta : R).                (* the renderer calls [useFrame] *)

Definition step (s : World Callback) (e : Event) : World Callback :=
  match e with
  | TextureLoaded =>
      Build_World (set_materialRef (Some createChromaticAberrationMaterial) (refs s))
                  (timers s)
  | Scroll w => handleScroll w s
  | Timeout id => fire id s
  | Frame delta => Build_World (useFrame delta (refs s)) (timers s)
  end.

Definition run (s : World Callback) (es : list Event) : World Callback :=
  fold_left step es s.

Definition mount (w : Window) : World Callback :=
  Build_World (initialRefs w) {| pending := ∅; nextId := 0 |}.

End Component.

(** Events without scroll input that leave timer [id] pending. *)
Definition quiet (id : nat) (e : Event) : Prop :=
  match e with
  | Scroll _ => False
  | Timeout id' => id' <> id
  | TextureLoaded | Frame _ => True
  end.

End Watchdog.

(** ** The document

    The [img] elements of the page in document order.  A node reference, as
    held by a [NodeList] or captured by a closure, is the element's index. *)

Module DOMRect.
Record t : Type := mk { left : R; top : R; width : R; height : R }.
End DOMRect.

Record Img : Type := {
  src : string;
  data_shader : bool;             (* carries the attribute [data-shader] *)
  data_chromatic_decay : bool;    (* carries [data-chromatic-decay] *)
  getBoundingClientRect : DOMRect.t;
  img_width : R;                  (* [img.width] *)
  img_height : R;                 (* [img.height] *)
  style_opacity : string;         (* [img.style.opacity] *)
  dataset_chromaticId : option string
}.

Definition set_style_opacity (v : string) (i : Img) : Img :=
  {| src := src i; data_shader := data_shader i;
     data_chromatic_decay := data_chromatic_decay i;
     getBoundingClientRect := getBoundingClientRect i;
     img_width := img_width i; img_height := img_height i;
     style_opacity := v; dataset_chromaticId := dataset_chromaticId i |}.

Definition set_dataset_chromaticId (v : option string) (i : Img) : Img :=
  {| src := src i; data_shader := data_shader i;
     data_chromatic_decay := data_chromatic_decay i;
     getBoundingClientRect := getBoundingClientRect i;
     img_width := img_width i; img_height := img_height i;
     style_opacity := style_opacity i; dataset_chromaticId := v |}.

Fixpoint matchingFrom (sel : Img -> bool) (n : nat) (doc : list Img) : list nat :=
  match doc with
  | [] => []
  | i :: rest => (if sel i then [n] else []) ++ matchingFrom sel (S n) rest
  end.

(** [document.querySelectorAll('img[...]')]: the references of the matching
    elements, in document order. *)
Definition querySelectorAll (sel : Img -> bool) (doc : list Img) : list nat :=
  matchingFrom sel 0 doc.

(** [nodes.forEach(img => ...)] for a callback that only mutates [img]. *)
Definition forEach (f : Img -> Img) (nodes : list nat) (doc : list Img) : list Img :=
  fold_left (fun d n => alter f n d) nodes doc.

(** The window's listener registry, for the handlers of the overlay. *)
Inductive Handler : Type := handleResize.

Definition Listeners : Type := list (string * Handler).

Definition same_listener (a b : string * Handler) : bool :=
  String.eqb (fst a) (fst b) &&
  match snd a, snd b with handleResize, handleResize => true end.

Definition addEventListener (type : string) (h : Handler) (ls : Listeners) : Listeners :=
  if existsb (same_listener (type, h)) ls then ls else ls ++ [(type, h)].

Definition removeEventListener (type : string) (h : Handler) (ls : Listeners) : Listeners :=
  List.filter (fun l => negb (same_listener (type, h) l)) ls.

(** ** Second revision: [ChromaticImages] (lines 478-559) *)

Module ChromaticImages.

Record ImageEntry : Type := {
  entry_src : string;
  element : nat;
  id : string;
  visible : bool
}.

Record State : Type := {
  document : list Img;
  images : list ImageEntry;        (* the [images] state of the component *)
  observer : list nat              (* targets of the IntersectionObserver *)
}.

(** The template literal [`chromatic-image-${index}`]. *)
Definition chromaticId (index : nat) : string :=
  ("chromatic-image-" ++ NilEmpty.string_of_uint (Nat.to_uint index))%string.

(** The [chromaticImages.map((img, index) => ...)] of lines 512-527, from
    position [index] on: each image gets its id, is observed, and yields an
    entry. *)
Fixpoint createEntries (index : nat) (nodes : list nat) (st : State) : State :=
  match nodes with
  | [] => st
  | n :: rest =>
      let id := chromaticId index in
      let doc := alter (set_dataset_chromaticId (Some id)) n (document st) in
      let entry := match doc !! n with
                   | Some i => [{| entry_src := src i; element := n; id := id;
                                   visible := false |}]
                   | None => []
                   end in
      createEntries (S index) rest
        {| document := doc; images := images st ++ entry;
           observer := observer st ++ [n] |}
  end.

(** The effect body, lines 481-534.  It returns the new state and the
    [chromaticImages] array its cleanup closes over. *)
Definition effect (doc : list Img) : State * list nat :=
  let chromaticImages := querySelectorAll data_chromatic_decay doc in
  let st := createEntries 0 chromaticImages
              {| document := doc; images := []; observer := [] |} in
  ({| document := forEach (set_style_opacity "0") chromaticImages (document st);
      images := images st; observer := observer st |},
   chromaticImages).

(** The cleanup the effect returns, lines 536-542. *)
Definition cleanup (chromaticImages : list nat) (st : State) : State :=
  {| document :=
       forEach (fun i => set_dataset_chromaticId None (set_style_opacity "" i))
               chromaticImages (document st);
     images := images st;
     observer := [] |}.

End ChromaticImages.

(** ** [ShaderEffectOverlay] (lines 865-996 and 1335-1459) *)

Module Viewport.
Record t : Type := mk { width : R; height : R }.
End Viewport.

Module ShaderEffectOverlay.
Local Open Scope R_scope.

Record ImageSize : Type := { width : R; height : R }.

Record ImageData : Type := {
  data_src : string;
  position : R * R * R;
  size : ImageSize
}.

Record State : Type := {
  document : list Img;
  listeners : Listeners;
  imageData : list ImageData;
  setupComplete : bool
}.

Section Mapping.
Variables (w : Window) (viewport : Viewport.t).

Definition worldX (rect : DOMRect.t) : R :=
  ((DOMRect.left rect + DOMRect.width rect / 2) / innerWidth w)
    * Viewport.width viewport
  - Viewport.width viewport / 2.

Definition worldY (rect : DOMRect.t) : R :=
  - (((DOMRect.top rect + DOMRect.height rect / 2) / innerHeight w)
       * Viewport.height viewport)
  + Viewport.height viewport / 2.

(** What the [forEach] callback of [setupImages] pushes for one image.  The
    third revision sizes the plane from the bounding rectangle
    (lines 899-900), the fourth from [img.width] and [img.height]
    (lines 1370-1372); [fromRect] tells them apart. *)
Definition measure (fromRect : bool) (i : Img) : ImageData :=
  let rect := getBoundingClientRect i in
  let viewportWidth := Viewport.width viewport in
  let viewportHeight := Viewport.height viewport in
  let worldWidth :=
    ((if fromRect then DOMRect.width rect else img_width i) / innerWidth w)
      * viewportWidth in
  let worldHeight :=
    ((if fromRect then DOMRect.height rect else img_height i) / innerHeight w)
      * viewportHeight in
  {| data_src := src i;
     position := (worldX rect, worldY rect, 0);
     size := {| width := worldWidth; height := worldHeight |} |}.

(** [setupImages], lines 889-928 and 1358-1403. *)
Definition setupImages (fromRect : bool) (st : State) : State :=
  let images := querySelectorAll data_shader (document st) in
  let newImageData :=
    omap (fun n => measure fromRect <$> document st !! n) images in
  {| document := forEach (set_style_opacity "0") images (document st);
     listeners := listeners st;
     imageData := newImageData;
     setupComplete := true |}.

(** The mount effect, lines 873-886 and 1343-1355: measure once, then listen
    for resizes. *)
Definition effect (fromRect : bool) (st : State) : State :=
  let st := setupImages fromRect st in
  {| document := document st;
     listeners := addEventListener "resize" handleResize (listeners st);
     imageData := imageData st;
     setupComplete := setupComplete st |}.

End Mapping.

(** The cleanup the effect returns, lines 883-885 and 1352-1354. *)
Definition cleanup (st : State) : State :=
  {| document := document st;
     listeners := removeEventListener "resize" handleResize (listeners st);
     imageData := imageData st;
     setupComplete := setupComplete st |}.

(** The inverse the round-trip property speaks of: scale a world position by
    the window/viewport ratio and flip the vertical axis back. *)
Definition screenX (w : Window) (viewport : Viewport.t) (x : R) : R :=
  (x + Viewport.width viewport / 2) * (innerWidth w / Viewport.width viewport).

Definition screenY (w : Window) (viewport : Viewport.t) (y : R) : R :=
  (Viewport.height viewport / 2 - y) * (innerHeight w / Viewport.height viewport).

End ShaderEffectOverlay.

(** ** Concrete windows for the examples *)

Local Open Scope R_scope.

Definition desktopWindow (y : R) : Window :=
  {| scrollY := y; innerWidth := 1280; innerHeight := 800;
     userAgent := "Mozilla/5.0 (X11; Linux x86_64; rv:130.0) Gecko/20100101 Firefox/130.0" |}.

Definition phoneWindow (y : R) : Window :=
  {| scrollY := y; innerWidth := 390; innerHeight := 844;
     userAgent := "Mozilla/5.0 (iPhone; CPU iPhone OS 17_5 like Mac OS X) Mobile/15E148" |}.

(** ** Shapes used to state what the handlers do *)

Section Shapes.
Variable maxAberration : R.

(** The refs an above-threshold scroll leaves behind, timer id aside. *)
Definition scrolled (direction speedFactor : R) (w : Window) (r : Refs) : Refs :=
  set_forceReset false
    (set_isScrolling true
       (set_targetAberrationStrength (speedFactor * maxAberration)
          (set_targetDirection (Vector2.mk 0 direction)
             (set_lastScrollY (scrollY w) r)))).

Definition rescheduled {C} (cb : C) (ms : nat) (old : option nat)
    (tbl : TimerTable C) : TimerTable C :=
  snd (setTimeout cb ms
         (match old with Some id => clearTimeout id tbl | None => tbl end)).

End Shapes.

(** The snap to zero both frame loops end their smoothing with. *)
Definition snap (eps x : R) : R := if JS.lt x eps then 0 else x.

(** The per-frame damping constant of the time-scaled revision. *)
Definition strengthDamping (w : Window) : R :=
  if TimeScaled.isMobile w then 0.12 else 0.15.

(** The share of the distance to the target that a time-scaled frame of
    [delta] seconds keeps: [Math.pow(1.0 - strengthDamping, delta * 60)]. *)
Definition kept (w : Window) (delta : R) : R :=
  JS.Math_pow (1 - strengthDamping w) (delta * 60).

(** Several frames in a row on one device. *)
Definition timeScaled_frames (w : Window) (ds : list R) (r : Refs) : Refs :=
  fold_left (fun r d => TimeScaled.useFrame w d r) ds r.

Definition watchdog_frames (ds : list R) (r : Refs) : Refs :=
  fold_left (fun r d => Watchdog.useFrame d r) ds r.

Definition total (ds : list R) : R := fold_right Rplus 0 ds.

(** Target and current strength both lie in [0, maxAberration]. *)
Definition within (maxAberration : R) (r : Refs) : Prop :=
  0 <= targetAberrationStrength r <= maxAberration /\
  0 <= currentAberrationStrength r <= maxAberration.

(** The refs of an item whose texture has loaded and whose target strength
    has been set to [t], everything else as at mount. *)
Definition loadedAt (t : R) : Refs :=
  set_targetAberrationStrength t
    (set_materialRef (Some createChromaticAberrationMaterial)
       (initialRefs (desktopWindow 0))).

(** A time-scaled item in mid-scroll: texture loaded, current strength [c],
    target strength [t], and its debounce timer pending under id 0. *)
Definition timeScaled_scrolling (c t : R) : World TimeScaled.Callback :=
  Build_World
    (set_scrollTimer (Some 0%nat)
       (set_isScrolling true (set_currentAberrationStrength c (loadedAt t))))
    {| pending := {[ 0%nat := {| callback := TimeScaled.ScrollStop;
                                 delay := 200%nat |} ]};
       nextId := 1 |}.

Definition watchdog_scrolling (c t : R) : World Watchdog.Callback :=
  Build_World
    (set_scrollTimer (Some 0%nat)
       (set_isScrolling true (set_currentAberrationStrength c (loadedAt t))))
    {| pending := {[ 0%nat := {| callback := Watchdog.ScrollStop;
                                 delay := 200%nat |} ]};
       nextId := 1 |}.

(** An image with neither inline opacity nor chromatic id: what the cleanup
    callback of [ChromaticImages] turns an image into. *)
Definition cleared (i : Img) : Img :=
  set_dataset_chromaticId None (set_style_opacity "" i).

(** The horizontal and vertical centre of a rectangle on screen. *)
Definition centerX (rect : DOMRect.t) : R :=
  DOMRect.left rect + DOMRect.width rect / 2.

Definition centerY (rect : DOMRect.t) : R :=
  DOMRect.top rect + DOMRect.height rect / 2.

(** An image of the skills grid, [<img src=... data-shader />]. *)
Definition skillsImg (file : string) : Img :=
  {| src := file; data_shader := true; data_chromatic_decay := false;
     getBoundingClientRect := DOMRect.mk 100 200 64 64;
     img_width := 64; img_height := 64;
     style_opacity := ""; dataset_chromaticId := None |}.

(** An image marked for the decay overlay that is already half transparent
    through its own inline style. *)
Definition fadedImg : Img :=
  {| src := "hero.png"; data_shader := false; data_chromatic_decay := true;
     getBoundingClientRect := DOMRect.mk 0 0 640 360;
     img_width := 640; img_height := 360;
     style_opacity := "0.5"; dataset_chromaticId := None |}.

Definition canvasViewport : Viewport.t := Viewport.mk 16 10.

(** A world whose timer ids, the one in [scrollTimer] included, have all
    been handed out by [setTimeout]. *)
Definition world_wf {C} (s : World C) : Prop :=
  timers_wf (timers s) /\
  forall id, scrollTimer (refs s) = Some id -> (id < nextId (timers s))%nat.



From Stdlib Require DecimalNat.

(** ** Mounting and unmounting an [ImageWithEffect]

    The scroll effect of lines 713-778 and 1223-1276 attaches [handleScroll]
    to window events and returns a cleanup.  [listening] holds the event
    types the handler of this item is attached to. *)

Record Mounted (C : Type) : Type := { world : World C; listening : list string }.
Arguments world {C} _.
Arguments listening {C} _.
Arguments Build_Mounted {C} _ _.

Definition attach (type : string) (types : list string) : list string :=
  if existsb (String.eqb type) types then types else types ++ [type].

Definition detach (type : string) (types : list string) : list string :=
  List.filter (fun t => negb (String.eqb type t)) types.

(** Lines 766-769: the time-scaled revision listens to scroll and touchmove. *)
Definition timeScaled_effect (m : Mounted TimeScaled.Callback)
  : Mounted TimeScaled.Callback :=
  Build_Mounted (world m) (attach "touchmove" (attach "scroll" (listening m))).

(** Line 1268: the watchdog revision listens to scroll only. *)
Definition watchdog_effect (m : Mounted Watchdog.Callback)
  : Mounted Watchdog.Callback :=
  Build_Mounted (world m) (attach "scroll" (listening m)).

(** The timer part of both cleanups: [clearTimeout(scrollTimer.current)]
    unless the ref is null. *)
Definition clearScrollTimer {C} (s : World C) : World C :=
  match scrollTimer (refs s) with
  | Some id => Build_World (refs s) (clearTimeout id (timers s))
  | None => s
  end.

(** Lines 771-777. *)
Definition timeScaled_cleanup (m : Mounted TimeScaled.Callback)
  : Mounted TimeScaled.Callback :=
  Build_Mounted (clearScrollTimer (world m))
                (detach "touchmove" (detach "scroll" (listening m))).

(** Lines 1270-1275. *)
Definition watchdog_cleanup (m : Mounted Watchdog.Callback)
  : Mounted Watchdog.Callback :=
  Build_Mounted (clearScrollTimer (world m)) (detach "scroll" (listening m)).

(** ** Shapes for the further properties *)

(** A chain of scroll positions each closer than [threshold] to the one
    before, starting from [last]. *)
Fixpoint creeping (threshold last : R) (ws : list Window) : Prop :=
  match ws with
  | [] => True
  | w :: rest => Rabs (scrollY w - last) < threshold /\
                 creeping threshold (scrollY w) rest
  end.

(** The scroll position the handler has recorded after seeing [ws]. *)
Definition lastSeen (last : R) (ws : list Window) : R :=
  fold_left (fun _ w => scrollY w) ws last.

(** Both directions point straight up or down and are at most 1 long. *)
Definition vertical (r : Refs) : Prop :=
  Vector2.x (targetDirection r) = 0 /\ -1 <= Vector2.y (targetDirection r) <= 1 /\
  Vector2.x (currentDirection r) = 0 /\ -1 <= Vector2.y (currentDirection r) <= 1.

(** Uniforms a shader can be handed: strength within range, offset vertical
    and at most half the maximum. *)
Definition uniforms_within (maxAberration : R) (u : Uniforms) : Prop :=
  0 <= aberrationStrength u <= maxAberration /\
  Vector2.x (uOffset u) = 0 /\
  Rabs (Vector2.y (uOffset u)) <= maxAberration / 2.

(** What a run keeps: strengths in range, directions vertical, and uniforms
    within their bounds whenever there is a material. *)
Definition presentable (maxAberration : R) (r : Refs) : Prop :=
  within maxAberration r /\ vertical r /\
  forall u, materialRef r = Some u -> uniforms_within maxAberration u.

(** ** The shaders of [createChromaticAberrationMaterial]

    Lines 611-660 and 1120-1169.  A sampler is a function from texture
    coordinates to colours; the projection of the displaced vertex is left
    to the renderer. *)

Module Shader.

Record vec3 : Type := { px : R; py : R; pz : R }.

Record vec4 : Type := { r : R; g : R; b : R; a : R }.

Definition sampler2D : Type := Vector2.t -> vec4.

Definition texture2D (map : sampler2D) (uv : Vector2.t) : vec4 := map uv.

Definition M_PI : R := 3.1415926535897932384626433832795.

Definition deformationCurve (position : vec3) (uv offset : Vector2.t) : vec3 :=
  let x := px position + sin (Vector2.y uv * M_PI) * Vector2.x offset in
  let y := py position + sin (Vector2.x uv * M_PI) * Vector2.y offset in
  {| px := x; py := y; pz := pz position |}.

(** [main] of the vertex shader up to [newPosition]. *)
Definition vertex (uOffset : Vector2.t) (position : vec3) (uv : Vector2.t) : vec3 :=
  deformationCurve position uv uOffset.

(** [main] of the fragment shader: the value of [gl_FragColor]. *)
Definition fragment (map : sampler2D) (aberrationStrength : R)
    (aberrationDirection : Vector2.t) (vUv : Vector2.t) : vec4 :=
  let uv := vUv in
  if JS.gt aberrationStrength 0 then
    let rOffset := Vector2.mk (Vector2.x aberrationDirection * aberrationStrength)
                              (Vector2.y aberrationDirection * aberrationStrength) in
    let bOffset := Vector2.mk (- Vector2.x aberrationDirection * aberrationStrength)
                              (- Vector2.y aberrationDirection * aberrationStrength) in
    let cr := texture2D map (Vector2.mk (Vector2.x uv + Vector2.x rOffset)
                                        (Vector2.y uv + Vector2.y rOffset)) in
    let cg := texture2D map uv in
    let cb := texture2D map (Vector2.mk (Vector2.x uv + Vector2.x bOffset)
                                        (Vector2.y uv + Vector2.y bOffset)) in
    let alpha := a cg in
    {| r := r cr; g := g cg; b := b cb; a := alpha |}
  else
    let cg := texture2D map uv in
    let cr := cg in
    let cb := cg in
    let alpha := a cg in
    {| r := r cr; g := g cg; b := b cb; a := alpha |}.

End Shader.

(** ** The frame loop of [ShaderEffectOverlay]

    Lines 931-982 (third revision, which also follows size changes) and
    1406-1445 (fourth revision, positions only); [sized] tells them apart. *)

Module OverlayFrame.
Local Open Scope R_scope.
Import ShaderEffectOverlay.

(** [Math.abs(a - b) > 0.01]. *)
Definition differs (a b : R) : bool := JS.gt (JS.Math_abs (a - b)) 0.01.

Section Frame.
Variables (w : Window) (viewport : Viewport.t) (sized : bool).

(** The body of the [forEach] callback for an index within range: the entry
    to store at that index when the image has moved (or, in the third
    revision, changed size) by more than 0.01, and nothing otherwise. *)
Definition refreshed (img : Img) (entry : ImageData) : option ImageData :=
  let rect := getBoundingClientRect img in
  let viewportWidth := Viewport.width viewport in
  let viewportHeight := Viewport.height viewport in
  let worldX := worldX w viewport rect in
  let worldY := worldY w viewport rect in
  let worldWidth := (DOMRect.width rect / innerWidth w) * viewportWidth in
  let worldHeight := (DOMRect.height rect / innerHeight w) * viewportHeight in
  if differs (fst (fst (position entry))) worldX
     || differs (snd (fst (position entry))) worldY
     || (sized && (differs (width (size entry)) worldWidth
                   || differs (height (size entry)) worldHeight))
  then Some {| data_src := data_src entry;
               position := (worldX, worldY, 0);
               size := if sized
                       then {| width := worldWidth; height := worldHeight |}
                       else size entry |}
  else None.

(** [images.forEach((img, index) => ...)] from position [index] on, threading
    the copied array and the [needsUpdate] flag. *)
Fixpoint reconcile (index : nat) (images : list Img)
    (updatedImageData : list ImageData) (needsUpdate : bool)
  : list ImageData * bool :=
  match images with
  | [] => (updatedImageData, needsUpdate)
  | img :: rest =>
      if (length updatedImageData <=? index)%nat
      then reconcile (S index) rest updatedImageData needsUpdate
      else
        match updatedImageData !! index with
        | Some entry =>
            match refreshed img entry with
            | Some entry' =>
                reconcile (S index) rest (<[index := entry']> updatedImageData) true
            | None => reconcile (S index) rest updatedImageData needsUpdate
            end
        | None => reconcile (S index) rest updatedImageData needsUpdate
        end
  end.

(** The images a [querySelectorAll('img[data-shader]')] hands to [forEach]. *)
Definition shaderImages (doc : list Img) : list Img :=
  omap (fun n => doc !! n) (querySelectorAll data_shader doc).

Definition useFrame (st : State) : State :=
  if setupComplete st then
    let images := shaderImages (document st) in
    let '(updatedImageData, needsUpdate) :=
      reconcile 0 images (imageData st) false in
    if needsUpdate
    then {| document := document st; listeners := listeners st;
            imageData := updatedImageData; setupComplete := setupComplete st |}
    else st
  else st.

End Frame.

(** An entry lies within the 0.01 tolerance of where [img] is now. *)
Definition tracks (w : Window) (viewport : Viewport.t) (sized : bool)
    (img : Img) (entry : ImageData) : Prop :=
  let rect := getBoundingClientRect img in
  Rabs (fst (fst (position entry)) - worldX w viewport rect) <= 0.01 /\
  Rabs (snd (fst (position entry)) - worldY w viewport rect) <= 0.01 /\
  (sized = true ->
   Rabs (width (size entry)
         - (DOMRect.width rect / innerWidth w) * Viewport.width viewport) <= 0.01 /\
   Rabs (height (size entry)
         - (DOMRect.height rect / innerHeight w) * Viewport.height viewport) <= 0.01).

End OverlayFrame.

(** ** Second revision: one [ChromaticImage] (lines 301-453) *)

Module ChromaticImage.
Local Open Scope R_scope.

Record Size : Type := { size_width : R; size_height : R }.

(** The uniforms [updateMaterial] writes. *)
Record MaterialUniforms : Type := {
  uTime : R;
  abberationStrength : R;
  uResolution : Vector2.t
}.

(** [updateMaterial], lines 302-319: the new contents of the material ref
    and the returned strength; [elapsedTime] is [clock.getElapsedTime()]. *)
Definition updateMaterial (materialRef : option MaterialUniforms)
    (elapsedTime : R) (size : Size) (strength targetStrength : R)
  : option MaterialUniforms * R :=
  let strengthDifference := targetStrength - strength in
  let newStrength := strength + strengthDifference * 0.02 in
  (match materialRef with
   | Some _ => Some {| uTime := elapsedTime;
                       abberationStrength := newStrength;
                       uResolution := Vector2.mk (size_width size) (size_height size) |}
   | None => None
   end,
   newStrength).

(** What persists from frame to frame: the material ref and the [strength]
    state. *)
Record Rendered : Type := { material : option MaterialUniforms; strength : R }.

(** The [useFrame] callback, lines 436-445; [elapsedTime] is the clock
    reading of that frame. *)
Definition useFrame (size : Size) (targetStrength : R) (st : Rendered)
    (elapsedTime : R) : Rendered :=
  let '(newMaterial, newStrength) :=
    updateMaterial (material st) elapsedTime size (strength st) targetStrength in
  {| material := newMaterial; strength := newStrength |}.

(** One frame per clock reading, towards a fixed target. *)
Definition frames (size : Size) (targetStrength : R) (clock : list R)
    (st : Rendered) : Rendered :=
  fold_left (useFrame size targetStrength) clock st.

Record Dimensions : Type := { x : R; y : R; width : R; height : R }.

(** [updatePosition], lines 376-392. *)
Definition updatePosition (w : Window) (imageRef : option Img)
    (dimensions : Dimensions) : Dimensions :=
  match imageRef with
  | Some img =>
      let rect := getBoundingClientRect img in
      let x := DOMRect.left rect + DOMRect.width rect / 2 - innerWidth w / 2 in
      let y := - (DOMRect.top rect + DOMRect.height rect / 2 - innerHeight w / 2) in
      {| x := x; y := y; width := DOMRect.width rect; height := DOMRect.height rect |}
  | None => dimensions
  end.

Record Camera : Type := {
  cam_left : R; cam_right : R; cam_top : R; cam_bottom : R;
  cam_near : R; cam_far : R; cam_position_z : R
}.

(** The effect of [CameraSetup], lines 459-469. *)
Definition CameraSetup (size : Size) : Camera :=
  {| cam_left := - size_width size / 2;
     cam_right := size_width size / 2;
     cam_top := size_height size / 2;
     cam_bottom := - size_height size / 2;
     cam_near := -1000;
     cam_far := 1000;
     cam_position_z := 10 |}.

End ChromaticImage.

(** ** Second revision: the intersection callback (lines 483-500) *)

Record IntersectionEntry : Type := { target : nat; isIntersecting : bool }.

(** [setImages(prev => prev.map(img => img.id === imageId ? ... : img))]. *)
Definition markVisible (imageId : string) (visible : bool)
    (images : list ChromaticImages.ImageEntry) : list ChromaticImages.ImageEntry :=
  map (fun img =>
         if String.eqb (ChromaticImages.id img) imageId
         then {| ChromaticImages.entry_src := ChromaticImages.entry_src img;
                 ChromaticImages.element := ChromaticImages.element img;
                 ChromaticImages.id := ChromaticImages.id img;
                 ChromaticImages.visible := visible |}
         else img)
      images.

(** What the observer's callback does with one entry; an id that is missing
    or empty is falsy. *)
Definition onIntersection (entry : IntersectionEntry)
    (st : ChromaticImages.State) : ChromaticImages.State :=
  match ChromaticImages.document st !! target entry with
  | Some img =>
      match dataset_chromaticId img with
      | Some imageId =>
          if String.eqb imageId "" then st
          else {| ChromaticImages.document := ChromaticImages.document st;
                  ChromaticImages.images :=
                    markVisible imageId (isIntersecting entry)
                                (ChromaticImages.images st);
                  ChromaticImages.observer := ChromaticImages.observer st |}
      | None => st
      end
  | None => st
  end.

(** The callback itself: [entries.forEach(...)]. *)
Definition onIntersect (entries : list IntersectionEntry)
    (st : ChromaticImages.State) : ChromaticImages.State :=
  fold_left (fun st entry => onIntersection entry st) entries st.

(** The [targetStrength] prop an entry is rendered with, line 553. *)
Definition targetStrengthOf (img : ChromaticImages.ImageEntry) : R :=
  if ChromaticImages.visible img then 0%R else 1%R.

(** ** The landing page: collecting character refs ([App], lines 21-30)

    An element is a node reference; the ref callback receives [None] for
    [null]. *)
Definition addToRefs (el : option nat) (charsRef : list nat) : list nat :=
  match el with
  | Some e => if negb (existsb (Nat.eqb e) charsRef) then charsRef ++ [e] else charsRef
  | None => charsRef
  end.

(** The ref callbacks of one render, starting from the emptied array. *)
Definition collectRefs (els : list (option nat)) : list nat :=
  fold_left (fun chars el => addToRefs el chars) els [].

(** ** The scroll-drawn path ([Squiggle], lines 13-26)

    The two stroke properties are kept as the numbers the template literals
    print. *)
Module Squiggle.
Local Open Scope R_scope.

Record PathStyle : Type := {
  strokeDasharray : option R;
  strokeDashoffset : option R
}.

(** [updateScrollPath]: [svgPath] is the path's total length when the ref is
    set and [svg] the svg's client height; [style] is the path's style. *)
Definition updateScrollPath (w : Window) (svgPath svg : option R)
    (style : PathStyle) : PathStyle :=
  match svgPath, svg with
  | Some getTotalLength, Some clientHeight =>
      let pathLength := getTotalLength in
      let distance := scrollY w in
      let totalDistance := clientHeight - innerHeight w in
      let scrollPercentage := distance / totalDistance in
      {| strokeDasharray := Some pathLength;
         strokeDashoffset := Some (pathLength * (1 - scrollPercentage)) |}
  | _, _ => style
  end.

End Squiggle.
(** ** JavaScript conditions as propositions *)

Lemma lt_true x y : JS.lt x y = true <-> x < y.
Proof. unfold JS.lt. destruct (Rlt_dec x y); split; intros; try easy; lra. Qed.

Lemma lt_false x y : JS.lt x y = false <-> y <= x.
Proof. unfold JS.lt. destruct (Rlt_dec x y); split; intros; try easy; lra. Qed.

Lemma le_false x y : JS.le x y = false <-> y < x.
Proof. unfold JS.le. destruct (Rle_dec x y); split; intros; try easy; lra. Qed.

Lemma sign_pos x : 0 < x -> JS.Math_sign x = 1.
Proof. intros H. unfold JS.Math_sign. destruct (Rlt_dec 0 x); [reflexivity | lra]. Qed.

Lemma sign_neg x : x < 0 -> JS.Math_sign x = -1.
Proof.
  intros H. unfold JS.Math_sign.
  destruct (Rlt_dec 0 x); [lra |]. destruct (Rlt_dec x 0); [reflexivity | lra].
Qed.

Lemma isMobile_desktop y : TimeScaled.isMobile (desktopWindow y) = false.
Proof.
  unfold TimeScaled.isMobile, desktopWindow; cbn [userAgent innerWidth].
  replace (mobileAgent _) with false by (vm_compute; reflexivity).
  apply le_false. lra.
Qed.

Lemma isMobile_phone y : TimeScaled.isMobile (phoneWindow y) = true.
Proof.
  unfold TimeScaled.isMobile, phoneWindow; cbn [userAgent innerWidth].
  replace (mobileAgent _) with true by (vm_compute; reflexivity).
  reflexivity.
Qed.

Lemma one_point_zero : 1.0 = 1.
Proof. lra. Qed.

(** ** The scroll handler, case by case *)

Section HandleScroll.
Variable maxAberration : R.

Lemma timeScaled_handleScroll_small w (s : World TimeScaled.Callback) :
  Rabs (scrollY w - lastScrollY (refs s)) < 0.1 ->
  TimeScaled.handleScroll maxAberration w s
  = Build_World (set_lastScrollY (scrollY w) (refs s)) (timers s).
Proof.
  intros H. unfold TimeScaled.handleScroll, JS.Math_abs.
  apply lt_true in H. rewrite H. reflexivity.
Qed.

Lemma watchdog_handleScroll_small w (s : World Watchdog.Callback) :
  Rabs (scrollY w - lastScrollY (refs s)) < 0.5 ->
  Watchdog.handleScroll maxAberration w s
  = Build_World (set_lastScrollY (scrollY w) (refs s)) (timers s).
Proof.
  intros H. unfold Watchdog.handleScroll, JS.Math_abs.
  apply lt_true in H. rewrite H. reflexivity.
Qed.

Lemma timeScaled_handleScroll_large w (s : World TimeScaled.Callback) :
  0.1 <= Rabs (scrollY w - lastScrollY (refs s)) ->
  let delta := scrollY w - lastScrollY (refs s) in
  let mobile := TimeScaled.isMobile w in
  TimeScaled.handleScroll maxAberration w s
  = Build_World
      (set_scrollTimer (Some (nextId (timers s)))
         (scrolled maxAberration
            (Rmin 1 (Rabs delta / (if mobile then 15 else 30)) * JS.Math_sign delta)
            (Rmin 1 (Rabs delta / (if mobile then 12 else 25))) w (refs s)))
      (rescheduled TimeScaled.ScrollStop (if mobile then 250 else 200)%nat
         (scrollTimer (refs s)) (timers s)).
Proof.
  intros H. cbv zeta. unfold TimeScaled.handleScroll, JS.Math_abs.
  apply lt_false in H. rewrite H, one_point_zero.
  cbn [scrollTimer set_lastScrollY set_forceReset set_isScrolling
       set_targetAberrationStrength set_targetDirection].
  unfold rescheduled. destruct (scrollTimer (refs s)); reflexivity.
Qed.

Lemma watchdog_handleScroll_large w (s : World Watchdog.Callback) :
  0.5 <= Rabs (scrollY w - lastScrollY (refs s)) ->
  let delta := scrollY w - lastScrollY (refs s) in
  Watchdog.handleScroll maxAberration w s
  = Build_World
      (set_scrollTimer (Some (nextId (timers s)))
         (scrolled maxAberration (JS.Math_sign delta) (Rmin 1 (Rabs delta / 20)) w (refs s)))
      (rescheduled Watchdog.ScrollStop 200%nat (scrollTimer (refs s)) (timers s)).
Proof.
  intros H. cbv zeta. unfold Watchdog.handleScroll, JS.Math_abs.
  apply lt_false in H. rewrite H, one_point_zero.
  cbn [scrollTimer set_lastScrollY set_forceReset set_isScrolling
       set_targetAberrationStrength set_targetDirection].
  unfold rescheduled. destruct (scrollTimer (refs s)); reflexivity.
Qed.

End HandleScroll.

(** ** Timer table facts *)

Section Timers.
Context {C : Type}.
Implicit Types (tbl : TimerTable C) (old : option nat).

Lemma rescheduled_nextId (cb : C) ms old tbl :
  nextId (rescheduled cb ms old tbl) = S (nextId tbl).
Proof. unfold rescheduled. destruct old; reflexivity. Qed.

Lemma rescheduled_new (cb : C) ms old tbl :
  pending (rescheduled cb ms old tbl) !! nextId tbl
  = Some {| callback := cb; delay := ms |}.
Proof.
  unfold rescheduled. destruct old; cbn; apply lookup_insert_eq.
Qed.

Lemma rescheduled_old (cb : C) ms id tbl :
  id <> nextId tbl ->
  pending (rescheduled cb ms (Some id) tbl) !! id = None.
Proof.
  intros Hne. unfold rescheduled. cbn.
  rewrite lookup_insert_ne by congruence. apply lookup_delete_eq.
Qed.

Lemma rescheduled_other (cb : C) ms old tbl id :
  id <> nextId tbl -> old <> Some id ->
  pending (rescheduled cb ms old tbl) !! id = pending tbl !! id.
Proof.
  intros Hne Hold. unfold rescheduled. destruct old as [o|]; cbn.
  - rewrite lookup_insert_ne by congruence.
    apply lookup_delete_ne. congruence.
  - apply lookup_insert_ne. congruence.
Qed.

Lemma setTimeout_wf (cb : C) ms tbl :
  timers_wf tbl -> timers_wf (snd (setTimeout cb ms tbl)).
Proof.
  intros Hwf id. cbn. rewrite lookup_insert.
  case_decide as Heq; [subst; lia |].
  intros H. apply Hwf in H. lia.
Qed.

Lemma clearTimeout_wf id tbl : timers_wf tbl -> timers_wf (clearTimeout id tbl).
Proof.
  intros Hwf id'. cbn. rewrite lookup_delete.
  case_decide; [intros [? ?]; discriminate | apply Hwf].
Qed.

Lemma rescheduled_wf (cb : C) ms old tbl :
  timers_wf tbl -> timers_wf (rescheduled cb ms old tbl).
Proof.
  intros Hwf. unfold rescheduled. apply setTimeout_wf.
  destruct old; [apply clearTimeout_wf |]; exact Hwf.
Qed.

End Timers.

Lemma timeScaled_mount_wf w : world_wf (TimeScaled.mount w).
Proof.
  split.
  - intros id [t Ht]. cbn in Ht. rewrite lookup_empty in Ht. discriminate.
  - cbn. discriminate.
Qed.

Lemma watchdog_mount_wf w : world_wf (Watchdog.mount w).
Proof.
  split.
  - intros id [t Ht]. cbn in Ht. rewrite lookup_empty in Ht. discriminate.
  - cbn. discriminate.
Qed.

(** ** Quiet periods keep the debounce timer pending *)

Section Quiet.
Variable maxAberration : R.

Lemma timeScaled_quiet_step id t (s : World TimeScaled.Callback) e :
  TimeScaled.quiet id e ->
  pending (timers s) !! id = Some t ->
  pending (timers (TimeScaled.step maxAberration s e)) !! id = Some t.
Proof.
  intros Hq Hid. destruct e as [| w | id' | w delta]; cbn in *; try easy.
  unfold TimeScaled.fire.
  destruct (pending (timers s) !! id') as [t'|] eqn:Hid'; [| exact Hid].
  destruct (callback t'). cbn. rewrite lookup_delete_ne by congruence. exact Hid.
Qed.

Lemma timeScaled_quiet_run id t es : forall s : World TimeScaled.Callback,
  Forall (TimeScaled.quiet id) es ->
  pending (timers s) !! id = Some t ->
  pending (timers (TimeScaled.run maxAberration s es)) !! id = Some t.
Proof.
  induction es as [| e es IH]; intros s Hq Hid; [exact Hid |].
  inversion Hq; subst. cbn. apply IH; [assumption |].
  now apply timeScaled_quiet_step.
Qed.

Lemma watchdog_quiet_step id t (s : World Watchdog.Callback) e :
  Watchdog.quiet id e ->
  (id < nextId (timers s))%nat ->
  pending (timers s) !! id = Some t ->
  pending (timers (Watchdog.step maxAberration s e)) !! id = Some t /\
  (id < nextId (timers (Watchdog.step maxAberration s e)))%nat.
Proof.
  intros Hq Hlt Hid. destruct e as [| w | id' | delta]; cbn in *; try easy.
  unfold Watchdog.fire.
  destruct (pending (timers s) !! id') as [t'|] eqn:Hid'; [| easy].
  destruct (callback t'); cbn.
  - rewrite lookup_insert_ne by lia.
    rewrite lookup_delete_ne by congruence. split; [exact Hid | lia].
  - destruct (_ && _); cbn; rewrite lookup_delete_ne by congruence; easy.
Qed.

Lemma watchdog_quiet_run id t es : forall s : World Watchdog.Callback,
  Forall (Watchdog.quiet id) es ->
  (id < nextId (timers s))%nat ->
  pending (timers s) !! id = Some t ->
  pending (timers (Watchdog.run maxAberration s es)) !! id = Some t.
Proof.
  induction es as [| e es IH]; intros s Hq Hlt Hid; [exact Hid |].
  inversion Hq as [| ? ? Hq1 Hq2]; subst. cbn.
  destruct (watchdog_quiet_step id t s e) as [Hp Hn]; try assumption.
  now apply IH.
Qed.

End Quiet.

(** ** Invariants of every run *)

Section Runs.
Variable maxAberration : R.

Lemma timeScaled_step_wf (s : World TimeScaled.Callback) e :
  world_wf s -> world_wf (TimeScaled.step maxAberration s e).
Proof.
  intros [Hwf Hst]. destruct e as [| w | id | w delta]; cbn [TimeScaled.step].
  - split; assumption.
  - destruct (Rlt_le_dec (Rabs (scrollY w - lastScrollY (refs s))) 0.1) as [H | H].
    + rewrite timeScaled_handleScroll_small by exact H. split; assumption.
    + rewrite timeScaled_handleScroll_large by exact H. split; cbn [refs timers].
      * now apply rescheduled_wf.
      * intros id Hid. cbn in Hid. injection Hid as <-.
        rewrite rescheduled_nextId. lia.
  - unfold TimeScaled.fire.
    destruct (pending (timers s) !! id) as [t |]; [| split; assumption].
    destruct (callback t). split; cbn.
    + now apply clearTimeout_wf.
    + exact Hst.
  - split; cbn; [exact Hwf |].
    replace (scrollTimer (TimeScaled.useFrame w delta (refs s)))
      with (scrollTimer (refs s)); [exact Hst |].
    unfold TimeScaled.useFrame, TimeScaled.smooth.
    destruct (materialRef (refs s)); [| reflexivity].
    repeat match goal with |- context [if ?b then _ else _] => destruct b end;
      reflexivity.
Qed.

Lemma timeScaled_run_wf es : forall s : World TimeScaled.Callback,
  world_wf s -> world_wf (TimeScaled.run maxAberration s es).
Proof.
  induction es as [| e es IH]; intros s Hwf; [exact Hwf |].
  cbn. apply IH. now apply timeScaled_step_wf.
Qed.

Lemma watchdog_step_wf (s : World Watchdog.Callback) e :
  world_wf s -> world_wf (Watchdog.step maxAberration s e).
Proof.
  intros [Hwf Hst]. destruct e as [| w | id | delta]; cbn [Watchdog.step].
  - split; assumption.
  - destruct (Rlt_le_dec (Rabs (scrollY w - lastScrollY (refs s))) 0.5) as [H | H].
    + rewrite watchdog_handleScroll_small by exact H. split; assumption.
    + rewrite watchdog_handleScroll_large by exact H. split; cbn [refs timers].
      * now apply rescheduled_wf.
      * intros id Hid. cbn in Hid. injection Hid as <-.
        rewrite rescheduled_nextId. lia.
  - unfold Watchdog.fire.
    destruct (pending (timers s) !! id) as [t |]; [| split; assumption].
    destruct (callback t); cbn [Watchdog.onTimeout refs timers].
    + split; cbn [refs timers].
      * apply setTimeout_wf. now apply clearTimeout_wf.
      * intros id' Hid'. cbn in *. apply Hst in Hid'. lia.
    + destruct (_ && _); split; cbn; try exact Hst; now apply clearTimeout_wf.
  - split; cbn; [exact Hwf |].
    replace (scrollTimer (Watchdog.useFrame delta (refs s)))
      with (scrollTimer (refs s)); [exact Hst |].
    unfold Watchdog.useFrame, Watchdog.smooth.
    destruct (materialRef (refs s)); [| reflexivity].
    repeat match goal with |- context [if ?b then _ else _] => destruct b end;
      reflexivity.
Qed.

Lemma watchdog_run_wf es : forall s : World Watchdog.Callback,
  world_wf s -> world_wf (Watchdog.run maxAberration s es).
Proof.
  induction es as [| e es IH]; intros s Hwf; [exact Hwf |].
  cbn. apply IH. now apply watchdog_step_wf.
Qed.

(** Nothing in the time-scaled revision ever sets [forceReset]: the reset
    branch of its frame loop is never taken. *)
Lemma timeScaled_never_resets w0 es :
  forceReset (refs (TimeScaled.run maxAberration (TimeScaled.mount w0) es)) = false.
Proof.
  enough (H : forall s : World TimeScaled.Callback,
             forceReset (refs s) = false ->
             forceReset (refs (TimeScaled.run maxAberration s es)) = false)
    by now apply H.
  induction es as [| e es IH]; intros s Hs; [exact Hs |].
  cbn. apply IH. destruct e as [| w | id | w delta]; cbn [TimeScaled.step].
  - exact Hs.
  - destruct (Rlt_le_dec (Rabs (scrollY w - lastScrollY (refs s))) 0.1) as [H | H].
    + rewrite timeScaled_handleScroll_small by exact H. exact Hs.
    + rewrite timeScaled_handleScroll_large by exact H. reflexivity.
  - unfold TimeScaled.fire.
    destruct (pending (timers s) !! id) as [t |]; [| exact Hs].
    destruct (callback t). exact Hs.
  - cbn. unfold TimeScaled.useFrame, TimeScaled.smooth. rewrite Hs.
    destruct (materialRef (refs s)); [| exact Hs].
    repeat match goal with |- context [if ?b then _ else _] => destruct b end;
      cbn; exact Hs.
Qed.

End Runs.

(** ** Scroll input *)

(** C5. A scroll event whose delta is below the noise threshold (0.1 in the
    time-scaled revision, 0.5 in the watchdog revision) returns with the
    target strength, the target direction, the scrolling flag, the stored
    timer id and the whole timer table as they were. *)
Theorem C5_subthreshold_scroll_ignored (maxAberration : R) (w : Window) :
  (forall s : World TimeScaled.Callback,
     Rabs (scrollY w - lastScrollY (refs s)) < 0.1 ->
     let s' := TimeScaled.handleScroll maxAberration w s in
     targetAberrationStrength (refs s') = targetAberrationStrength (refs s) /\
     targetDirection (refs s') = targetDirection (refs s) /\
     isScrolling (refs s') = isScrolling (refs s) /\
     scrollTimer (refs s') = scrollTimer (refs s) /\
     timers s' = timers s) /\
  (forall s : World Watchdog.Callback,
     Rabs (scrollY w - lastScrollY (refs s)) < 0.5 ->
     let s' := Watchdog.handleScroll maxAberration w s in
     targetAberrationStrength (refs s') = targetAberrationStrength (refs s) /\
     targetDirection (refs s') = targetDirection (refs s) /\
     isScrolling (refs s') = isScrolling (refs s) /\
     scrollTimer (refs s') = scrollTimer (refs s) /\
     timers s' = timers s).
Proof.
  split; intros s H; cbv zeta.
  - rewrite timeScaled_handleScroll_small by exact H. cbn. repeat split.
  - rewrite watchdog_handleScroll_small by exact H. cbn. repeat split.
Qed.

Lemma C5_subthreshold_scroll_ignored_witness :
  timers (TimeScaled.handleScroll 2 (desktopWindow 100.05)
            (TimeScaled.mount (desktopWindow 100)))
  = timers (TimeScaled.mount (desktopWindow 100)) /\
  timers (Watchdog.handleScroll 2 (desktopWindow 100.3)
            (Watchdog.mount (desktopWindow 100)))
  = timers (Watchdog.mount (desktopWindow 100)).
Proof.
  split.
  - apply (C5_subthreshold_scroll_ignored 2 (desktopWindow 100.05)).
    cbn. apply Rabs_def1; lra.
  - apply (C5_subthreshold_scroll_ignored 2 (desktopWindow 100.3)).
    cbn. apply Rabs_def1; lra.
Defined.

(** C3. One scroll event of +40 pixels on a desktop device, where the speed
    scale is 25, with [maxAberration = 2] sets the target strength to
    [min(1, 40/25) * 2 = 2] and the target direction to (0, 1).  The
    watchdog revision, whose scale is 20 on every device, reaches the same
    targets. *)
Theorem C3_scroll_40px_desktop (w : Window) :
  TimeScaled.isMobile w = false ->
  (forall s : World TimeScaled.Callback,
     scrollY w - lastScrollY (refs s) = 40 ->
     let s' := TimeScaled.handleScroll 2 w s in
     targetAberrationStrength (refs s') = Rmin 1 (40 / 25) * 2 /\
     targetAberrationStrength (refs s') = 2 /\
     targetDirection (refs s') = Vector2.mk 0 1) /\
  (forall s : World Watchdog.Callback,
     scrollY w - lastScrollY (refs s) = 40 ->
     let s' := Watchdog.handleScroll 2 w s in
     targetAberrationStrength (refs s') = 2 /\
     targetDirection (refs s') = Vector2.mk 0 1).
Proof.
  intros Hdesk. split; intros s Hd; cbv zeta.
  - rewrite timeScaled_handleScroll_large by (rewrite Hd, Rabs_right; lra).
    cbv zeta. rewrite Hdesk, Hd. cbn.
    rewrite (Rabs_right 40) by lra. rewrite (sign_pos 40) by lra.
    rewrite !Rmin_left by lra. repeat split; try lra.
    f_equal; lra.
  - rewrite watchdog_handleScroll_large by (rewrite Hd, Rabs_right; lra).
    cbv zeta. rewrite Hd. cbn.
    rewrite (Rabs_right 40) by lra. rewrite (sign_pos 40) by lra.
    rewrite !Rmin_left by lra. split; [lra | reflexivity].
Qed.

Lemma C3_scroll_40px_desktop_witness :
  targetAberrationStrength
    (refs (TimeScaled.handleScroll 2 (desktopWindow 140)
             (TimeScaled.mount (desktopWindow 100)))) = 2 /\
  targetDirection
    (refs (TimeScaled.handleScroll 2 (desktopWindow 140)
             (TimeScaled.mount (desktopWindow 100)))) = Vector2.mk 0 1.
Proof.
  destruct (C3_scroll_40px_desktop (desktopWindow 140) (isMobile_desktop 140))
    as [HA _].
  destruct (HA (TimeScaled.mount (desktopWindow 100))) as (_ & H2 & H3).
  - cbn. lra.
  - split; [exact H2 | exact H3].
Defined.

(** ** The debounce timer *)

Lemma timeScaled_fire_scrollStop id t (s : World TimeScaled.Callback) :
  pending (timers s) !! id = Some t ->
  refs (TimeScaled.fire id s)
  = set_targetAberrationStrength 0 (set_isScrolling false (refs s)).
Proof.
  intros H. unfold TimeScaled.fire. rewrite H. destruct (callback t). reflexivity.
Qed.

Lemma watchdog_fire_scrollStop id ms (s : World Watchdog.Callback) :
  pending (timers s) !! id
  = Some {| callback := Watchdog.ScrollStop; delay := ms |} ->
  Watchdog.fire id s
  = Build_World
      (set_targetAberrationStrength 0 (set_isScrolling false (refs s)))
      (snd (setTimeout Watchdog.StuckCheck 1000%nat (clearTimeout id (timers s)))).
Proof. intros H. unfold Watchdog.fire. rewrite H. reflexivity. Qed.

(** C6. An above-threshold scroll event sets the scrolling flag and leaves
    exactly one debounce timer of the component pending: a new one of 200
    ms (250 ms on a mobile device in the time-scaled revision), the one
    stored before being cleared.  When that timer fires after any stretch
    of frames, texture loads and other timers, but no scroll input, the
    scrolling flag becomes false and the target strength 0, while the
    current strength is what it was just before the timer fired. *)
Theorem C6_debounce_timer (maxAberration : R) (w : Window) :
  (forall s : World TimeScaled.Callback,
     world_wf s ->
     0.1 <= Rabs (scrollY w - lastScrollY (refs s)) ->
     let s1 := TimeScaled.handleScroll maxAberration w s in
     exists id,
       isScrolling (refs s1) = true /\
       scrollTimer (refs s1) = Some id /\
       pending (timers s1) !! id
       = Some {| callback := TimeScaled.ScrollStop;
                 delay := if TimeScaled.isMobile w then 250%nat else 200%nat |} /\
       (forall old, scrollTimer (refs s) = Some old ->
                    pending (timers s1) !! old = None) /\
       forall es, Forall (TimeScaled.quiet id) es ->
         let s2 := TimeScaled.run maxAberration s1 es in
         let s3 := TimeScaled.fire id s2 in
         isScrolling (refs s3) = false /\
         targetAberrationStrength (refs s3) = 0 /\
         currentAberrationStrength (refs s3) = currentAberrationStrength (refs s2)) /\
  (forall s : World Watchdog.Callback,
     world_wf s ->
     0.5 <= Rabs (scrollY w - lastScrollY (refs s)) ->
     let s1 := Watchdog.handleScroll maxAberration w s in
     exists id,
       isScrolling (refs s1) = true /\
       scrollTimer (refs s1) = Some id /\
       pending (timers s1) !! id
       = Some {| callback := Watchdog.ScrollStop; delay := 200%nat |} /\
       (forall old, scrollTimer (refs s) = Some old ->
                    pending (timers s1) !! old = None) /\
       forall es, Forall (Watchdog.quiet id) es ->
         let s2 := Watchdog.run maxAberration s1 es in
         let s3 := Watchdog.fire id s2 in
         isScrolling (refs s3) = false /\
         targetAberrationStrength (refs s3) = 0 /\
         currentAberrationStrength (refs s3) = currentAberrationStrength (refs s2)).
Proof.
  split; intros s [Hwf Hst] Hd; cbv zeta; exists (nextId (timers s)).
  - rewrite timeScaled_handleScroll_large by exact Hd. cbv zeta. cbn [refs timers].
    split; [reflexivity |]. split; [reflexivity |].
    split; [apply rescheduled_new |]. split.
    + intros old Hold. rewrite Hold. apply rescheduled_old.
      apply Hst in Hold. lia.
    + intros es Hq.
      erewrite timeScaled_fire_scrollStop.
      * cbn. repeat split.
      * apply timeScaled_quiet_run; [exact Hq |]. cbn. apply rescheduled_new.
  - rewrite watchdog_handleScroll_large by exact Hd. cbv zeta. cbn [refs timers].
    split; [reflexivity |]. split; [reflexivity |].
    split; [apply rescheduled_new |]. split.
    + intros old Hold. rewrite Hold. apply rescheduled_old.
      apply Hst in Hold. lia.
    + intros es Hq.
      erewrite watchdog_fire_scrollStop.
      * cbn. repeat split.
      * apply watchdog_quiet_run; [exact Hq | |].
        -- cbn [timers]. rewrite rescheduled_nextId. lia.
        -- cbn. apply rescheduled_new.
Qed.

Lemma C6_debounce_timer_witness :
  exists id,
    pending (timers (TimeScaled.handleScroll 2 (phoneWindow 40)
                       (TimeScaled.mount (phoneWindow 0)))) !! id
    = Some {| callback := TimeScaled.ScrollStop; delay := 250%nat |}.
Proof.
  destruct (C6_debounce_timer 2 (phoneWindow 40)) as [HA _].
  destruct (HA (TimeScaled.mount (phoneWindow 0))) as (id & _ & _ & H & _).
  - apply timeScaled_mount_wf.
  - cbn. rewrite Rabs_right; lra.
  - exists id. rewrite (isMobile_phone 40) in H. exact H.
Defined.

(** ** The watchdog *)

(** C9. In the watchdog revision the debounce callback schedules a check
    1000 ms later; that check sets the force-reset flag when the current
    strength is strictly between 0 and 0.05 and changes nothing otherwise;
    and a frame that finds the flag set zeroes the current strength and
    direction, whatever the targets, and clears the flag. *)
Theorem C9_watchdog_force_reset (s : World Watchdog.Callback) :
  (forall id ms,
     pending (timers s) !! id
     = Some {| callback := Watchdog.ScrollStop; delay := ms |} ->
     pending (timers (Watchdog.fire id s)) !! nextId (timers s)
     = Some {| callback := Watchdog.StuckCheck; delay := 1000%nat |}) /\
  (0 < currentAberrationStrength (refs s) < 0.05 ->
   Watchdog.onTimeout Watchdog.StuckCheck s
   = Build_World (set_forceReset true (refs s)) (timers s)) /\
  (~ 0 < currentAberrationStrength (refs s) < 0.05 ->
   Watchdog.onTimeout Watchdog.StuckCheck s = s) /\
  (forall delta,
     materialRef (refs s) <> None ->
     forceReset (refs s) = true ->
     let r := Watchdog.useFrame delta (refs s) in
     currentAberrationStrength r = 0 /\
     currentDirection r = Vector2.mk 0 0 /\
     forceReset r = false /\
     materialRef r
     = Some {| aberrationStrength := 0;
               aberrationDirection := Vector2.mk 0 0;
               uOffset := Vector2.mk 0 0 |}).
Proof.
  split; [| split; [| split]].
  - intros id ms H. rewrite (watchdog_fire_scrollStop id ms) by assumption.
    cbn. apply lookup_insert_eq.
  - intros [H1 H2]. cbn. unfold JS.gt.
    apply lt_true in H1, H2. rewrite H1, H2. reflexivity.
  - intros H. cbn. unfold JS.gt.
    destruct (JS.lt 0 _) eqn:H1; [| reflexivity].
    destruct (JS.lt _ 0.05) eqn:H2; [| reflexivity].
    apply lt_true in H1, H2. tauto.
  - intros delta Hm Hf. cbv zeta.
    unfold Watchdog.useFrame. destruct (materialRef (refs s)); [| easy].
    unfold Watchdog.smooth. rewrite Hf. cbn.
    repeat split.
    unfold JS.eq. destruct (Req_dec_T 0 0); [| lra].
    do 3 f_equal. lra.
Qed.

Lemma C9_watchdog_force_reset_witness :
  let s := Build_World
             (set_currentAberrationStrength 0.01
                (set_materialRef (Some createChromaticAberrationMaterial)
                   (initialRefs (desktopWindow 0))))
             {| pending := ∅; nextId := 0%nat |} in
  let s' := Watchdog.onTimeout Watchdog.StuckCheck s in
  forceReset (refs s') = true /\
  currentAberrationStrength (Watchdog.useFrame (1 / 60) (refs s')) = 0.
Proof.
  intros s s'.
  destruct (C9_watchdog_force_reset s) as (_ & Hset & _ & _).
  assert (Hs' : s' = Build_World (set_forceReset true (refs s)) (timers s))
    by (apply Hset; cbn; lra).
  destruct (C9_watchdog_force_reset s') as (_ & _ & _ & Hframe).
  split; [rewrite Hs'; reflexivity |].
  apply (Hframe (1 / 60)); rewrite Hs'; [cbn; discriminate | reflexivity].
Defined.

(** ** Interpolation and powers *)

Lemma lerp_between a b x y t :
  a <= x <= b -> a <= y <= b -> 0 <= t <= 1 -> a <= JS.lerp x y t <= b.
Proof. unfold JS.lerp. intros. nra. Qed.

Lemma snap_cases eps x :
  (x < eps /\ snap eps x = 0) \/ (eps <= x /\ snap eps x = x).
Proof.
  unfold snap. destruct (JS.lt x eps) eqn:H.
  - left. apply lt_true in H. easy.
  - right. apply lt_false in H. easy.
Qed.

Lemma snap_between eps a b x :
  a <= 0 <= b -> a <= x <= b -> a <= snap eps x <= b.
Proof. intros. destruct (snap_cases eps x) as [[_ ->] | [_ ->]]; lra. Qed.

Lemma pow_one_base e : JS.Math_pow 1 e = 1.
Proof. unfold JS.Math_pow, Rpower. rewrite ln_1, Rmult_0_r. apply exp_0. Qed.

Lemma pow_unit b e : 0 < b <= 1 -> 0 <= e -> 0 < JS.Math_pow b e <= 1.
Proof.
  intros Hb He. split; [apply exp_pos |].
  rewrite <- (pow_one_base e). apply Rle_Rpower_l; lra.
Qed.

Lemma pow_below_one b e : 0 < b < 1 -> 0 < e -> JS.Math_pow b e < 1.
Proof.
  intros Hb He. unfold JS.Math_pow, Rpower. rewrite <- exp_0.
  apply exp_increasing.
  assert (ln b < 0) by (rewrite <- ln_1; apply ln_increasing; lra).
  nra.
Qed.

Lemma pow_add b x y : JS.Math_pow b (x + y) = JS.Math_pow b x * JS.Math_pow b y.
Proof. apply Rpower_plus. Qed.

Lemma pow_antitone b x y :
  0 < b <= 1 -> x <= y -> JS.Math_pow b y <= JS.Math_pow b x.
Proof.
  intros Hb Hxy. replace y with (x + (y - x)) by lra. rewrite pow_add.
  assert (0 < JS.Math_pow b x) by apply exp_pos.
  assert (0 < JS.Math_pow b (y - x) <= 1) by (apply pow_unit; lra).
  nra.
Qed.

Lemma pow_1 b : 0 < b -> JS.Math_pow b 1 = b.
Proof. apply Rpower_1. Qed.

Lemma strengthDamping_range w : 0.12 <= strengthDamping w <= 0.15.
Proof. unfold strengthDamping. destruct (TimeScaled.isMobile w); lra. Qed.

Lemma kept_unit w delta : 0 <= delta -> 0 < kept w delta <= 1.
Proof.
  intros H. unfold kept. pose proof (strengthDamping_range w).
  apply pow_unit; lra.
Qed.

Lemma kept_add w d1 d2 : kept w (d1 + d2) = kept w d1 * kept w d2.
Proof. unfold kept. rewrite Rmult_plus_distr_r. apply pow_add. Qed.

Lemma kept_0 w : kept w 0 = 1.
Proof.
  unfold kept. rewrite Rmult_0_l. apply Rpower_O.
  pose proof (strengthDamping_range w). lra.
Qed.

Lemma kept_60fps w : kept w (1 / 60) = 1 - strengthDamping w.
Proof.
  unfold kept. replace (1 / 60 * 60) with 1 by lra. apply pow_1.
  pose proof (strengthDamping_range w). lra.
Qed.

(** ** One frame of the time-scaled revision *)

Lemma timeScaled_frame_idle w delta r :
  materialRef r = None -> TimeScaled.useFrame w delta r = r.
Proof. intros H. unfold TimeScaled.useFrame. rewrite H. reflexivity. Qed.

Lemma timeScaled_frame_current w delta r :
  materialRef r <> None -> forceReset r = false ->
  currentAberrationStrength (TimeScaled.useFrame w delta r)
  = snap 0.0005
      (JS.lerp (currentAberrationStrength r) (targetAberrationStrength r)
               (1 - kept w delta)).
Proof.
  intros Hm Hf. unfold TimeScaled.useFrame.
  destruct (materialRef r); [| easy].
  unfold TimeScaled.smooth. rewrite Hf, one_point_zero.
  fold (strengthDamping w). fold (kept w delta).
  cbn [currentAberrationStrength set_materialRef set_currentDirection
       set_currentAberrationStrength targetAberrationStrength].
  unfold snap. destruct (JS.lt _ 0.0005); reflexivity.
Qed.

Lemma timeScaled_frame_resetting w delta r :
  materialRef r <> None -> forceReset r = true ->
  currentAberrationStrength (TimeScaled.useFrame w delta r)
  = snap 0.0005
      (JS.lerp (currentAberrationStrength r) 0
               (if TimeScaled.isMobile w then 0.4 else 0.25)).
Proof.
  intros Hm Hf. unfold TimeScaled.useFrame.
  destruct (materialRef r); [| easy].
  unfold TimeScaled.smooth. rewrite Hf.
  cbn [currentAberrationStrength set_materialRef set_currentDirection
       set_currentAberrationStrength targetAberrationStrength].
  unfold snap. destruct (JS.lt _ 0.0005); reflexivity.
Qed.

Lemma timeScaled_frame_keeps w delta r :
  targetAberrationStrength (TimeScaled.useFrame w delta r)
  = targetAberrationStrength r /\
  (materialRef r <> None -> materialRef (TimeScaled.useFrame w delta r) <> None) /\
  (forceReset r = false -> forceReset (TimeScaled.useFrame w delta r) = false).
Proof.
  unfold TimeScaled.useFrame. destruct (materialRef r) eqn:Hm; [| easy].
  unfold TimeScaled.smooth.
  destruct (forceReset r) eqn:Hf; cbn;
    repeat match goal with |- context [if ?b then _ else _] => destruct b end;
    cbn; repeat split; easy.
Qed.

(** ** One frame of the watchdog revision *)

Lemma watchdog_frame_current delta r :
  materialRef r <> None -> forceReset r = false ->
  currentAberrationStrength (Watchdog.useFrame delta r)
  = snap 0.001
      (JS.lerp (currentAberrationStrength r) (targetAberrationStrength r)
               (if isScrolling r then 0.15 else 0.08)).
Proof.
  intros Hm Hf. unfold Watchdog.useFrame.
  destruct (materialRef r); [| easy].
  unfold Watchdog.smooth. rewrite Hf.
  cbn [currentAberrationStrength set_materialRef set_currentDirection
       set_currentAberrationStrength targetAberrationStrength].
  unfold snap. destruct (JS.lt _ 0.001); reflexivity.
Qed.

Lemma watchdog_frame_resetting delta r :
  materialRef r <> None -> forceReset r = true ->
  currentAberrationStrength (Watchdog.useFrame delta r) = 0.
Proof.
  intros Hm Hf. unfold Watchdog.useFrame.
  destruct (materialRef r); [| easy].
  unfold Watchdog.smooth. rewrite Hf. reflexivity.
Qed.

Lemma watchdog_frame_idle delta r :
  materialRef r = None -> Watchdog.useFrame delta r = r.
Proof. intros H. unfold Watchdog.useFrame. rewrite H. reflexivity. Qed.

Lemma watchdog_frame_keeps delta r :
  targetAberrationStrength (Watchdog.useFrame delta r)
  = targetAberrationStrength r /\
  isScrolling (Watchdog.useFrame delta r) = isScrolling r /\
  (materialRef r <> None -> materialRef (Watchdog.useFrame delta r) <> None).
Proof.
  unfold Watchdog.useFrame. destruct (materialRef r) eqn:Hm; [| easy].
  unfold Watchdog.smooth.
  destruct (forceReset r) eqn:Hf; cbn;
    repeat match goal with |- context [if ?b then _ else _] => destruct b eqn:? end;
    cbn; repeat split; congruence.
Qed.

(** ** The strength stays within its range *)

Lemma speedFactor_unit x k : 0 < k -> 0 <= Rmin 1 (Rabs x / k) <= 1.
Proof.
  intros Hk. split; [| apply Rmin_l].
  apply Rmin_glb; [lra |].
  apply Rmult_le_pos; [apply Rabs_pos | left; now apply Rinv_0_lt_compat].
Qed.

Lemma timeScaled_frame_within maxAberration w delta r :
  0 <= maxAberration -> 0 <= delta ->
  within maxAberration r -> within maxAberration (TimeScaled.useFrame w delta r).
Proof.
  intros Hmax Hd [Ht Hc]. unfold within.
  destruct (timeScaled_frame_keeps w delta r) as (-> & _ & _).
  split; [exact Ht |].
  destruct (materialRef r) eqn:Hm.
  - assert (Hm' : materialRef r <> None) by congruence.
    destruct (forceReset r) eqn:Hf.
    + rewrite timeScaled_frame_resetting by assumption.
      apply snap_between; [lra |].
      apply lerp_between; [lra | lra |].
      destruct (TimeScaled.isMobile w); lra.
    + rewrite timeScaled_frame_current by assumption.
      apply snap_between; [lra |].
      apply lerp_between; [lra | lra |].
      pose proof (kept_unit w delta Hd). lra.
  - rewrite timeScaled_frame_idle by assumption. exact Hc.
Qed.

Lemma timeScaled_step_within maxAberration s e :
  0 <= maxAberration -> TimeScaled.elapsed e ->
  within maxAberration (refs s) ->
  within maxAberration (refs (TimeScaled.step maxAberration s e)).
Proof.
  intros Hmax He Hin. destruct e as [| w | id | w delta]; cbn [TimeScaled.step].
  - exact Hin.
  - destruct (Rlt_le_dec (Rabs (scrollY w - lastScrollY (refs s))) 0.1) as [H | H].
    + rewrite timeScaled_handleScroll_small by exact H. exact Hin.
    + rewrite timeScaled_handleScroll_large by exact H.
      destruct Hin as [_ Hc]. split; [| exact Hc]. cbn.
      assert (0 <= Rmin 1 (Rabs (scrollY w - lastScrollY (refs s)) /
                           (if TimeScaled.isMobile w then 12 else 25)) <= 1)
        by (apply speedFactor_unit; destruct (TimeScaled.isMobile w); lra).
      nra.
  - unfold TimeScaled.fire.
    destruct (pending (timers s) !! id) as [t |]; [| exact Hin].
    destruct (callback t). destruct Hin as [_ Hc]. split; [cbn; lra | exact Hc].
  - now apply timeScaled_frame_within.
Qed.

Lemma watchdog_frame_within maxAberration delta r :
  0 <= maxAberration ->
  within maxAberration r -> within maxAberration (Watchdog.useFrame delta r).
Proof.
  intros Hmax [Ht Hc]. unfold within.
  destruct (watchdog_frame_keeps delta r) as (-> & _ & _).
  split; [exact Ht |].
  destruct (materialRef r) eqn:Hm.
  - assert (Hm' : materialRef r <> None) by congruence.
    destruct (forceReset r) eqn:Hf.
    + rewrite watchdog_frame_resetting by assumption. lra.
    + rewrite watchdog_frame_current by assumption.
      apply snap_between; [lra |].
      apply lerp_between; [lra | lra |].
      destruct (isScrolling r); lra.
  - rewrite watchdog_frame_idle by assumption. exact Hc.
Qed.

Lemma watchdog_step_within maxAberration s e :
  0 <= maxAberration ->
  within maxAberration (refs s) ->
  within maxAberration (refs (Watchdog.step maxAberration s e)).
Proof.
  intros Hmax Hin. destruct e as [| w | id | delta]; cbn [Watchdog.step].
  - exact Hin.
  - destruct (Rlt_le_dec (Rabs (scrollY w - lastScrollY (refs s))) 0.5) as [H | H].
    + rewrite watchdog_handleScroll_small by exact H. exact Hin.
    + rewrite watchdog_handleScroll_large by exact H.
      destruct Hin as [_ Hc]. split; [| exact Hc]. cbn.
      assert (0 <= Rmin 1 (Rabs (scrollY w - lastScrollY (refs s)) / 20) <= 1)
        by (apply speedFactor_unit; lra).
      nra.
  - unfold Watchdog.fire.
    destruct (pending (timers s) !! id) as [t |]; [| exact Hin].
    destruct Hin as [Ht Hc].
    destruct (callback t); cbn [Watchdog.onTimeout refs timers].
    + split; [cbn; lra | exact Hc].
    + destruct (_ && _); split; assumption.
  - now apply watchdog_frame_within.
Qed.

(** C1. Whatever scroll events, timer callbacks and frames follow the mount
    of an [ImageWithEffect] whose [maxAberration] is not negative, the
    current strength lies in [0, maxAberration] afterwards.  In the
    time-scaled revision frame times are elapsed times, which puts the
    damping factor of every frame in [0, 1); the watchdog revision uses the
    fixed factors 0.15 and 0.08. *)
Theorem C1_strength_within_bounds (maxAberration : R) (w0 : Window) :
  0 <= maxAberration ->
  (forall es : list TimeScaled.Event,
     Forall TimeScaled.elapsed es ->
     0 <= currentAberrationStrength
            (refs (TimeScaled.run maxAberration (TimeScaled.mount w0) es))
       <= maxAberration) /\
  (forall es : list Watchdog.Event,
     0 <= currentAberrationStrength
            (refs (Watchdog.run maxAberration (Watchdog.mount w0) es))
       <= maxAberration).
Proof.
  intros Hmax. split.
  - intros es Hes.
    enough (H : forall s, within maxAberration (refs s) ->
                within maxAberration (refs (TimeScaled.run maxAberration s es))).
    { apply H. cbn. unfold within. cbn. lra. }
    induction Hes as [| e es He Hes IH]; intros s Hin; [exact Hin |].
    cbn. apply IH. now apply timeScaled_step_within.
  - intros es.
    enough (H : forall s, within maxAberration (refs s) ->
                within maxAberration (refs (Watchdog.run maxAberration s es))).
    { apply H. cbn. unfold within. cbn. lra. }
    induction es as [| e es IH]; intros s Hin; [exact Hin |].
    cbn. apply IH. now apply watchdog_step_within.
Qed.

Lemma C1_strength_within_bounds_witness :
  0 <= currentAberrationStrength
         (refs (TimeScaled.run 2 (TimeScaled.mount (desktopWindow 0))
                  [TimeScaled.TextureLoaded;
                   TimeScaled.Scroll (desktopWindow 40);
                   TimeScaled.Frame (desktopWindow 40) (1 / 60);
                   TimeScaled.Frame (desktopWindow 40) (1 / 30)]))
    <= 2.
Proof.
  destruct (C1_strength_within_bounds 2 (desktopWindow 0)) as [H _]; [lra |].
  apply H. repeat constructor; cbn; lra.
Defined.

(** ** Decay after the debounce timer *)

Lemma timeScaled_decay_step w delta r :
  0 <= delta -> materialRef r <> None ->
  targetAberrationStrength r = 0 -> 0 <= currentAberrationStrength r ->
  0 <= currentAberrationStrength (TimeScaled.useFrame w delta r)
    <= currentAberrationStrength r /\
  (currentAberrationStrength (TimeScaled.useFrame w delta r) < 0.0005 ->
   currentAberrationStrength (TimeScaled.useFrame w delta r) = 0).
Proof.
  intros Hd Hm Ht Hc.
  assert (H : exists k, 0 <= k <= 1 /\
            currentAberrationStrength (TimeScaled.useFrame w delta r)
            = snap 0.0005 (JS.lerp (currentAberrationStrength r) 0 k)).
  { destruct (forceReset r) eqn:Hf.
    - exists (if TimeScaled.isMobile w then 0.4 else 0.25). split.
      + destruct (TimeScaled.isMobile w); lra.
      + now apply timeScaled_frame_resetting.
    - exists (1 - kept w delta). split.
      + pose proof (kept_unit w delta Hd). lra.
      + rewrite <- Ht. now apply timeScaled_frame_current. }
  destruct H as (k & Hk & ->). unfold JS.lerp.
  destruct (snap_cases 0.0005 ((1 - k) * currentAberrationStrength r + k * 0))
    as [[Hlt ->] | [Hge ->]]; split; try lra; nra.
Qed.

Lemma watchdog_decay_step delta r :
  materialRef r <> None ->
  targetAberrationStrength r = 0 -> 0 <= currentAberrationStrength r ->
  0 <= currentAberrationStrength (Watchdog.useFrame delta r)
    <= currentAberrationStrength r /\
  (currentAberrationStrength (Watchdog.useFrame delta r) < 0.001 ->
   currentAberrationStrength (Watchdog.useFrame delta r) = 0).
Proof.
  intros Hm Ht Hc. destruct (forceReset r) eqn:Hf.
  - rewrite watchdog_frame_resetting by assumption. lra.
  - rewrite watchdog_frame_current, Ht by assumption. unfold JS.lerp.
    set (k := if isScrolling r then 0.15 else 0.08).
    assert (0 <= k <= 1) by (unfold k; destruct (isScrolling r); lra).
    destruct (snap_cases 0.001 ((1 - k) * currentAberrationStrength r + k * 0))
      as [[Hlt ->] | [Hge ->]]; split; try lra; nra.
Qed.

(** What a decaying item keeps from frame to frame. *)
Lemma timeScaled_frames_decaying w ds : forall r,
  Forall (Rle 0) ds -> materialRef r <> None ->
  targetAberrationStrength r = 0 -> 0 <= currentAberrationStrength r ->
  materialRef (timeScaled_frames w ds r) <> None /\
  targetAberrationStrength (timeScaled_frames w ds r) = 0 /\
  0 <= currentAberrationStrength (timeScaled_frames w ds r).
Proof.
  induction ds as [| d ds IH]; intros r Hds Hm Ht Hc; [easy |].
  inversion Hds as [| ? ? Hd Hds']; subst. cbn. apply IH; try assumption.
  - now apply timeScaled_frame_keeps.
  - destruct (timeScaled_frame_keeps w d r) as (-> & _). exact Ht.
  - now apply timeScaled_decay_step.
Qed.

Lemma watchdog_frames_decaying ds : forall r,
  materialRef r <> None ->
  targetAberrationStrength r = 0 -> 0 <= currentAberrationStrength r ->
  materialRef (watchdog_frames ds r) <> None /\
  targetAberrationStrength (watchdog_frames ds r) = 0 /\
  0 <= currentAberrationStrength (watchdog_frames ds r).
Proof.
  induction ds as [| d ds IH]; intros r Hm Ht Hc; [easy |].
  cbn. apply IH.
  - now apply watchdog_frame_keeps.
  - destruct (watchdog_frame_keeps d r) as (-> & _). exact Ht.
  - now apply watchdog_decay_step.
Qed.

(** C4. Once the debounce timer has fired, every later frame that smooths
    (the material exists) yields a current strength that is not negative,
    is at most what it was before the frame, and is exactly 0 as soon as
    it is below epsilon: 0.0005 in the time-scaled revision, 0.001 in the
    watchdog revision. *)
Theorem C4_monotone_decay (w : Window) (ds : list R) (delta : R) :
  Forall (Rle 0) ds -> 0 <= delta ->
  (forall (s : World TimeScaled.Callback) id t,
     pending (timers s) !! id = Some t ->
     materialRef (refs s) <> None ->
     0 <= currentAberrationStrength (refs s) ->
     let before := timeScaled_frames w ds (refs (TimeScaled.fire id s)) in
     let after := TimeScaled.useFrame w delta before in
     targetAberrationStrength (refs (TimeScaled.fire id s)) = 0 /\
     0 <= currentAberrationStrength after <= currentAberrationStrength before /\
     (currentAberrationStrength after < 0.0005 ->
      currentAberrationStrength after = 0)) /\
  (forall (s : World Watchdog.Callback) id ms,
     pending (timers s) !! id
     = Some {| callback := Watchdog.ScrollStop; delay := ms |} ->
     materialRef (refs s) <> None ->
     0 <= currentAberrationStrength (refs s) ->
     let before := watchdog_frames ds (refs (Watchdog.fire id s)) in
     let after := Watchdog.useFrame delta before in
     targetAberrationStrength (refs (Watchdog.fire id s)) = 0 /\
     0 <= currentAberrationStrength after <= currentAberrationStrength before /\
     (currentAberrationStrength after < 0.001 ->
      currentAberrationStrength after = 0)).
Proof.
  intros Hds Hd. split.
  - intros s id t Hid Hm Hc. cbv zeta.
    rewrite (timeScaled_fire_scrollStop id t) by exact Hid.
    split; [reflexivity |].
    destruct (timeScaled_frames_decaying w ds
                (set_targetAberrationStrength 0 (set_isScrolling false (refs s))))
      as (Hm' & Ht' & Hc'); try assumption; try reflexivity.
    now apply timeScaled_decay_step.
  - intros s id ms Hid Hm Hc. cbv zeta.
    rewrite (watchdog_fire_scrollStop id ms) by exact Hid. cbn [refs].
    split; [reflexivity |].
    destruct (watchdog_frames_decaying ds
                (set_targetAberrationStrength 0 (set_isScrolling false (refs s))))
      as (Hm' & Ht' & Hc'); try assumption; try reflexivity.
    now apply watchdog_decay_step.
Qed.

Lemma C4_monotone_decay_witness :
  let before :=
    timeScaled_frames (desktopWindow 0) [1 / 60; 1 / 60]
      (refs (TimeScaled.fire 0 (timeScaled_scrolling 1 2))) in
  0 <= currentAberrationStrength
         (TimeScaled.useFrame (desktopWindow 0) (1 / 60) before)
    <= currentAberrationStrength before.
Proof.
  intros before.
  destruct (C4_monotone_decay (desktopWindow 0) [1 / 60; 1 / 60] (1 / 60))
    as [HA _].
  - repeat constructor; lra.
  - lra.
  - destruct (HA (timeScaled_scrolling 1 2) 0%nat
                {| callback := TimeScaled.ScrollStop; delay := 200%nat |})
      as (_ & H & _).
    + apply lookup_singleton_eq.
    + cbn. discriminate.
    + cbn. lra.
    + exact H.
Defined.

(** ** Starting from rest *)

Lemma timeScaled_rest_step w delta r :
  currentAberrationStrength r = 0 ->
  targetAberrationStrength r * (1 - kept w delta) < 0.0005 ->
  currentAberrationStrength (TimeScaled.useFrame w delta r) = 0.
Proof.
  intros Hc Ht. destruct (materialRef r) eqn:Hm.
  - assert (Hm' : materialRef r <> None) by congruence.
    destruct (forceReset r) eqn:Hf.
    + rewrite timeScaled_frame_resetting, Hc by assumption. unfold JS.lerp.
      destruct (snap_cases 0.0005
                  ((1 - (if TimeScaled.isMobile w then 0.4 else 0.25)) * 0
                   + (if TimeScaled.isMobile w then 0.4 else 0.25) * 0))
        as [[_ ->] | [H _]]; lra.
    + rewrite timeScaled_frame_current, Hc by assumption. unfold JS.lerp.
      destruct (snap_cases 0.0005
                  ((1 - (1 - kept w delta)) * 0
                   + (1 - kept w delta) * targetAberrationStrength r))
        as [[_ ->] | [H _]]; lra.
  - rewrite timeScaled_frame_idle by assumption. exact Hc.
Qed.

Lemma watchdog_rest_step delta r :
  currentAberrationStrength r = 0 ->
  targetAberrationStrength r * (if isScrolling r then 0.15 else 0.08) < 0.001 ->
  currentAberrationStrength (Watchdog.useFrame delta r) = 0.
Proof.
  intros Hc Ht. destruct (materialRef r) eqn:Hm.
  - assert (Hm' : materialRef r <> None) by congruence.
    destruct (forceReset r) eqn:Hf.
    + now apply watchdog_frame_resetting.
    + rewrite watchdog_frame_current, Hc by assumption. unfold JS.lerp.
      set (k := if isScrolling r then 0.15 else 0.08) in *.
      destruct (snap_cases 0.001 ((1 - k) * 0 + k * targetAberrationStrength r))
        as [[_ ->] | [H _]]; lra.
  - rewrite watchdog_frame_idle by assumption. exact Hc.
Qed.

(** At 60 frames per second or faster the applied factor is at most the
    damping constant. *)
Lemma factor_at_most_damping w delta :
  0 <= delta <= 1 / 60 ->
  0 <= 1 - kept w delta <= strengthDamping w.
Proof.
  intros [H0 H1]. pose proof (kept_unit w delta H0).
  pose proof (strengthDamping_range w).
  assert (kept w (1 / 60) <= kept w delta).
  { unfold kept. apply pow_antitone; lra. }
  rewrite kept_60fps in *. lra.
Qed.

(** C10, as amended.  With the current strength at exactly 0 and a target
    [t] such that [t * damping < epsilon], the current strength is still
    exactly 0 after any number of frames, provided that in the time-scaled
    revision (damping 0.15 desktop / 0.12 mobile, epsilon 0.0005) no frame
    takes longer than 1/60 s; in the watchdog revision (damping 0.15 while
    scrolling / 0.08 otherwise, epsilon 0.001) on every frame. *)
Theorem C10_rest_is_absorbing (ds : list R) (r : Refs) :
  currentAberrationStrength r = 0 ->
  (forall w,
     Forall (fun d => 0 <= d <= 1 / 60) ds ->
     targetAberrationStrength r * strengthDamping w < 0.0005 ->
     currentAberrationStrength (timeScaled_frames w ds r) = 0) /\
  (targetAberrationStrength r * (if isScrolling r then 0.15 else 0.08) < 0.001 ->
   currentAberrationStrength (watchdog_frames ds r) = 0).
Proof.
  intros Hc. split.
  - intros w Hds Ht. revert r Hc Ht.
    induction Hds as [| d ds Hd Hds IH]; intros r Hc Ht; [exact Hc |].
    cbn. apply IH.
    + apply timeScaled_rest_step; [exact Hc |].
      pose proof (factor_at_most_damping w d Hd).
      pose proof (strengthDamping_range w).
      destruct (Rle_lt_dec 0 (targetAberrationStrength r)); nra.
    + destruct (timeScaled_frame_keeps w d r) as (-> & _). exact Ht.
  - revert r Hc. induction ds as [| d ds IH]; intros r Hc Ht; [exact Hc |].
    cbn. apply IH.
    + now apply watchdog_rest_step.
    + destruct (watchdog_frame_keeps d r) as (-> & -> & _). exact Ht.
Qed.

Lemma C10_rest_is_absorbing_witness :
  currentAberrationStrength
    (timeScaled_frames (desktopWindow 0) [1 / 60; 1 / 120] (loadedAt 0.002)) = 0.
Proof.
  destruct (C10_rest_is_absorbing [1 / 60; 1 / 120] (loadedAt 0.002)) as [HA _].
  - reflexivity.
  - apply HA.
    + repeat constructor; lra.
    + unfold strengthDamping. rewrite isMobile_desktop. cbn. lra.
Defined.

(** C10 as stated fails on a slow frame: with [maxAberration = 0.002] a
    full-speed desktop scroll sets the target to 0.002, so that
    [t * 0.15 = 0.0003] lies between 0 and epsilon, yet one frame of 1/30 s
    applies the factor [1 - 0.85^2 = 0.2775] and lifts the current strength
    from 0 to 0.000555. *)
Lemma C10_counterexample :
  let r := refs (TimeScaled.run 0.002 (TimeScaled.mount (desktopWindow 0))
                   [TimeScaled.TextureLoaded;
                    TimeScaled.Scroll (desktopWindow 40)]) in
  currentAberrationStrength r = 0 /\
  0 < targetAberrationStrength r * 0.15 < 0.0005 /\
  currentAberrationStrength (TimeScaled.useFrame (desktopWindow 40) (1 / 30) r)
  = 0.000555.
Proof.
  cbv zeta. cbn [TimeScaled.run fold_left TimeScaled.step].
  rewrite timeScaled_handleScroll_large by (cbn; rewrite Rabs_right; lra).
  cbv zeta. rewrite isMobile_desktop. cbn [refs].
  assert (Ht : Rmin 1 (Rabs (scrollY (desktopWindow 40) - scrollY (desktopWindow 0)) / 25)
               * 0.002 = 0.002).
  { cbn. replace (40 - 0) with 40 by lra.
    rewrite Rabs_right by lra. rewrite Rmin_left; lra. }
  split; [reflexivity |]. split.
  - cbn [targetAberrationStrength scrolled set_scrollTimer set_forceReset
         set_isScrolling set_targetAberrationStrength TimeScaled.mount refs
         initialRefs set_materialRef lastScrollY].
    rewrite Ht. lra.
  - rewrite timeScaled_frame_current by (cbn; congruence).
    cbn [targetAberrationStrength currentAberrationStrength scrolled
         set_scrollTimer set_forceReset set_isScrolling set_lastScrollY
         set_targetDirection
         set_targetAberrationStrength TimeScaled.mount refs
         initialRefs set_materialRef lastScrollY].
    rewrite Ht.
    replace (1 / 30) with (1 / 60 + 1 / 60) by lra.
    rewrite kept_add, kept_60fps. unfold strengthDamping.
    rewrite isMobile_desktop. unfold JS.lerp.
    destruct (snap_cases 0.0005
                ((1 - (1 - (1 - 0.15) * (1 - 0.15))) * 0
                 + (1 - (1 - 0.15) * (1 - 0.15)) * 0.002))
      as [[H _] | [_ ->]]; lra.
Qed.

(** ** Splitting the frame time *)

Lemma lerp_kept c t q : JS.lerp c t (1 - q) = t + (c - t) * q.
Proof. unfold JS.lerp. ring. Qed.

(** Two frames in a row against one frame of the combined duration. *)
Lemma timeScaled_two_frames w d1 d2 r :
  materialRef r <> None -> forceReset r = false ->
  0 <= d1 -> 0 <= d2 ->
  0.0005 <= currentAberrationStrength r \/ targetAberrationStrength r <= 0.0005 ->
  currentAberrationStrength (TimeScaled.useFrame w d2 (TimeScaled.useFrame w d1 r))
  = currentAberrationStrength (TimeScaled.useFrame w (d1 + d2) r) /\
  (0.0005 <= currentAberrationStrength (TimeScaled.useFrame w d1 r) \/
   targetAberrationStrength r <= 0.0005).
Proof.
  intros Hm Hf H1 H2 Hc.
  destruct (timeScaled_frame_keeps w d1 r) as (Ht' & Hm' & Hf').
  rewrite (timeScaled_frame_current w d2) by auto.
  rewrite Ht'. rewrite !(timeScaled_frame_current w _ r) by assumption.
  rewrite !lerp_kept, kept_add.
  pose proof (kept_unit w d1 H1) as Hq1.
  pose proof (kept_unit w d2 H2) as Hq2.
  set (c := currentAberrationStrength r) in *.
  set (t := targetAberrationStrength r) in *.
  set (q1 := kept w d1) in *. set (q2 := kept w d2) in *.
  destruct (snap_cases 0.0005 (t + (c - t) * q1)) as [[Hlt ->] | [Hge ->]].
  - assert (Ht : t <= 0.0005) by (destruct Hc as [Hc | Hc]; [nra | exact Hc]).
    split; [| right; exact Ht].
    destruct (snap_cases 0.0005 (t + (0 - t) * q2)) as [[_ ->] | [H _]];
      [| nra].
    destruct (snap_cases 0.0005 (t + (c - t) * (q1 * q2))) as [[_ ->] | [H _]];
      [reflexivity | nra].
  - split; [| left; exact Hge].
    f_equal. ring.
Qed.

Lemma timeScaled_frames_split w ds : forall d r,
  materialRef r <> None -> forceReset r = false ->
  0 <= d -> Forall (Rle 0) ds ->
  0.0005 <= currentAberrationStrength r \/ targetAberrationStrength r <= 0.0005 ->
  currentAberrationStrength (timeScaled_frames w (d :: ds) r)
  = currentAberrationStrength (TimeScaled.useFrame w (total (d :: ds)) r).
Proof.
  induction ds as [| d' ds IH]; intros d r Hm Hf Hd Hds Hc.
  - cbn. now rewrite Rplus_0_r.
  - inversion Hds as [| ? ? Hd' Hds']; subst.
    assert (Htot : 0 <= total (d' :: ds)).
    { clear -Hd' Hds'. cbn. induction Hds'; cbn; lra. }
    destruct (timeScaled_frame_keeps w d r) as (Ht' & Hm' & Hf').
    destruct (timeScaled_two_frames w d (total (d' :: ds)) r) as [Heq Hc'];
      try assumption.
    change (timeScaled_frames w (d :: d' :: ds) r)
      with (timeScaled_frames w (d' :: ds) (TimeScaled.useFrame w d r)).
    rewrite IH; auto.
    rewrite Ht'. exact Hc'.
Qed.

Lemma total_repeat d n : total (repeat d n) = INR n * d.
Proof.
  induction n as [| n IH]; [cbn; lra |].
  rewrite S_INR. cbn [repeat total fold_right] in *. fold (total (repeat d n)).
  rewrite IH. lra.
Qed.

Lemma kept_repeat w d n : kept w (INR n * d) = kept w d ^ n.
Proof.
  induction n as [| n IH].
  - cbn. rewrite Rmult_0_l. apply kept_0.
  - rewrite S_INR. replace ((INR n + 1) * d) with (INR n * d + d) by lra.
    rewrite kept_add, IH. cbn. ring.
Qed.

Lemma kept_below_one w d : 0 < d -> 0 < kept w d < 1.
Proof.
  intros Hd. pose proof (strengthDamping_range w). split.
  - apply exp_pos.
  - apply pow_below_one; lra.
Qed.

Lemma total_nonneg ds : Forall (Rle 0) ds -> 0 <= total ds.
Proof. induction 1; cbn; [lra |]. fold (total l). lra. Qed.

(** No frame lasts longer than all the frames together. *)
Lemma total_bounds ds :
  Forall (Rle 0) ds -> Forall (fun d => 0 <= d <= total ds) ds.
Proof.
  induction 1 as [| d ds Hd Hds IH]; [constructor |].
  pose proof (total_nonneg ds Hds) as Htot.
  change (total (d :: ds)) with (d + total ds).
  constructor; [lra |].
  eapply List.Forall_impl; [| exact IH]. cbn. intros a Ha. lra.
Qed.

Lemma kept_antitone w d1 d2 : d1 <= d2 -> kept w d2 <= kept w d1.
Proof.
  intros H. unfold kept. pose proof (strengthDamping_range w).
  apply pow_antitone; lra.
Qed.

(** Given time, a frame keeps as little of the distance as wanted. *)
Lemma kept_vanishes w y :
  0 < y -> exists T, forall d, T <= d -> 0 < kept w d < y.
Proof.
  intros Hy. pose proof (strengthDamping_range w) as Hk.
  destruct (pow_lt_1_zero (1 - strengthDamping w)) with (y := y) as [N HN];
    [rewrite Rabs_right; lra | exact Hy |].
  exists (INR N * (1 / 60)). intros d Hd. split; [apply exp_pos |].
  apply Rle_lt_trans with (r2 := kept w (INR N * (1 / 60))).
  - now apply kept_antitone.
  - rewrite kept_repeat, kept_60fps.
    specialize (HN N (Nat.le_refl N)).
    rewrite Rabs_right in HN; [exact HN |].
    apply Rle_ge, pow_le. lra.
Qed.

(** [a * q] is small when [q] is small against [a + 1]. *)
Lemma scaled_below a q y :
  0 <= a -> 0 < y -> 0 <= q < y / (a + 1) -> a * q < y.
Proof.
  intros Ha Hy [Hq0 Hq].
  apply Rle_lt_trans with (r2 := (a + 1) * q); [nra |].
  apply Rlt_le_trans with (r2 := (a + 1) * (y / (a + 1))).
  - apply Rmult_lt_compat_l; lra.
  - right. field. lra.
Qed.

(** Without a material the frame loop does nothing. *)
Lemma timeScaled_frames_idle w ds : forall r,
  materialRef r = None -> timeScaled_frames w ds r = r.
Proof.
  induction ds as [| d ds IH]; intros r Hm; [reflexivity |].
  change (timeScaled_frames w (d :: ds) r)
    with (timeScaled_frames w ds (TimeScaled.useFrame w d r)).
  rewrite timeScaled_frame_idle by exact Hm. now apply IH.
Qed.

(** A strength at rest stays at rest over frames none of which is long
    enough to lift it over the snap. *)
Lemma timeScaled_frames_stuck w D ds : forall r,
  currentAberrationStrength r = 0 ->
  0 <= targetAberrationStrength r ->
  targetAberrationStrength r * (1 - kept w D) < 0.0005 ->
  Forall (fun d => 0 <= d <= D) ds ->
  currentAberrationStrength (timeScaled_frames w ds r) = 0.
Proof.
  induction ds as [| d ds IH]; intros r Hc Ht HD Hds; [exact Hc |].
  inversion Hds as [| ? ? Hd Hds']; subst.
  change (timeScaled_frames w (d :: ds) r)
    with (timeScaled_frames w ds (TimeScaled.useFrame w d r)).
  destruct (timeScaled_frame_keeps w d r) as (Ht' & _).
  apply IH; rewrite ?Ht'; auto.
  apply timeScaled_rest_step; [exact Hc |].
  assert (kept w D <= kept w d) by (apply kept_antitone; lra).
  nra.
Qed.

(** A first frame that is snapped, followed by frames that are no longer. *)
Lemma timeScaled_snapped_first w r d D ds :
  materialRef r <> None -> forceReset r = false ->
  0 <= currentAberrationStrength r -> 0 <= targetAberrationStrength r ->
  0 <= d <= D ->
  JS.lerp (currentAberrationStrength r) (targetAberrationStrength r)
          (1 - kept w d) < 0.0005 ->
  targetAberrationStrength r * (1 - kept w D) < 0.0005 ->
  Forall (fun d' => 0 <= d' <= D) ds ->
  currentAberrationStrength (timeScaled_frames w (d :: ds) r) = 0.
Proof.
  intros Hm Hf Hc Ht Hd Hlt HD Hds.
  change (timeScaled_frames w (d :: ds) r)
    with (timeScaled_frames w ds (TimeScaled.useFrame w d r)).
  destruct (timeScaled_frame_keeps w d r) as (Ht' & _).
  apply timeScaled_frames_stuck with (D := D); rewrite ?Ht'; auto.
  rewrite timeScaled_frame_current by assumption.
  destruct (snap_cases 0.0005
              (JS.lerp (currentAberrationStrength r)
                       (targetAberrationStrength r) (1 - kept w d)))
    as [[_ ->] | [H _]]; [reflexivity | lra].
Qed.

(** Splitting the frame time, in general: the split changes nothing unless
    its first frame is snapped to zero while one frame of the whole time
    would not be. *)
Lemma timeScaled_frames_split_general w r d ds :
  forceReset r = false -> 0 <= d -> Forall (Rle 0) ds ->
  targetAberrationStrength r <= 0.0005 \/
  0.0005 <= currentAberrationStrength r \/
  0.0005 <= JS.lerp (currentAberrationStrength r) (targetAberrationStrength r)
                    (1 - kept w d) \/
  (0 <= currentAberrationStrength r /\
   JS.lerp (currentAberrationStrength r) (targetAberrationStrength r)
           (1 - kept w (total (d :: ds))) < 0.0005) ->
  currentAberrationStrength (timeScaled_frames w (d :: ds) r)
  = currentAberrationStrength (TimeScaled.useFrame w (total (d :: ds)) r).
Proof.
  intros Hf Hd Hds H.
  destruct (materialRef r) eqn:Hm0;
    [| now rewrite timeScaled_frames_idle, timeScaled_frame_idle].
  assert (Hm : materialRef r <> None) by congruence. clear Hm0.
  destruct (Rle_dec (targetAberrationStrength r) 0.0005) as [Ht | Ht];
    [apply timeScaled_frames_split; auto |].
  destruct (Rle_dec 0.0005 (currentAberrationStrength r)) as [Hc | Hc];
    [apply timeScaled_frames_split; auto |].
  apply Rnot_le_lt in Ht, Hc.
  pose proof (total_nonneg ds Hds) as Htot.
  destruct (timeScaled_frame_keeps w d r) as (Ht' & Hm' & Hf').
  rewrite !lerp_kept in H.
  set (c := currentAberrationStrength r) in *.
  set (t := targetAberrationStrength r) in *.
  destruct H as [H | [H | [H | [Hc0 H]]]]; try lra.
  - destruct ds as [| d' ds]; [cbn; now rewrite Rplus_0_r |].
    change (timeScaled_frames w (d :: d' :: ds) r)
      with (timeScaled_frames w (d' :: ds) (TimeScaled.useFrame w d r)).
    assert (Hc1 : currentAberrationStrength (TimeScaled.useFrame w d r)
                  = t + (c - t) * kept w d).
    { rewrite timeScaled_frame_current, lerp_kept by assumption.
      fold c t.
      destruct (snap_cases 0.0005 (t + (c - t) * kept w d))
        as [[Hlt _] | [_ ->]]; [lra | reflexivity]. }
    pose proof (List.Forall_inv Hds) as Hd'.
    pose proof (List.Forall_inv_tail Hds) as Hds'.
    rewrite timeScaled_frames_split; auto; [| left; rewrite Hc1; exact H].
    change (total (d :: d' :: ds)) with (d + total (d' :: ds)).
    rewrite (timeScaled_frame_current w (d + total (d' :: ds)) r) by auto.
    rewrite (timeScaled_frame_current w _ (TimeScaled.useFrame w d r)) by auto.
    rewrite Ht', Hc1, !lerp_kept. fold c t.
    rewrite kept_add. f_equal. ring.
  - pose proof (kept_unit w (total (d :: ds))) as HK.
    change (total (d :: ds)) with (d + total ds) in *.
    specialize (HK ltac:(lra)).
    assert (HKd : kept w (d + total ds) <= kept w d)
      by (apply kept_antitone; lra).
    rewrite (timeScaled_frame_current w (d + total ds) r), lerp_kept
      by assumption.
    fold c t.
    destruct (snap_cases 0.0005 (t + (c - t) * kept w (d + total ds)))
      as [[_ ->] | [Hge _]]; [| lra].
    apply timeScaled_snapped_first with (D := d + total ds); auto.
    + fold t. lra.
    + lra.
    + rewrite lerp_kept. fold c t. nra.
    + fold t. nra.
    + assert (Hall : Forall (Rle 0) (d :: ds)) by (constructor; assumption).
      apply (List.Forall_inv_tail (total_bounds (d :: ds) Hall)).
Qed.

(** ** Frames of the watchdog revision *)

(** The watchdog revision counts frames: their durations do not matter. *)
Lemma watchdog_frames_count ds : forall ds' r,
  length ds = length ds' -> watchdog_frames ds r = watchdog_frames ds' r.
Proof.
  induction ds as [| d ds IH]; intros [| d' ds'] r H; try discriminate;
    [reflexivity |].
  injection H as H.
  change (watchdog_frames (d :: ds) r)
    with (watchdog_frames ds (Watchdog.useFrame d r)).
  change (watchdog_frames (d' :: ds') r)
    with (watchdog_frames ds' (Watchdog.useFrame d r)).
  now apply IH.
Qed.

Lemma lerp_share c t k : JS.lerp c t k = t + (c - t) * (1 - k).
Proof. unfold JS.lerp. ring. Qed.

(** What one frame of the watchdog revision leaves behind. *)
Lemma watchdog_frame_first d r :
  materialRef r <> None ->
  currentAberrationStrength (Watchdog.useFrame d r)
  = (if forceReset r then 0
     else snap 0.001
            (JS.lerp (currentAberrationStrength r) (targetAberrationStrength r)
                     (if isScrolling r then 0.15 else 0.08))) /\
  forceReset (Watchdog.useFrame d r) = false /\
  targetAberrationStrength (Watchdog.useFrame d r) = targetAberrationStrength r /\
  isScrolling (Watchdog.useFrame d r) = isScrolling r /\
  materialRef (Watchdog.useFrame d r) <> None.
Proof.
  intros Hm. destruct (watchdog_frame_keeps d r) as (Ht & Hs & Hm').
  split; [| split; [| auto]].
  - destruct (forceReset r) eqn:Hf.
    + now apply watchdog_frame_resetting.
    + now apply watchdog_frame_current.
  - unfold Watchdog.useFrame. destruct (materialRef r); [| easy].
    unfold Watchdog.smooth.
    destruct (forceReset r) eqn:Hf; cbn;
      repeat match goal with |- context [if ?b then _ else _] => destruct b end;
      cbn; congruence.
Qed.

(** A strength at rest stays at rest while the target is too small for one
    frame to lift it over the snap. *)
Lemma watchdog_frames_stuck ds : forall r,
  currentAberrationStrength r = 0 ->
  targetAberrationStrength r * (if isScrolling r then 0.15 else 0.08) < 0.001 ->
  currentAberrationStrength (watchdog_frames ds r) = 0.
Proof.
  induction ds as [| d ds IH]; intros r Hc Ht; [exact Hc |].
  change (watchdog_frames (d :: ds) r)
    with (watchdog_frames ds (Watchdog.useFrame d r)).
  destruct (watchdog_frame_keeps d r) as (Ht' & Hs' & _).
  apply IH; [now apply watchdog_rest_step |].
  now rewrite Ht', Hs'.
Qed.

(** Frames that are not snapped, in closed form. *)
Lemma watchdog_frames_escaping ds : forall d r,
  materialRef r <> None -> forceReset r = false ->
  0.001 <= targetAberrationStrength r ->
  0.001 <= JS.lerp (currentAberrationStrength r) (targetAberrationStrength r)
                   (if isScrolling r then 0.15 else 0.08) ->
  currentAberrationStrength (watchdog_frames (d :: ds) r)
  = targetAberrationStrength r
    + (currentAberrationStrength r - targetAberrationStrength r)
      * (1 - (if isScrolling r then 0.15 else 0.08)) ^ S (length ds).
Proof.
  induction ds as [| d' ds IH]; intros d r Hm Hf Ht Hv;
    destruct (watchdog_frame_first d r Hm) as (Hc1 & Hf1 & Ht1 & Hs1 & Hm1);
    rewrite Hf in Hc1; rewrite lerp_share in Hv, Hc1;
    set (c := currentAberrationStrength r) in *;
    set (t := targetAberrationStrength r) in *;
    set (k := if isScrolling r then 0.15 else 0.08) in *;
    assert (Hk : 0.08 <= k <= 0.15) by (subst k; destruct (isScrolling r); lra);
    (destruct (snap_cases 0.001 (t + (c - t) * (1 - k)))
      as [[Hlt _] | [_ Hsn]]; [lra |]); rewrite Hsn in Hc1.
  - cbn [watchdog_frames fold_left length]. rewrite Hc1. cbn. ring.
  - change (watchdog_frames (d :: d' :: ds) r)
      with (watchdog_frames (d' :: ds) (Watchdog.useFrame d r)).
    rewrite IH; auto.
    + rewrite Ht1, Hs1, Hc1. fold t k. cbn [length pow]. ring.
    + rewrite Ht1. exact Ht.
    + rewrite Ht1, Hs1, Hc1, lerp_share. fold t k. nra.
Qed.

(** Frames towards a target below the snap threshold: the strength is
    either snapped to zero or still given by the closed form. *)
Lemma watchdog_frames_sinking ds : forall d r,
  materialRef r <> None -> forceReset r = false ->
  targetAberrationStrength r < 0.001 ->
  currentAberrationStrength (watchdog_frames (d :: ds) r) = 0 \/
  0.001 <= targetAberrationStrength r
           + (currentAberrationStrength r - targetAberrationStrength r)
             * (1 - (if isScrolling r then 0.15 else 0.08)) ^ S (length ds).
Proof.
  induction ds as [| d' ds IH]; intros d r Hm Hf Ht;
    destruct (watchdog_frame_first d r Hm) as (Hc1 & Hf1 & Ht1 & Hs1 & Hm1);
    rewrite Hf in Hc1; rewrite lerp_share in Hc1;
    set (c := currentAberrationStrength r) in *;
    set (t := targetAberrationStrength r) in *;
    set (k := if isScrolling r then 0.15 else 0.08) in *;
    assert (Hk : 0.08 <= k <= 0.15) by (subst k; destruct (isScrolling r); lra).
  - cbn [watchdog_frames fold_left length]. rewrite Hc1.
    destruct (snap_cases 0.001 (t + (c - t) * (1 - k)))
      as [[_ ->] | [Hge _]]; [now left | right]. cbn. lra.
  - change (watchdog_frames (d :: d' :: ds) r)
      with (watchdog_frames (d' :: ds) (Watchdog.useFrame d r)).
    assert (Ht1' : targetAberrationStrength (Watchdog.useFrame d r) < 0.001)
      by now rewrite Ht1.
    destruct (IH d' (Watchdog.useFrame d r) Hm1 Hf1 Ht1') as [H | H];
      [now left |].
    rewrite Ht1, Hs1, Hc1 in H. fold t k in H.
    assert (Hp : 0 < (1 - k) ^ S (length ds) <= 1).
    { split; [apply pow_lt; lra |].
      pose proof (pow_incr (1 - k) 1 (S (length ds)) ltac:(lra)) as Hle.
      now rewrite pow1 in Hle. }
    destruct (snap_cases 0.001 (t + (c - t) * (1 - k)))
      as [[_ Hsn] | [_ Hsn]]; rewrite Hsn in H.
    + exfalso. nra.
    + right. cbn [length]. 
      replace ((1 - k) ^ S (S (length ds)))
        with ((1 - k) * (1 - k) ^ S (length ds)) by (cbn; ring).
      lra.
Qed.

(** A unit share raised to a power. *)
Lemma share_pow q n : 0 < q < 1 -> 0 < q ^ n <= 1.
Proof.
  intros Hq. split; [apply pow_lt; lra |].
  pose proof (pow_incr q 1 n ltac:(lra)) as Hle. now rewrite pow1 in Hle.
Qed.

(** ** Convergence of the time-scaled revision, by elapsed time *)

Lemma timeScaled_converges w r eps :
  materialRef r <> None -> forceReset r = false ->
  0.0005 <= targetAberrationStrength r -> 0 < eps ->
  exists T, forall d ds,
    0 <= d -> Forall (Rle 0) ds ->
    0.0005 <= JS.lerp (currentAberrationStrength r) (targetAberrationStrength r)
                      (1 - kept w d) ->
    T <= total (d :: ds) ->
    Rabs (currentAberrationStrength (timeScaled_frames w (d :: ds) r)
          - targetAberrationStrength r) < eps.
Proof.
  intros Hm Hf Ht Heps.
  set (c := currentAberrationStrength r) in *.
  set (t := targetAberrationStrength r) in *.
  pose proof (Rabs_pos (c - t)) as Ha.
  destruct (kept_vanishes w (eps / (Rabs (c - t) + 1))) as [T HT];
    [apply Rdiv_lt_0_compat; lra |].
  exists T. intros d ds Hd Hds Hv Htot.
  rewrite timeScaled_frames_split_general by auto.
  rewrite timeScaled_frame_current by assumption. fold c t.
  rewrite lerp_kept in *.
  pose proof (total_nonneg ds Hds) as Hnn.
  change (total (d :: ds)) with (d + total ds) in *.
  destruct (HT (d + total ds) Htot) as [HK0 HK].
  assert (HKd : kept w (d + total ds) <= kept w d)
    by (apply kept_antitone; lra).
  set (K := kept w (d + total ds)) in *.
  destruct (snap_cases 0.0005 (t + (c - t) * K)) as [[Hlt _] | [_ ->]].
  - exfalso. destruct (Rle_dec t c); nra.
  - replace (t + (c - t) * K - t) with ((c - t) * K) by ring.
    rewrite Rabs_mult, (Rabs_right K) by lra.
    apply scaled_below; lra.
Qed.

Lemma timeScaled_sinks w r :
  materialRef r <> None -> forceReset r = false ->
  targetAberrationStrength r < 0.0005 ->
  exists T, forall d ds,
    0 <= d -> Forall (Rle 0) ds -> T <= total (d :: ds) ->
    currentAberrationStrength (timeScaled_frames w (d :: ds) r) = 0.
Proof.
  intros Hm Hf Ht.
  set (c := currentAberrationStrength r) in *.
  set (t := targetAberrationStrength r) in *.
  pose proof (Rabs_pos (c - t)) as Ha.
  destruct (kept_vanishes w ((0.0005 - t) / (Rabs (c - t) + 1))) as [T HT];
    [apply Rdiv_lt_0_compat; lra |].
  exists T. intros d ds Hd Hds Htot.
  rewrite timeScaled_frames_split_general by (auto; left; fold t; lra).
  rewrite timeScaled_frame_current by assumption. fold c t.
  rewrite lerp_kept.
  destruct (HT (total (d :: ds)) Htot) as [HK0 HK].
  set (K := kept w (total (d :: ds))) in *.
  destruct (snap_cases 0.0005 (t + (c - t) * K)) as [[_ ->] | [Hge _]];
    [reflexivity | exfalso].
  assert (Hs : Rabs (c - t) * K < 0.0005 - t) by (apply scaled_below; lra).
  pose proof (Rle_abs (c - t)). nra.
Qed.

(** ** Convergence of the watchdog revision, by number of frames *)

Lemma watchdog_converges r eps :
  materialRef r <> None ->
  0.001 <= targetAberrationStrength r ->
  0.001 <= JS.lerp (if forceReset r then 0 else currentAberrationStrength r)
                   (targetAberrationStrength r)
                   (if isScrolling r then 0.15 else 0.08) ->
  0 < eps ->
  exists N, forall ds, (N <= length ds)%nat ->
    Rabs (currentAberrationStrength (watchdog_frames ds r)
          - targetAberrationStrength r) < eps.
Proof.
  intros Hm Ht Hv Heps. rewrite lerp_share in Hv.
  set (c0 := if forceReset r then 0 else currentAberrationStrength r) in *.
  set (t := targetAberrationStrength r) in *.
  set (k := if isScrolling r then 0.15 else 0.08) in *.
  assert (Hk : 0.08 <= k <= 0.15) by (subst k; destruct (isScrolling r); lra).
  pose proof (Rabs_pos (c0 - t)) as Ha.
  destruct (pow_lt_1_zero (1 - k)) with (y := eps / (Rabs (c0 - t) + 1))
    as [N HN]; [rewrite Rabs_right; lra | apply Rdiv_lt_0_compat; lra |].
  exists (S (S N)). intros ds Hlen.
  destruct ds as [| d [| d' ds]]; cbn [length] in Hlen; try lia.
  change (watchdog_frames (d :: d' :: ds) r)
    with (watchdog_frames (d' :: ds) (Watchdog.useFrame d r)).
  destruct (watchdog_frame_first d r Hm) as (Hc1 & Hf1 & Ht1 & Hs1 & Hm1).
  fold t k in Hc1, Ht1. rewrite lerp_share in Hc1.
  set (c1 := currentAberrationStrength (Watchdog.useFrame d r)) in *.
  assert (H1 : 0.001 <= t + (c1 - t) * (1 - k) /\ Rabs (c1 - t) <= Rabs (c0 - t)).
  { subst c0. destruct (forceReset r).
    - rewrite Hc1. split; [exact Hv | lra].
    - destruct (snap_cases 0.001
                  (t + (currentAberrationStrength r - t) * (1 - k)))
        as [[Hlt _] | [Hge Hsn]]; [lra |].
      rewrite Hsn in Hc1. rewrite Hc1. split; [nra |].
      replace (t + (currentAberrationStrength r - t) * (1 - k) - t)
        with ((currentAberrationStrength r - t) * (1 - k)) by ring.
      rewrite Rabs_mult, (Rabs_right (1 - k)) by lra.
      pose proof (Rabs_pos (currentAberrationStrength r - t)). nra. }
  destruct H1 as [Hv1 Hle].
  rewrite watchdog_frames_escaping; auto;
    [| now rewrite Ht1 | now rewrite Ht1, Hs1, lerp_share].
  rewrite Ht1, Hs1. fold c1 k.
  replace (t + (c1 - t) * (1 - k) ^ S (length ds) - t)
    with ((c1 - t) * (1 - k) ^ S (length ds)) by ring.
  pose proof (share_pow (1 - k) (S (length ds)) ltac:(lra)) as Hp.
  rewrite Rabs_mult, (Rabs_right ((1 - k) ^ S (length ds))) by lra.
  assert (HN' : Rabs ((1 - k) ^ S (length ds)) < eps / (Rabs (c0 - t) + 1))
    by (apply HN; lia).
  rewrite Rabs_right in HN' by lra.
  apply Rle_lt_trans with (r2 := Rabs (c0 - t) * (1 - k) ^ S (length ds));
    [nra |].
  apply scaled_below; lra.
Qed.

Lemma watchdog_sinks r :
  materialRef r <> None ->
  targetAberrationStrength r < 0.001 ->
  exists N, forall ds, (N <= length ds)%nat ->
    currentAberrationStrength (watchdog_frames ds r) = 0.
Proof.
  intros Hm Ht.
  set (c := currentAberrationStrength r) in *.
  set (t := targetAberrationStrength r) in *.
  set (k := if isScrolling r then 0.15 else 0.08) in *.
  assert (Hk : 0.08 <= k <= 0.15) by (subst k; destruct (isScrolling r); lra).
  pose proof (Rabs_pos (c - t)) as Ha. pose proof (Rabs_pos t) as Hb.
  destruct (pow_lt_1_zero (1 - k))
    with (y := (0.001 - t) / (Rabs (c - t) + Rabs t + 1))
    as [N HN]; [rewrite Rabs_right; lra | apply Rdiv_lt_0_compat; lra |].
  exists (S (S N)). intros ds Hlen.
  destruct ds as [| d [| d' ds]]; cbn [length] in Hlen; try lia.
  change (watchdog_frames (d :: d' :: ds) r)
    with (watchdog_frames (d' :: ds) (Watchdog.useFrame d r)).
  destruct (watchdog_frame_first d r Hm) as (Hc1 & Hf1 & Ht1 & Hs1 & Hm1).
  fold c t k in Hc1, Ht1. rewrite lerp_share in Hc1.
  assert (Ht1' : targetAberrationStrength (Watchdog.useFrame d r) < 0.001)
    by now rewrite Ht1.
  destruct (watchdog_frames_sinking ds d' _ Hm1 Hf1 Ht1') as [H | H];
    [exact H | exfalso].
  rewrite Ht1, Hs1 in H. fold k in H.
  set (c1 := currentAberrationStrength (Watchdog.useFrame d r)) in *.
  assert (Hle : Rabs (c1 - t) <= Rabs (c - t) + Rabs t).
  { destruct (forceReset r).
    - rewrite Hc1. replace (0 - t) with (- t) by ring. rewrite Rabs_Ropp. lra.
    - destruct (snap_cases 0.001 (t + (c - t) * (1 - k)))
        as [[_ Hsn] | [_ Hsn]]; rewrite Hsn in Hc1; rewrite Hc1.
      + replace (0 - t) with (- t) by ring. rewrite Rabs_Ropp. lra.
      + replace (t + (c - t) * (1 - k) - t) with ((c - t) * (1 - k)) by ring.
        rewrite Rabs_mult, (Rabs_right (1 - k)) by lra. nra. }
  pose proof (share_pow (1 - k) (S (length ds)) ltac:(lra)) as Hp.
  assert (HN' : Rabs ((1 - k) ^ S (length ds))
                < (0.001 - t) / (Rabs (c - t) + Rabs t + 1))
    by (apply HN; lia).
  rewrite Rabs_right in HN' by lra.
  assert (Hs : (Rabs (c - t) + Rabs t) * (1 - k) ^ S (length ds) < 0.001 - t)
    by (apply scaled_below; lra).
  pose proof (Rle_abs (c1 - t)). nra.
Qed.

Lemma watchdog_snapped_first r d ds :
  materialRef r <> None ->
  0 <= (if forceReset r then 0 else currentAberrationStrength r) ->
  0 <= targetAberrationStrength r ->
  JS.lerp (if forceReset r then 0 else currentAberrationStrength r)
          (targetAberrationStrength r)
          (if isScrolling r then 0.15 else 0.08) < 0.001 ->
  currentAberrationStrength (watchdog_frames (d :: ds) r) = 0.
Proof.
  intros Hm Hc Ht Hv. rewrite lerp_share in Hv.
  change (watchdog_frames (d :: ds) r)
    with (watchdog_frames ds (Watchdog.useFrame d r)).
  destruct (watchdog_frame_first d r Hm) as (Hc1 & Hf1 & Ht1 & Hs1 & Hm1).
  rewrite lerp_share in Hc1.
  set (t := targetAberrationStrength r) in *.
  set (k := if isScrolling r then 0.15 else 0.08) in *.
  assert (Hk : 0.08 <= k <= 0.15) by (subst k; destruct (isScrolling r); lra).
  apply watchdog_frames_stuck.
  - destruct (forceReset r); [exact Hc1 |].
    destruct (snap_cases 0.001
                (t + (currentAberrationStrength r - t) * (1 - k)))
      as [[_ Hsn] | [Hge _]]; [| lra].
    now rewrite Hsn in Hc1.
  - rewrite Ht1, Hs1. fold k.
    destruct (forceReset r); nra.
Qed.

(** A quarter of a 60 Hz frame keeps more than 95% of the distance. *)
Lemma kept_240fps_desktop y : 0.95 < kept (desktopWindow y) (1 / 240).
Proof.
  pose proof (kept_60fps (desktopWindow y)) as H60.
  replace (1 / 60) with (1 / 240 + 1 / 240 + (1 / 240 + 1 / 240)) in H60 by lra.
  rewrite !kept_add in H60. unfold strengthDamping in H60.
  rewrite isMobile_desktop in H60.
  assert (Hq : 0 < kept (desktopWindow y) (1 / 240)) by (apply kept_unit; lra).
  set (q := kept (desktopWindow y) (1 / 240)) in *.
  destruct (Rlt_le_dec 0.95 q) as [H | H]; [exact H | exfalso].
  assert (q * q <= 0.95 * 0.95) by nra.
  assert (0 < q * q) by nra.
  assert (q * q * (q * q) <= 0.95 * 0.95 * (0.95 * 0.95)) by nra.
  lra.
Qed.

(** C2, as amended.  With [c] the current and [t] the target strength of an
    item:

    Time-scaled revision (epsilon = 0.0005), for an item not in a forced
    reset, which no run of this revision enters.  (1) Frames of durations
    d1, ..., dn leave the same current strength as a single frame of
    d1 + ... + dn whenever the target is at most epsilon, or the current
    strength is at least epsilon, or the first frame is not snapped, or the
    current strength is not negative and a single frame of the whole time
    would be snapped as well; for a strength that is not negative, what is
    left out is only a split whose first frame is snapped to zero while one
    frame of the whole time is not.  (2) With a material: if the target is
    at least epsilon and the first frame is not snapped, the strength comes
    as close to the target as wanted once the frames add up to enough time,
    however the time is split; (3) if the target is below epsilon the
    strength is exactly 0 once the frames add up to enough time, which is
    the target only when the target is 0; (4) if neither strength is
    negative, the first frame is snapped and no later frame is longer than
    the first, the strength is 0 after every frame, however many follow.

    Watchdog revision (epsilon = 0.001, factor [k] = 0.15 per frame while
    scrolling and 0.08 otherwise), where [c0] is 0 if a forced reset is
    pending, which the first frame carries out, and [c] otherwise.  (5) The
    result depends on the number of frames only, not on their durations.
    With a material: (6) if the target is at least epsilon and the first
    smoothing step from [c0] is not snapped, the strength comes as close to
    the target as wanted after enough frames; (7) if the target is below
    epsilon the strength is exactly 0 after enough frames; (8) if neither
    [c0] nor the target is negative and the first smoothing step from [c0]
    is snapped, the strength is 0 after every frame. *)
Theorem C2_partition_invariance (w : Window) (r : Refs) :
  let c := currentAberrationStrength r in
  let t := targetAberrationStrength r in
  let k := if isScrolling r then 0.15 else 0.08 in
  let c0 := if forceReset r then 0 else c in
  (forceReset r = false ->
   (forall d ds, 0 <= d -> Forall (Rle 0) ds ->
      t <= 0.0005 \/ 0.0005 <= c \/
      0.0005 <= JS.lerp c t (1 - kept w d) \/
      (0 <= c /\ JS.lerp c t (1 - kept w (total (d :: ds))) < 0.0005) ->
      currentAberrationStrength (timeScaled_frames w (d :: ds) r)
      = currentAberrationStrength (TimeScaled.useFrame w (total (d :: ds)) r)) /\
   (materialRef r <> None -> 0.0005 <= t ->
    forall eps, 0 < eps ->
    exists T, forall d ds,
      0 <= d -> Forall (Rle 0) ds ->
      0.0005 <= JS.lerp c t (1 - kept w d) ->
      T <= total (d :: ds) ->
      Rabs (currentAberrationStrength (timeScaled_frames w (d :: ds) r) - t)
      < eps) /\
   (materialRef r <> None -> t < 0.0005 ->
    exists T, forall d ds,
      0 <= d -> Forall (Rle 0) ds -> T <= total (d :: ds) ->
      currentAberrationStrength (timeScaled_frames w (d :: ds) r) = 0) /\
   (materialRef r <> None -> 0 <= c -> 0 <= t ->
    forall d ds,
      0 <= d -> JS.lerp c t (1 - kept w d) < 0.0005 ->
      Forall (fun d' => 0 <= d' <= d) ds ->
      currentAberrationStrength (timeScaled_frames w (d :: ds) r) = 0)) /\
  (forall ds ds',
     length ds = length ds' -> watchdog_frames ds r = watchdog_frames ds' r) /\
  (materialRef r <> None ->
   (0.001 <= t -> 0.001 <= JS.lerp c0 t k ->
    forall eps, 0 < eps ->
    exists N, forall ds, (N <= length ds)%nat ->
      Rabs (currentAberrationStrength (watchdog_frames ds r) - t) < eps) /\
   (t < 0.001 ->
    exists N, forall ds, (N <= length ds)%nat ->
      currentAberrationStrength (watchdog_frames ds r) = 0) /\
   (0 <= c0 -> 0 <= t -> JS.lerp c0 t k < 0.001 ->
    forall d ds,
      currentAberrationStrength (watchdog_frames (d :: ds) r) = 0)).
Proof.
  cbv zeta. split; [| split].
  - intros Hf. split; [| split; [| split]].
    + intros d ds Hd Hds H. now apply timeScaled_frames_split_general.
    + intros Hm Ht eps Heps. now apply timeScaled_converges.
    + intros Hm Ht. now apply timeScaled_sinks.
    + intros Hm Hc Ht d ds Hd Hv Hds.
      apply timeScaled_snapped_first with (D := d); auto; [lra |].
      rewrite lerp_kept in Hv.
      pose proof (kept_unit w d Hd). nra.
  - intros ds ds'. apply watchdog_frames_count.
  - intros Hm. split; [| split].
    + intros Ht Hv eps Heps. now apply watchdog_converges.
    + intros Ht. now apply watchdog_sinks.
    + intros Hc Ht Hv d ds. now apply watchdog_snapped_first.
Qed.

Lemma C2_partition_invariance_witness :
  currentAberrationStrength
    (timeScaled_frames (desktopWindow 0) [1 / 60; 1 / 60] (loadedAt 2))
  = currentAberrationStrength
      (TimeScaled.useFrame (desktopWindow 0) (total [1 / 60; 1 / 60])
         (loadedAt 2)) /\
  (exists T, forall ds,
     Forall (Rle 0) ds -> T <= total (1 / 60 :: ds) ->
     Rabs (currentAberrationStrength
             (timeScaled_frames (desktopWindow 0) (1 / 60 :: ds) (loadedAt 2))
           - 2) < 1 / 100) /\
  currentAberrationStrength
    (timeScaled_frames (desktopWindow 0) [1 / 240; 1 / 240; 1 / 240; 1 / 240]
       (loadedAt 0.002)) = 0 /\
  (exists N, forall ds,
     (N <= length ds)%nat ->
     Rabs (currentAberrationStrength (watchdog_frames ds (loadedAt 2)) - 2)
     < 1 / 100) /\
  currentAberrationStrength (watchdog_frames [1 / 60; 1 / 60] (loadedAt 0.01))
  = 0.
Proof.
  pose proof (C2_partition_invariance (desktopWindow 0) (loadedAt 2)) as H2.
  pose proof (C2_partition_invariance (desktopWindow 0) (loadedAt 0.002)) as H1.
  pose proof (C2_partition_invariance (desktopWindow 0) (loadedAt 0.01)) as H0.
  cbv zeta in H2, H1, H0.
  destruct H2 as (H2 & _ & H2w). destruct H1 as [H1 _].
  destruct H0 as (_ & _ & H0).
  destruct (H2 eq_refl) as (Hsplit & Hconv & _).
  destruct (H2w ltac:(discriminate)) as (Hwconv & _).
  destruct (H1 eq_refl) as (_ & _ & _ & Hstuck).
  destruct (H0 ltac:(discriminate)) as (_ & _ & Hwd).
  assert (Hfirst : 0.0005 <= JS.lerp (currentAberrationStrength (loadedAt 2))
                              (targetAberrationStrength (loadedAt 2))
                              (1 - kept (desktopWindow 0) (1 / 60))).
  { rewrite kept_60fps. unfold strengthDamping.
    rewrite isMobile_desktop. unfold JS.lerp. cbn. lra. }
  split; [| split; [| split; [| split]]].
  - apply Hsplit; [lra | repeat constructor; lra |].
    right. right. left. exact Hfirst.
  - destruct (Hconv ltac:(discriminate) ltac:(cbn; lra) (1 / 100) ltac:(lra))
      as [T HT].
    exists T. intros ds Hds Htot. apply HT; auto. lra.
  - apply Hstuck; [discriminate | cbn; lra | cbn; lra | lra | |
                   repeat constructor; lra].
    rewrite lerp_kept. pose proof (kept_240fps_desktop 0). cbn. lra.
  - apply (Hwconv ltac:(cbn; lra)); [| lra]. unfold JS.lerp. cbn. lra.
  - apply Hwd; [cbn; lra | cbn; lra |]. unfold JS.lerp. cbn. lra.
Defined.

(** C2 as stated fails.  With the default [maxAberration = 2] on a desktop,
    a scroll of 0.125 px sets the target to 0.01.  One frame of 1/60 s then
    lifts the current strength from 0 to 0.0015, whereas the same 1/60 s
    delivered as four frames of 1/240 s leaves it at 0: each short frame
    yields less than epsilon and is snapped back.  The watchdog revision
    applies the same factor whatever the frame time, so one frame of 1/30 s
    and two frames of 1/60 s differ as well. *)
Lemma C2_counterexample :
  let w := desktopWindow 0.125 in
  let r := refs (TimeScaled.run 2 (TimeScaled.mount (desktopWindow 0))
                   [TimeScaled.TextureLoaded; TimeScaled.Scroll w]) in
  total [1 / 240; 1 / 240; 1 / 240; 1 / 240] = 1 / 60 /\
  currentAberrationStrength (TimeScaled.useFrame w (1 / 60) r) = 0.0015 /\
  currentAberrationStrength
    (timeScaled_frames w [1 / 240; 1 / 240; 1 / 240; 1 / 240] r) = 0 /\
  currentAberrationStrength
    (Watchdog.useFrame (1 / 30) (refs (watchdog_scrolling 0 2))) = 0.3 /\
  currentAberrationStrength
    (watchdog_frames [1 / 60; 1 / 60] (refs (watchdog_scrolling 0 2))) = 0.555.
Proof.
  cbv zeta. cbn [TimeScaled.run fold_left TimeScaled.step].
  rewrite timeScaled_handleScroll_large
    by (cbn; replace (0.125 - 0) with 0.125 by lra; rewrite Rabs_right; lra).
  cbv zeta. rewrite isMobile_desktop. cbn [refs].
  assert (Ht : Rmin 1 (Rabs (scrollY (desktopWindow 0.125)
                             - scrollY (desktopWindow 0)) / 25) * 2 = 0.01).
  { cbn. replace (0.125 - 0) with 0.125 by lra.
    rewrite Rabs_right by lra. rewrite Rmin_right; lra. }
  match goal with |- context [TimeScaled.useFrame _ _ ?r] => set (r0 := r) end.
  assert (Hc0 : currentAberrationStrength r0 = 0) by reflexivity.
  assert (Ht0 : targetAberrationStrength r0 = 0.01) by (cbn; exact Ht).
  assert (Hm0 : materialRef r0 <> None) by (cbn; discriminate).
  assert (Hf0 : forceReset r0 = false) by reflexivity.
  pose proof (kept_240fps_desktop 0.125) as Hq.
  split; [cbn; lra |]. split; [| split; [| split]].
  - rewrite timeScaled_frame_current, Hc0, Ht0, lerp_kept, kept_60fps
      by assumption.
    unfold strengthDamping. rewrite isMobile_desktop.
    destruct (snap_cases 0.0005 (0.01 + (0 - 0.01) * (1 - 0.15)))
      as [[H _] | [_ ->]]; lra.
  - assert (Hstep : forall r, currentAberrationStrength r = 0 ->
                              targetAberrationStrength r = 0.01 ->
              currentAberrationStrength
                (TimeScaled.useFrame (desktopWindow 0.125) (1 / 240) r) = 0 /\
              targetAberrationStrength
                (TimeScaled.useFrame (desktopWindow 0.125) (1 / 240) r) = 0.01).
    { intros r Hc Ht'. split.
      - apply timeScaled_rest_step; [exact Hc | rewrite Ht'; lra].
      - destruct (timeScaled_frame_keeps (desktopWindow 0.125) (1 / 240) r)
          as (-> & _). exact Ht'. }
    cbn [timeScaled_frames fold_left].
    destruct (Hstep r0 Hc0 Ht0) as [Hc1 Ht1].
    destruct (Hstep _ Hc1 Ht1) as [Hc2 Ht2].
    destruct (Hstep _ Hc2 Ht2) as [Hc3 Ht3].
    destruct (Hstep _ Hc3 Ht3) as [Hc4 _]. exact Hc4.
  - rewrite watchdog_frame_current by (cbn; congruence).
    cbn. unfold JS.lerp.
    destruct (snap_cases 0.001 ((1 - 0.15) * 0 + 0.15 * 2))
      as [[H _] | [_ ->]]; lra.
  - cbn [watchdog_frames fold_left].
    assert (H1 : currentAberrationStrength
                   (Watchdog.useFrame (1 / 60) (refs (watchdog_scrolling 0 2)))
                 = 0.3).
    { rewrite watchdog_frame_current by (cbn; congruence).
      cbn. unfold JS.lerp.
      destruct (snap_cases 0.001 ((1 - 0.15) * 0 + 0.15 * 2))
        as [[H _] | [_ ->]]; lra. }
    destruct (watchdog_frame_keeps (1 / 60) (refs (watchdog_scrolling 0 2)))
      as (Ht1 & Hs1 & Hm1).
    rewrite watchdog_frame_current.
    + rewrite H1, Ht1, Hs1. cbn. unfold JS.lerp.
      destruct (snap_cases 0.001 ((1 - 0.15) * 0.3 + 0.15 * 2))
        as [[H _] | [_ ->]]; lra.
    + apply Hm1. cbn. discriminate.
    + unfold Watchdog.useFrame, Watchdog.smooth. cbn.
      repeat match goal with |- context [if ?b then _ else _] => destruct b end;
        reflexivity.
Qed.

(** ** Mapping rectangles to world coordinates *)

Lemma matchingFrom_In sel doc : forall k n,
  In n (matchingFrom sel k doc) <->
  (k <= n)%nat /\ exists i, doc !! (n - k)%nat = Some i /\ sel i = true.
Proof.
  induction doc as [| i doc IH]; intros k n; cbn [matchingFrom].
  - split; [easy | intros (_ & ? & H & _); discriminate].
  - rewrite in_app_iff, IH. split.
    + intros [H | (Hk & j & Hj & Hs)].
      * destruct (sel i) eqn:Hs; [| easy]. destruct H as [<- | []].
        split; [lia |]. exists i. now rewrite Nat.sub_diag.
      * split; [lia |]. exists j. split; [| exact Hs].
        replace (n - k)%nat with (S (n - S k)) by lia. exact Hj.
    + intros (Hk & j & Hj & Hs).
      destruct (Nat.eq_dec n k) as [-> | Hne].
      * left. rewrite Nat.sub_diag in Hj. injection Hj as ->.
        rewrite Hs. now left.
      * right. split; [lia |]. exists j. split; [| exact Hs].
        replace (n - k)%nat with (S (n - S k)) in Hj by lia. exact Hj.
Qed.

Lemma querySelectorAll_In sel doc n :
  In n (querySelectorAll sel doc) <->
  exists i, doc !! n = Some i /\ sel i = true.
Proof.
  unfold querySelectorAll. rewrite matchingFrom_In, Nat.sub_0_r.
  split; [intros [_ H]; exact H | intros H; split; [lia | exact H]].
Qed.

Lemma matchingFrom_omap {B} (sel : Img -> bool) (f : Img -> B) doc :
  forall pre,
    omap (fun n => f <$> (pre ++ doc) !! n) (matchingFrom sel (length pre) doc)
    = map f (List.filter sel doc).
Proof.
  induction doc as [| i doc IH]; intros pre; [reflexivity |].
  cbn [matchingFrom List.filter].
  specialize (IH (pre ++ [i])).
  rewrite <- app_assoc, length_app, Nat.add_1_r in IH. cbn [app] in IH.
  destruct (sel i); cbn [app omap list_omap]; [| exact IH].
  rewrite lookup_app_r by lia. rewrite Nat.sub_diag. cbn.
  f_equal. exact IH.
Qed.

Lemma setupImages_imageData w viewport fromRect st :
  ShaderEffectOverlay.imageData (ShaderEffectOverlay.setupImages w viewport fromRect st)
  = map (ShaderEffectOverlay.measure w viewport fromRect)
        (List.filter data_shader (ShaderEffectOverlay.document st)).
Proof. apply (matchingFrom_omap _ _ _ []). Qed.

(** The [k]-th node a selector returns is the [k]-th matching image of the
    document. *)
Lemma matchingFrom_lookup (sel : Img -> bool) doc : forall pre k n,
  matchingFrom sel (length pre) doc !! k = Some n ->
  exists i, (pre ++ doc) !! n = Some i /\ List.filter sel doc !! k = Some i.
Proof.
  induction doc as [| i doc IH]; intros pre k n Hk; [discriminate |].
  cbn [matchingFrom List.filter] in *.
  specialize (IH (pre ++ [i])).
  rewrite <- app_assoc, length_app, Nat.add_1_r in IH. cbn [app] in IH.
  destruct (sel i); cbn [app] in Hk.
  - destruct k as [| k]; cbn in Hk.
    + injection Hk as <-. exists i. split; [| reflexivity].
      rewrite lookup_app_r by lia. now rewrite Nat.sub_diag.
    + apply IH in Hk. exact Hk.
  - apply IH in Hk. exact Hk.
Qed.

Lemma matchingFrom_length (sel : Img -> bool) doc : forall k,
  length (matchingFrom sel k doc) = length (List.filter sel doc).
Proof.
  induction doc as [| i doc IH]; intros k; [reflexivity |].
  cbn [matchingFrom List.filter]. rewrite length_app, IH.
  destruct (sel i); reflexivity.
Qed.

(** The world position and its way back to the screen. *)
Lemma world_position_inverse w viewport rect :
  0 < innerWidth w -> 0 < innerHeight w ->
  0 < Viewport.width viewport -> 0 < Viewport.height viewport ->
  ShaderEffectOverlay.screenX w viewport (ShaderEffectOverlay.worldX w viewport rect)
  = centerX rect /\
  ShaderEffectOverlay.screenY w viewport (ShaderEffectOverlay.worldY w viewport rect)
  = centerY rect.
Proof.
  intros Hw Hh Hvw Hvh. split.
  - unfold ShaderEffectOverlay.screenX, ShaderEffectOverlay.worldX, centerX.
    field. lra.
  - unfold ShaderEffectOverlay.screenY, ShaderEffectOverlay.worldY, centerY.
    field. lra.
Qed.

(** C8. The mapping from a bounding rectangle to world coordinates maps the
    horizontal axis directly and the vertical axis inverted: a rectangle
    further right on screen lies further right in the world, a rectangle
    further down on screen lies lower on the world's upward axis.  For every
    rectangle, scaling its world position by the window/viewport ratio and
    flipping the vertical axis back gives the centre of the rectangle on
    screen, exactly.  [setupImages] applies this mapping to every marked
    image of the document: it returns one entry per node that
    [querySelectorAll('img[data-shader]')] finds, in the same order; every
    marked image of the document is one of these nodes, and the position of
    its entry maps back to the centre of that image's rectangle.
    Conversely every entry belongs to a marked image of the document. *)
Theorem C8_world_position_round_trip (w : Window) (viewport : Viewport.t) :
  0 < innerWidth w -> 0 < innerHeight w ->
  0 < Viewport.width viewport -> 0 < Viewport.height viewport ->
  (forall a b : DOMRect.t,
     (centerX a < centerX b ->
      ShaderEffectOverlay.worldX w viewport a < ShaderEffectOverlay.worldX w viewport b) /\
     (centerY a < centerY b ->
      ShaderEffectOverlay.worldY w viewport b < ShaderEffectOverlay.worldY w viewport a)) /\
  (forall rect : DOMRect.t,
     ShaderEffectOverlay.screenX w viewport
       (ShaderEffectOverlay.worldX w viewport rect) = centerX rect /\
     ShaderEffectOverlay.screenY w viewport
       (ShaderEffectOverlay.worldY w viewport rect) = centerY rect) /\
  (forall fromRect st,
     let images := querySelectorAll data_shader (ShaderEffectOverlay.document st) in
     let data :=
       ShaderEffectOverlay.imageData
         (ShaderEffectOverlay.setupImages w viewport fromRect st) in
     length data = length images /\
     (forall n i,
        ShaderEffectOverlay.document st !! n = Some i -> data_shader i = true ->
        exists k d x y,
          images !! k = Some n /\ data !! k = Some d /\
          ShaderEffectOverlay.data_src d = src i /\
          ShaderEffectOverlay.position d = (x, y, 0) /\
          ShaderEffectOverlay.screenX w viewport x = centerX (getBoundingClientRect i) /\
          ShaderEffectOverlay.screenY w viewport y = centerY (getBoundingClientRect i)) /\
     (forall d, In d data ->
        exists i x y,
          In i (ShaderEffectOverlay.document st) /\ data_shader i = true /\
          ShaderEffectOverlay.position d = (x, y, 0) /\
          ShaderEffectOverlay.screenX w viewport x = centerX (getBoundingClientRect i) /\
          ShaderEffectOverlay.screenY w viewport y = centerY (getBoundingClientRect i))).
Proof.
  intros Hw Hh Hvw Hvh. split; [| split].
  - intros a b. unfold ShaderEffectOverlay.worldX, ShaderEffectOverlay.worldY.
    fold (centerX a) (centerX b) (centerY a) (centerY b).
    assert (0 < / innerWidth w) by now apply Rinv_0_lt_compat.
    assert (0 < / innerHeight w) by now apply Rinv_0_lt_compat.
    unfold Rdiv. split; intros Hlt.
    + assert (centerX a * / innerWidth w < centerX b * / innerWidth w)
        by now apply Rmult_lt_compat_r.
      nra.
    + assert (centerY a * / innerHeight w < centerY b * / innerHeight w)
        by now apply Rmult_lt_compat_r.
      nra.
  - intros rect. now apply world_position_inverse.
  - intros fromRect st images data. subst images data.
    rewrite setupImages_imageData. split; [| split].
    + rewrite length_map. unfold querySelectorAll.
      now rewrite matchingFrom_length.
    + intros n i Hn Hsel.
      assert (Hin : In n (querySelectorAll data_shader
                            (ShaderEffectOverlay.document st)))
        by (apply querySelectorAll_In; eauto).
      apply list_elem_of_In, list_elem_of_lookup_1 in Hin.
      destruct Hin as [k Hk].
      destruct (matchingFrom_lookup data_shader
                  (ShaderEffectOverlay.document st) [] k n Hk)
        as (i' & Hi' & Hf).
      cbn [app] in Hi'. rewrite Hn in Hi'. injection Hi' as <-.
      destruct (world_position_inverse w viewport (getBoundingClientRect i))
        as [Hx Hy]; try assumption.
      exists k, (ShaderEffectOverlay.measure w viewport fromRect i),
        (ShaderEffectOverlay.worldX w viewport (getBoundingClientRect i)),
        (ShaderEffectOverlay.worldY w viewport (getBoundingClientRect i)).
      split; [exact Hk |]. split; [| now repeat split].
      rewrite list_lookup_fmap, Hf. reflexivity.
    + intros d Hd. apply in_map_iff in Hd. destruct Hd as (i & <- & Hi).
      apply filter_In in Hi. destruct Hi as [Hi Hsel].
      destruct (world_position_inverse w viewport (getBoundingClientRect i))
        as [Hx Hy]; try assumption.
      exists i, (ShaderEffectOverlay.worldX w viewport (getBoundingClientRect i)),
        (ShaderEffectOverlay.worldY w viewport (getBoundingClientRect i)).
      now repeat split.
Qed.

Lemma C8_world_position_round_trip_witness :
  exists d x y,
    ShaderEffectOverlay.imageData
      (ShaderEffectOverlay.setupImages (desktopWindow 0) canvasViewport true
         {| ShaderEffectOverlay.document := [fadedImg; skillsImg "js.png"];
            ShaderEffectOverlay.listeners := [];
            ShaderEffectOverlay.imageData := [];
            ShaderEffectOverlay.setupComplete := false |}) !! 0%nat = Some d /\
    ShaderEffectOverlay.position d = (x, y, 0) /\
    ShaderEffectOverlay.screenX (desktopWindow 0) canvasViewport x = 132 /\
    ShaderEffectOverlay.screenY (desktopWindow 0) canvasViewport y = 232.
Proof.
  destruct (C8_world_position_round_trip (desktopWindow 0) canvasViewport)
    as (_ & _ & H); try (cbn; lra).
  destruct (H true
              {| ShaderEffectOverlay.document := [fadedImg; skillsImg "js.png"];
                 ShaderEffectOverlay.listeners := [];
                 ShaderEffectOverlay.imageData := [];
                 ShaderEffectOverlay.setupComplete := false |})
    as (_ & Hall & _).
  destruct (Hall 1%nat (skillsImg "js.png") eq_refl eq_refl)
    as (k & d & x & y & Hk & Hd & _ & Hp & Hx & Hy).
  destruct k as [| k]; [| destruct k; discriminate Hk].
  exists d, x, y. split; [exact Hd |]. split; [exact Hp |].
  rewrite Hx, Hy. unfold centerX, centerY. cbn. lra.
Defined.

(** ** Hiding and restoring the original images *)

Lemma forEach_untouched f nodes : forall (doc : list Img) n,
  ~ In n nodes -> forEach f nodes doc !! n = doc !! n.
Proof.
  induction nodes as [| m nodes IH]; intros doc n Hn; [reflexivity |].
  cbn. change (fold_left _ nodes ?d) with (forEach f nodes d).
  rewrite IH by (intros H; apply Hn; now right).
  apply list_lookup_alter_ne. intros ->. apply Hn. now left.
Qed.

Lemma forEach_touched f nodes :
  (forall i, f (f i) = f i) ->
  forall (doc : list Img) n,
    In n nodes -> forEach f nodes doc !! n = f <$> doc !! n.
Proof.
  intros Hidem. induction nodes as [| m nodes IH]; intros doc n Hn; [easy |].
  cbn. change (fold_left _ nodes ?d) with (forEach f nodes d).
  destruct (in_dec Nat.eq_dec n nodes) as [Hin | Hout].
  - rewrite IH by exact Hin. rewrite list_lookup_alter.
    case_decide as Heq; [| reflexivity].
    subst. destruct (doc !! n); cbn; [now rewrite Hidem | reflexivity].
  - destruct Hn as [-> | Hn]; [| contradiction].
    rewrite forEach_untouched by exact Hout. apply list_lookup_alter_eq.
Qed.

Lemma forEach_cleared f nodes :
  (forall i, cleared (f i) = cleared i) ->
  forall (doc : list Img) n,
    cleared <$> forEach f nodes doc !! n = cleared <$> doc !! n.
Proof.
  intros Hf. induction nodes as [| m nodes IH]; intros doc n; [reflexivity |].
  cbn. change (fold_left _ nodes ?d) with (forEach f nodes d).
  rewrite IH, list_lookup_alter. case_decide; [subst | reflexivity].
  destruct (doc !! n); cbn -[cleared]; [now rewrite Hf | reflexivity].
Qed.

Lemma createEntries_untouched nodes : forall index st n,
  ~ In n nodes ->
  ChromaticImages.document (ChromaticImages.createEntries index nodes st) !! n
  = ChromaticImages.document st !! n.
Proof.
  induction nodes as [| m nodes IH]; intros index st n Hn; [reflexivity |].
  cbn [ChromaticImages.createEntries].
  rewrite IH by (intros H; apply Hn; now right). cbn.
  apply list_lookup_alter_ne. intros ->. apply Hn. now left.
Qed.

Lemma createEntries_cleared nodes : forall index st n,
  cleared <$> ChromaticImages.document
                (ChromaticImages.createEntries index nodes st) !! n
  = cleared <$> ChromaticImages.document st !! n.
Proof.
  induction nodes as [| m nodes IH]; intros index st n; [reflexivity |].
  cbn [ChromaticImages.createEntries]. rewrite IH. cbn.
  rewrite list_lookup_alter. case_decide; [subst | reflexivity].
  destruct (ChromaticImages.document st !! n); reflexivity.
Qed.

Lemma createEntries_identified nodes : forall index st n i,
  In n nodes ->
  ChromaticImages.document (ChromaticImages.createEntries index nodes st) !! n
  = Some i ->
  is_Some (dataset_chromaticId i).
Proof.
  induction nodes as [| m nodes IH]; intros index st n i Hn Hi; [easy |].
  cbn [ChromaticImages.createEntries] in Hi.
  destruct (in_dec Nat.eq_dec n nodes) as [Hin | Hout].
  - eapply IH; eassumption.
  - destruct Hn as [-> | Hn]; [| contradiction].
    rewrite createEntries_untouched in Hi by exact Hout. cbn in Hi.
    rewrite list_lookup_alter_eq in Hi.
    destruct (ChromaticImages.document st !! n); [| discriminate].
    injection Hi as <-. cbn. eauto.
Qed.

Lemma same_listener_refl l : same_listener l l = true.
Proof.
  destruct l as [type []]. unfold same_listener. cbn.
  now rewrite String.eqb_refl.
Qed.

Lemma same_listener_eq a b : same_listener a b = true -> a = b.
Proof.
  destruct a as [ta []], b as [tb []]. unfold same_listener. cbn.
  rewrite andb_true_r. intros H. apply String.eqb_eq in H. now subst.
Qed.

Lemma addEventListener_In type h ls : In (type, h) (addEventListener type h ls).
Proof.
  unfold addEventListener.
  destruct (existsb _ ls) eqn:He.
  - apply existsb_exists in He. destruct He as (l & Hl & Hs).
    apply same_listener_eq in Hs. now subst.
  - apply in_app_iff. right. now left.
Qed.

Lemma removeEventListener_gone type h ls :
  ~ In (type, h) (removeEventListener type h ls).
Proof.
  unfold removeEventListener. intros H. apply filter_In in H.
  destruct H as [_ H]. now rewrite same_listener_refl in H.
Qed.

(** C7, as amended.  [ChromaticImages] discovers exactly the images that
    carry [data-chromatic-decay], gives each an id and hides it with opacity
    '0'.  When its effect is disposed, on whatever the component has become
    by then, the intersection observer is disconnected and every
    discovered image has its inline opacity set to the empty string and its
    chromatic id removed; disposed right after mounting, the document is the
    original one with inline opacity and chromatic id cleared on the
    discovered images, so an image that had neither is exactly as it was.
    When [ShaderEffectOverlay] is disposed, the resize listener its effect
    attached is removed. *)
Theorem C7_teardown (doc : list Img) :
  let st := fst (ChromaticImages.effect doc) in
  let chromaticImages := snd (ChromaticImages.effect doc) in
  (forall n, In n chromaticImages <->
             exists i, doc !! n = Some i /\ data_chromatic_decay i = true) /\
  (forall n i, In n chromaticImages ->
     ChromaticImages.document st !! n = Some i ->
     style_opacity i = "0"%string /\ is_Some (dataset_chromaticId i)) /\
  (forall later,
     ChromaticImages.observer (ChromaticImages.cleanup chromaticImages later) = [] /\
     forall n i, In n chromaticImages ->
       ChromaticImages.document
         (ChromaticImages.cleanup chromaticImages later) !! n = Some i ->
       style_opacity i = ""%string /\ dataset_chromaticId i = None) /\
  (forall n,
     ChromaticImages.document (ChromaticImages.cleanup chromaticImages st) !! n
     = if in_dec Nat.eq_dec n chromaticImages
       then cleared <$> doc !! n else doc !! n) /\
  (forall w viewport fromRect st0,
     let mounted := ShaderEffectOverlay.effect w viewport fromRect st0 in
     In ("resize"%string, handleResize) (ShaderEffectOverlay.listeners mounted) /\
     ~ In ("resize"%string, handleResize)
          (ShaderEffectOverlay.listeners (ShaderEffectOverlay.cleanup mounted))).
Proof.
  cbv zeta. unfold ChromaticImages.effect. cbn [fst snd].
  set (nodes := querySelectorAll data_chromatic_decay doc).
  set (made := ChromaticImages.createEntries 0 nodes
                 {| ChromaticImages.document := doc;
                    ChromaticImages.images := [];
                    ChromaticImages.observer := [] |}).
  assert (Hidem0 : forall i, set_style_opacity "0" (set_style_opacity "0" i)
                             = set_style_opacity "0" i) by reflexivity.
  assert (Hidem : forall i, cleared (cleared i) = cleared i) by reflexivity.
  split; [| split; [| split; [| split]]].
  - intros n. apply querySelectorAll_In.
  - intros n i Hn Hi. cbn [ChromaticImages.document] in Hi.
    rewrite forEach_touched in Hi by assumption.
    destruct (ChromaticImages.document made !! n) as [i' |] eqn:Hi';
      [| discriminate].
    injection Hi as <-. split; [reflexivity |]. cbn.
    eapply createEntries_identified; eassumption.
  - intros later. split; [reflexivity |].
    intros n i Hn Hi. cbn [ChromaticImages.cleanup ChromaticImages.document] in Hi.
    change (fun i => set_dataset_chromaticId None (set_style_opacity "" i))
      with cleared in Hi.
    rewrite forEach_touched in Hi by assumption.
    destruct (ChromaticImages.document later !! n); [| discriminate].
    injection Hi as <-. split; reflexivity.
  - intros n. cbn [ChromaticImages.cleanup ChromaticImages.document].
    change (fun i => set_dataset_chromaticId None (set_style_opacity "" i))
      with cleared.
    destruct (in_dec Nat.eq_dec n nodes) as [Hin | Hout].
    + rewrite forEach_touched by assumption.
      rewrite forEach_cleared by reflexivity.
      unfold made. now rewrite createEntries_cleared.
    + rewrite !forEach_untouched by assumption.
      unfold made. now rewrite createEntries_untouched.
  - intros w viewport fromRect st0. cbn. split.
    + apply addEventListener_In.
    + apply removeEventListener_gone.
Qed.

Lemma C7_teardown_witness :
  let mounted := ChromaticImages.effect [skillsImg "js.png"; fadedImg] in
  In 1%nat (snd mounted) /\
  forall i,
    ChromaticImages.document
      (ChromaticImages.cleanup (snd mounted) (fst mounted)) !! 1%nat = Some i ->
    style_opacity i = ""%string /\ dataset_chromaticId i = None.
Proof.
  intros mounted.
  destruct (C7_teardown [skillsImg "js.png"; fadedImg])
    as (Hfound & _ & Hdisposed & _).
  assert (Hin : In 1%nat (snd mounted)).
  { apply Hfound. exists fadedImg. split; reflexivity. }
  split; [exact Hin |].
  intros i Hi. now apply (Hdisposed (fst mounted)) with (n := 1%nat).
Defined.

(** C7 as stated fails in both overlays.  An image that is half transparent
    through its own inline style comes back from [ChromaticImages] with no
    inline opacity at all; and an image of the skills grid, hidden by
    [ShaderEffectOverlay], is still at opacity '0' after the overlay's
    cleanup, which touches listeners only. *)
Lemma C7_counterexample :
  (let original := [fadedImg] in
   let mounted := ChromaticImages.effect original in
   let disposed := ChromaticImages.cleanup (snd mounted) (fst mounted) in
   style_opacity <$> original !! 0%nat = Some "0.5"%string /\
   style_opacity <$> ChromaticImages.document (fst mounted) !! 0%nat
   = Some "0"%string /\
   style_opacity <$> ChromaticImages.document disposed !! 0%nat
   = Some ""%string) /\
  (let original :=
     {| ShaderEffectOverlay.document := [skillsImg "js.png"];
        ShaderEffectOverlay.listeners := [];
        ShaderEffectOverlay.imageData := [];
        ShaderEffectOverlay.setupComplete := false |} in
   let mounted :=
     ShaderEffectOverlay.effect (desktopWindow 0) canvasViewport true original in
   let disposed := ShaderEffectOverlay.cleanup mounted in
   style_opacity <$> ShaderEffectOverlay.document original !! 0%nat
   = Some ""%string /\
   style_opacity <$> ShaderEffectOverlay.document mounted !! 0%nat
   = Some "0"%string /\
   style_opacity <$> ShaderEffectOverlay.document disposed !! 0%nat
   = Some "0"%string).
Proof. repeat split. Qed.

(** * Further properties of the code *)

(** ** More on scroll input *)

Lemma refs_eta (r : Refs) : set_lastScrollY (lastScrollY r) r = r.
Proof. now destruct r. Qed.

Lemma world_eta {C} (s : World C) : Build_World (refs s) (timers s) = s.
Proof. now destruct s. Qed.

(** X1. Scrolling in steps that each stay below the noise threshold is never
    noticed, however far the page travels in total: the handler records every
    position it sees before it compares, so small steps do not add up.  The
    run leaves the targets, the flags and the timer table as they were and
    only moves [lastScrollY] to the last position seen. *)
Theorem creeping_scroll_unnoticed (maxAberration : R) (ws : list Window) :
  (forall s : World TimeScaled.Callback,
     creeping 0.1 (lastScrollY (refs s)) ws ->
     TimeScaled.run maxAberration s (map TimeScaled.Scroll ws)
     = Build_World
         (set_lastScrollY (lastSeen (lastScrollY (refs s)) ws) (refs s))
         (timers s)) /\
  (forall s : World Watchdog.Callback,
     creeping 0.5 (lastScrollY (refs s)) ws ->
     Watchdog.run maxAberration s (map Watchdog.Scroll ws)
     = Build_World
         (set_lastScrollY (lastSeen (lastScrollY (refs s)) ws) (refs s))
         (timers s)).
Proof.
  split.
  - induction ws as [| w ws IH]; intros s Hc.
    + cbn. now rewrite refs_eta, world_eta.
    + destruct Hc as [Hw Hc]. cbn [map TimeScaled.run fold_left TimeScaled.step].
      rewrite timeScaled_handleScroll_small by exact Hw.
      change (fold_left (TimeScaled.step maxAberration) ?l ?x)
        with (TimeScaled.run maxAberration x l).
      rewrite IH by exact Hc. reflexivity.
  - induction ws as [| w ws IH]; intros s Hc.
    + cbn. now rewrite refs_eta, world_eta.
    + destruct Hc as [Hw Hc]. cbn [map Watchdog.run fold_left Watchdog.step].
      rewrite watchdog_handleScroll_small by exact Hw.
      change (fold_left (Watchdog.step maxAberration) ?l ?x)
        with (Watchdog.run maxAberration x l).
      rewrite IH by exact Hc. reflexivity.
Qed.

Lemma creeping_scroll_unnoticed_witness :
  targetAberrationStrength
    (refs (TimeScaled.run 2 (TimeScaled.mount (desktopWindow 0))
             (map TimeScaled.Scroll
                [desktopWindow 0.09; desktopWindow 0.18; desktopWindow 0.27])))
  = 0.
Proof.
  destruct (creeping_scroll_unnoticed 2
              [desktopWindow 0.09; desktopWindow 0.18; desktopWindow 0.27])
    as [H _].
  rewrite H; [reflexivity |].
  cbn. repeat split; apply Rabs_def1; lra.
Defined.

Lemma Rmin_one_monotone a b : a <= b -> Rmin 1 a <= Rmin 1 b.
Proof.
  intros H. apply Rmin_glb; [apply Rmin_l |].
  apply Rle_trans with (r2 := a); [apply Rmin_r | exact H].
Qed.

(** X2. How an above-threshold scroll sets the targets, time-scaled revision.
    The target strength grows with the distance scrolled and is the full
    [maxAberration] from 25 px on (12 px on a mobile device); the target
    direction points down for a downward scroll and up for an upward one,
    and a downward scroll of 30 px or more (15 px mobile) gives exactly
    (0, 1). *)
Theorem timeScaled_scroll_response
    (maxAberration : R) (w : Window) (s : World TimeScaled.Callback) :
  0 <= maxAberration ->
  let delta := scrollY w - lastScrollY (refs s) in
  let s' := TimeScaled.handleScroll maxAberration w s in
  0.1 <= Rabs delta ->
  (forall w2, TimeScaled.isMobile w2 = TimeScaled.isMobile w ->
     Rabs delta <= Rabs (scrollY w2 - lastScrollY (refs s)) ->
     targetAberrationStrength (refs s')
     <= targetAberrationStrength
          (refs (TimeScaled.handleScroll maxAberration w2 s))) /\
  ((if TimeScaled.isMobile w then 12 else 25) <= Rabs delta ->
   targetAberrationStrength (refs s') = maxAberration) /\
  (0 < delta -> 0 < Vector2.y (targetDirection (refs s'))) /\
  (delta < 0 -> Vector2.y (targetDirection (refs s')) < 0) /\
  ((if TimeScaled.isMobile w then 15 else 30) <= delta ->
   targetDirection (refs s') = Vector2.mk 0 1).
Proof.
  intros Hmax delta s' Hd. subst s'.
  rewrite timeScaled_handleScroll_large by exact Hd. cbv zeta. cbn.
  fold delta.
  assert (Hk : 0 < (if TimeScaled.isMobile w then 12 else 25))
    by (destruct (TimeScaled.isMobile w); lra).
  assert (Hk' : 0 < (if TimeScaled.isMobile w then 15 else 30))
    by (destruct (TimeScaled.isMobile w); lra).
  assert (Hpos : 0 < Rmin 1 (Rabs delta / (if TimeScaled.isMobile w then 15 else 30))).
  { apply Rmin_glb_lt; [lra |]. apply Rdiv_lt_0_compat; lra. }
  split; [| split; [| split; [| split]]].
  - intros w2 Hm Hle.
    rewrite timeScaled_handleScroll_large by lra. cbv zeta. cbn. rewrite Hm.
    apply Rmult_le_compat_r; [exact Hmax |].
    apply Rmin_one_monotone. unfold Rdiv.
    apply Rmult_le_compat_r; [| exact Hle].
    left. now apply Rinv_0_lt_compat.
  - intros Hsat. rewrite Rmin_left; [lra |].
    apply Rmult_le_reg_r with (r := if TimeScaled.isMobile w then 12 else 25);
      [exact Hk |].
    unfold Rdiv. rewrite Rmult_assoc, Rinv_l by lra. lra.
  - intros H. rewrite sign_pos by exact H. lra.
  - intros H. rewrite sign_neg by exact H. lra.
  - intros H. assert (0 < delta) by lra.
    rewrite sign_pos by assumption. rewrite Rabs_right by lra.
    rewrite Rmin_left; [f_equal; lra |].
    apply Rmult_le_reg_r with (r := if TimeScaled.isMobile w then 15 else 30);
      [exact Hk' |].
    unfold Rdiv. rewrite Rmult_assoc, Rinv_l by lra. lra.
Qed.

Lemma timeScaled_scroll_response_witness :
  targetAberrationStrength
    (refs (TimeScaled.handleScroll 2 (desktopWindow 30)
             (TimeScaled.mount (desktopWindow 0)))) = 2.
Proof.
  destruct (timeScaled_scroll_response 2 (desktopWindow 30)
              (TimeScaled.mount (desktopWindow 0)))
    as (_ & H & _).
  - lra.
  - cbn. replace (30 - 0) with 30 by lra. rewrite Rabs_right; lra.
  - apply H. rewrite isMobile_desktop. cbn.
    replace (30 - 0) with 30 by lra. rewrite Rabs_right; lra.
Defined.

(** X3. How an above-threshold scroll sets the targets, watchdog revision.
    The target strength grows with the distance scrolled and is the full
    [maxAberration] from 20 px on; the target direction is exactly (0, 1)
    for every downward and (0, -1) for every upward scroll, however
    short. *)
Theorem watchdog_scroll_response
    (maxAberration : R) (w : Window) (s : World Watchdog.Callback) :
  0 <= maxAberration ->
  let delta := scrollY w - lastScrollY (refs s) in
  let s' := Watchdog.handleScroll maxAberration w s in
  0.5 <= Rabs delta ->
  (forall w2,
     Rabs delta <= Rabs (scrollY w2 - lastScrollY (refs s)) ->
     targetAberrationStrength (refs s')
     <= targetAberrationStrength
          (refs (Watchdog.handleScroll maxAberration w2 s))) /\
  (20 <= Rabs delta -> targetAberrationStrength (refs s') = maxAberration) /\
  (0 < delta -> targetDirection (refs s') = Vector2.mk 0 1) /\
  (delta < 0 -> targetDirection (refs s') = Vector2.mk 0 (-1)).
Proof.
  intros Hmax delta s' Hd. subst s'.
  rewrite watchdog_handleScroll_large by exact Hd. cbv zeta. cbn.
  fold delta.
  split; [| split; [| split]].
  - intros w2 Hle.
    rewrite watchdog_handleScroll_large by lra. cbv zeta. cbn.
    apply Rmult_le_compat_r; [exact Hmax |].
    apply Rmin_one_monotone. lra.
  - intros Hsat. rewrite Rmin_left; lra.
  - intros H. now rewrite sign_pos.
  - intros H. now rewrite sign_neg.
Qed.

Lemma watchdog_scroll_response_witness :
  targetDirection
    (refs (Watchdog.handleScroll 2 (desktopWindow 99)
             (Watchdog.mount (desktopWindow 100)))) = Vector2.mk 0 (-1).
Proof.
  destruct (watchdog_scroll_response 2 (desktopWindow 99)
              (Watchdog.mount (desktopWindow 100)))
    as (_ & _ & _ & H).
  - lra.
  - cbn. replace (99 - 100) with (- 1) by lra.
    rewrite Rabs_left; lra.
  - apply H. cbn. lra.
Defined.

(** ** Direction, uniforms and what the shaders make of them *)

Lemma vector_lerp_vertical (cur tgt : Vector2.t) k :
  0 <= k <= 1 ->
  Vector2.x cur = 0 -> -1 <= Vector2.y cur <= 1 ->
  Vector2.x tgt = 0 -> -1 <= Vector2.y tgt <= 1 ->
  Vector2.x (Vector2.lerp cur tgt k) = 0 /\
  -1 <= Vector2.y (Vector2.lerp cur tgt k) <= 1.
Proof. intros Hk Hx Hy Htx Hty. cbn. rewrite Hx, Htx. split; nra. Qed.

Lemma timeScaled_frame_direction w delta r :
  0 <= delta -> vertical r -> vertical (TimeScaled.useFrame w delta r).
Proof.
  intros Hd (Htx & Hty & Hcx & Hcy).
  pose proof (kept_unit w delta Hd) as Hq.
  unfold TimeScaled.useFrame. destruct (materialRef r); [| easy].
  unfold TimeScaled.smooth. rewrite one_point_zero.
  fold (strengthDamping w). fold (kept w delta).
  assert (Hreset : 0 <= (if TimeScaled.isMobile w then 0.4 else 0.25) <= 1)
    by (destruct (TimeScaled.isMobile w); lra).
  destruct (vector_lerp_vertical (currentDirection r) (targetDirection r)
              (1 - kept w delta)) as [Hx Hy]; try assumption; try lra.
  destruct (vector_lerp_vertical (currentDirection r) (Vector2.mk 0 0)
              (if TimeScaled.isMobile w then 0.4 else 0.25)) as [Hx0 Hy0];
    try assumption; try (cbn; lra).
  unfold vertical.
  destruct (forceReset r); cbn -[Vector2.lerp];
    repeat match goal with
           | |- context [if JS.lt ?a ?b then _ else _] => destruct (JS.lt a b)
           end;
    cbn -[Vector2.lerp]; repeat split; try assumption; try lra.
Qed.

Lemma watchdog_frame_direction delta r :
  vertical r -> vertical (Watchdog.useFrame delta r).
Proof.
  intros (Htx & Hty & Hcx & Hcy).
  unfold Watchdog.useFrame. destruct (materialRef r); [| easy].
  unfold Watchdog.smooth.
  destruct (vector_lerp_vertical (currentDirection r) (targetDirection r) 0.2)
    as [Hx Hy]; try assumption; try lra.
  unfold vertical.
  destruct (forceReset r); cbn -[Vector2.lerp];
    repeat match goal with
           | |- context [if JS.lt ?a ?b then _ else _] => destruct (JS.lt a b)
           end;
    cbn -[Vector2.lerp]; repeat split; try assumption; try lra.
Qed.

Lemma timeScaled_step_direction maxAberration s e :
  TimeScaled.elapsed e -> vertical (refs s) ->
  vertical (refs (TimeScaled.step maxAberration s e)).
Proof.
  intros He Hv. destruct e as [| w | id | w delta]; cbn [TimeScaled.step].
  - exact Hv.
  - destruct (Rlt_le_dec (Rabs (scrollY w - lastScrollY (refs s))) 0.1) as [H | H].
    + rewrite timeScaled_handleScroll_small by exact H. exact Hv.
    + rewrite timeScaled_handleScroll_large by exact H. cbv zeta.
      destruct Hv as (_ & _ & Hcx & Hcy). unfold vertical. cbn.
      split; [reflexivity |]. split; [| split; assumption].
      set (delta := scrollY w - lastScrollY (refs s)) in *.
      assert (Hm : 0 <= Rmin 1 (Rabs delta / (if TimeScaled.isMobile w then 15 else 30)) <= 1)
        by (apply speedFactor_unit; destruct (TimeScaled.isMobile w); lra).
      unfold JS.Math_sign.
      destruct (Rlt_dec 0 delta); [lra |]. destruct (Rlt_dec delta 0); lra.
  - unfold TimeScaled.fire.
    destruct (pending (timers s) !! id) as [t |]; [| exact Hv].
    destruct (callback t). exact Hv.
  - now apply timeScaled_frame_direction.
Qed.

Lemma watchdog_step_direction maxAberration s e :
  vertical (refs s) -> vertical (refs (Watchdog.step maxAberration s e)).
Proof.
  intros Hv. destruct e as [| w | id | delta]; cbn [Watchdog.step].
  - exact Hv.
  - destruct (Rlt_le_dec (Rabs (scrollY w - lastScrollY (refs s))) 0.5) as [H | H].
    + rewrite watchdog_handleScroll_small by exact H. exact Hv.
    + rewrite watchdog_handleScroll_large by exact H. cbv zeta.
      destruct Hv as (_ & _ & Hcx & Hcy). unfold vertical. cbn.
      split; [reflexivity |]. split; [| split; assumption].
      unfold JS.Math_sign.
      destruct (Rlt_dec 0 _); [lra |]. destruct (Rlt_dec _ 0); lra.
  - unfold Watchdog.fire.
    destruct (pending (timers s) !! id) as [t |]; [| exact Hv].
    destruct (callback t); cbn [Watchdog.onTimeout refs].
    + exact Hv.
    + destruct (_ && _); exact Hv.
  - now apply watchdog_frame_direction.
Qed.

(** X4. The aberration is always vertical.  After any events following the
    mount, in both revisions, the target and the current direction have no
    horizontal part and a vertical part between -1 and 1. *)
Theorem direction_stays_vertical (maxAberration : R) (w0 : Window) :
  (forall es : list TimeScaled.Event,
     Forall TimeScaled.elapsed es ->
     vertical (refs (TimeScaled.run maxAberration (TimeScaled.mount w0) es))) /\
  (forall es : list Watchdog.Event,
     vertical (refs (Watchdog.run maxAberration (Watchdog.mount w0) es))).
Proof.
  assert (H0 : vertical (initialRefs w0)) by (unfold vertical; cbn; lra).
  split.
  - intros es Hes.
    enough (H : forall s, vertical (refs s) ->
                vertical (refs (TimeScaled.run maxAberration s es)))
      by now apply H.
    induction Hes as [| e es He Hes IH]; intros s Hv; [exact Hv |].
    cbn. apply IH. now apply timeScaled_step_direction.
  - intros es.
    enough (H : forall s, vertical (refs s) ->
                vertical (refs (Watchdog.run maxAberration s es)))
      by now apply H.
    induction es as [| e es IH]; intros s Hv; [exact Hv |].
    cbn. apply IH. now apply watchdog_step_direction.
Qed.

Lemma direction_stays_vertical_witness :
  vertical
    (refs (TimeScaled.run 2 (TimeScaled.mount (desktopWindow 0))
             [TimeScaled.TextureLoaded;
              TimeScaled.Scroll (desktopWindow 10);
              TimeScaled.Frame (desktopWindow 10) (1 / 60)])).
Proof.
  destruct (direction_stays_vertical 2 (desktopWindow 0)) as [H _].
  apply H. repeat constructor; cbn; lra.
Defined.

Lemma timeScaled_frame_uniforms w delta r :
  materialRef r <> None ->
  materialRef (TimeScaled.useFrame w delta r)
  = Some {| aberrationStrength :=
              currentAberrationStrength (TimeScaled.useFrame w delta r);
            aberrationDirection := currentDirection (TimeScaled.useFrame w delta r);
            uOffset :=
              Vector2.mk 0
                (currentAberrationStrength (TimeScaled.useFrame w delta r) * 0.5
                 * Vector2.y (currentDirection (TimeScaled.useFrame w delta r))) |}.
Proof.
  intros Hm. unfold TimeScaled.useFrame. destruct (materialRef r); [| easy].
  reflexivity.
Qed.

Lemma watchdog_frame_uniforms delta r :
  materialRef r <> None ->
  materialRef (Watchdog.useFrame delta r)
  = Some {| aberrationStrength :=
              currentAberrationStrength (Watchdog.useFrame delta r);
            aberrationDirection := currentDirection (Watchdog.useFrame delta r);
            uOffset :=
              Vector2.mk 0
                (currentAberrationStrength (Watchdog.useFrame delta r) * 0.5
                 * (if JS.eq (Vector2.y (currentDirection (Watchdog.useFrame delta r))) 0
                    then 0
                    else JS.Math_sign
                           (Vector2.y (currentDirection (Watchdog.useFrame delta r))))) |}.
Proof.
  intros Hm. unfold Watchdog.useFrame. destruct (materialRef r); [| easy].
  reflexivity.
Qed.

Lemma sign_unit x : -1 <= JS.Math_sign x <= 1.
Proof.
  unfold JS.Math_sign. destruct (Rlt_dec 0 x); [lra |].
  destruct (Rlt_dec x 0); lra.
Qed.

Lemma half_product_bound m c y :
  0 <= c <= m -> -1 <= y <= 1 -> Rabs (c * 0.5 * y) <= m / 2.
Proof. intros Hc Hy. apply Rabs_le. nra. Qed.

Lemma fresh_uniforms_within m :
  0 <= m -> uniforms_within m createChromaticAberrationMaterial.
Proof.
  intros Hm. unfold uniforms_within. cbn. rewrite Rabs_R0. lra.
Qed.

Lemma timeScaled_handleScroll_material m w (s : World TimeScaled.Callback) :
  materialRef (refs (TimeScaled.handleScroll m w s)) = materialRef (refs s).
Proof.
  destruct (Rlt_le_dec (Rabs (scrollY w - lastScrollY (refs s))) 0.1) as [H | H].
  - now rewrite timeScaled_handleScroll_small.
  - now rewrite timeScaled_handleScroll_large.
Qed.

Lemma watchdog_handleScroll_material m w (s : World Watchdog.Callback) :
  materialRef (refs (Watchdog.handleScroll m w s)) = materialRef (refs s).
Proof.
  destruct (Rlt_le_dec (Rabs (scrollY w - lastScrollY (refs s))) 0.5) as [H | H].
  - now rewrite watchdog_handleScroll_small.
  - now rewrite watchdog_handleScroll_large.
Qed.

Lemma timeScaled_fire_material id (s : World TimeScaled.Callback) :
  materialRef (refs (TimeScaled.fire id s)) = materialRef (refs s).
Proof.
  unfold TimeScaled.fire. destruct (pending (timers s) !! id) as [t |]; [| easy].
  now destruct (callback t).
Qed.

Lemma watchdog_fire_material id (s : World Watchdog.Callback) :
  materialRef (refs (Watchdog.fire id s)) = materialRef (refs s).
Proof.
  unfold Watchdog.fire. destruct (pending (timers s) !! id) as [t |]; [| easy].
  destruct (callback t); cbn; [reflexivity |]. now destruct (_ && _).
Qed.

Lemma timeScaled_step_presentable m s e :
  0 <= m -> TimeScaled.elapsed e ->
  presentable m (refs s) -> presentable m (refs (TimeScaled.step m s e)).
Proof.
  intros Hm He (Hin & Hv & Hu).
  split; [now apply timeScaled_step_within |].
  split; [now apply timeScaled_step_direction |].
  destruct e as [| w | id | w delta]; cbn [TimeScaled.step refs].
  - cbn. intros u [= <-]. now apply fresh_uniforms_within.
  - now rewrite timeScaled_handleScroll_material.
  - now rewrite timeScaled_fire_material.
  - destruct (materialRef (refs s)) eqn:Hmat.
    + rewrite timeScaled_frame_uniforms by congruence. intros u' [= <-].
      destruct (timeScaled_frame_within m w delta (refs s)) as [_ Hc];
        try assumption.
      destruct (timeScaled_frame_direction w delta (refs s)) as (_ & _ & _ & Hy);
        try assumption.
      unfold uniforms_within. cbn.
      split; [exact Hc |]. split; [reflexivity |].
      now apply half_product_bound.
    + rewrite timeScaled_frame_idle by assumption. rewrite Hmat. exact Hu.
Qed.

Lemma watchdog_step_presentable m s e :
  0 <= m ->
  presentable m (refs s) -> presentable m (refs (Watchdog.step m s e)).
Proof.
  intros Hm (Hin & Hv & Hu).
  split; [now apply watchdog_step_within |].
  split; [now apply watchdog_step_direction |].
  destruct e as [| w | id | delta]; cbn [Watchdog.step refs].
  - cbn. intros u [= <-]. now apply fresh_uniforms_within.
  - now rewrite watchdog_handleScroll_material.
  - now rewrite watchdog_fire_material.
  - destruct (materialRef (refs s)) eqn:Hmat.
    + rewrite watchdog_frame_uniforms by congruence. intros u' [= <-].
      destruct (watchdog_frame_within m delta (refs s)) as [_ Hc];
        try assumption.
      unfold uniforms_within. cbn.
      split; [exact Hc |]. split; [reflexivity |].
      apply half_product_bound; [exact Hc |].
      destruct (JS.eq _ 0); [lra | apply sign_unit].
    + rewrite watchdog_frame_idle by assumption. rewrite Hmat. exact Hu.
Qed.

Lemma mount_presentable m w0 : 0 <= m -> presentable m (initialRefs w0).
Proof.
  intros Hm. unfold presentable, within, vertical. cbn.
  repeat split; try lra; discriminate.
Qed.

(** The vertex shader moves a vertex only vertically, and by no more than
    the vertical offset it is given. *)
Lemma vertex_displacement oy position uv :
  let moved := Shader.vertex (Vector2.mk 0 oy) position uv in
  Shader.px moved = Shader.px position /\
  Shader.pz moved = Shader.pz position /\
  Rabs (Shader.py moved - Shader.py position) <= Rabs oy.
Proof.
  cbn. split; [ring |]. split; [reflexivity |].
  replace (Shader.py position + sin (Vector2.x uv * Shader.M_PI) * oy
           - Shader.py position)
    with (sin (Vector2.x uv * Shader.M_PI) * oy) by ring.
  rewrite Rabs_mult.
  pose proof (SIN_bound (Vector2.x uv * Shader.M_PI)) as Hs.
  assert (Rabs (sin (Vector2.x uv * Shader.M_PI)) <= 1) by (apply Rabs_le; lra).
  pose proof (Rabs_pos oy). nra.
Qed.

(** X5. What the shaders are handed is always in range.  After any events
    following the mount, in both revisions, the uniforms of the material (if
    the texture has loaded) hold a strength in [0, maxAberration] and a
    purely vertical offset of at most maxAberration / 2; so the vertex
    shader never moves a vertex sideways or in depth, and never moves it up
    or down by more than maxAberration / 2. *)
Theorem uniforms_stay_in_range (maxAberration : R) (w0 : Window) :
  0 <= maxAberration ->
  (forall (es : list TimeScaled.Event) u position uv,
     Forall TimeScaled.elapsed es ->
     materialRef (refs (TimeScaled.run maxAberration (TimeScaled.mount w0) es))
     = Some u ->
     let moved := Shader.vertex (uOffset u) position uv in
     0 <= aberrationStrength u <= maxAberration /\
     Shader.px moved = Shader.px position /\
     Shader.pz moved = Shader.pz position /\
     Rabs (Shader.py moved - Shader.py position) <= maxAberration / 2) /\
  (forall (es : list Watchdog.Event) u position uv,
     materialRef (refs (Watchdog.run maxAberration (Watchdog.mount w0) es))
     = Some u ->
     let moved := Shader.vertex (uOffset u) position uv in
     0 <= aberrationStrength u <= maxAberration /\
     Shader.px moved = Shader.px position /\
     Shader.pz moved = Shader.pz position /\
     Rabs (Shader.py moved - Shader.py position) <= maxAberration / 2).
Proof.
  intros Hm.
  assert (Hfinish : forall u position uv,
            uniforms_within maxAberration u ->
            let moved := Shader.vertex (uOffset u) position uv in
            0 <= aberrationStrength u <= maxAberration /\
            Shader.px moved = Shader.px position /\
            Shader.pz moved = Shader.pz position /\
            Rabs (Shader.py moved - Shader.py position) <= maxAberration / 2).
  { intros u position uv (Hs & Hx & Hy).
    destruct (uOffset u) as [ox oy] eqn:Ho. cbn in Hx, Hy. subst ox.
    destruct (vertex_displacement oy position uv) as (H1 & H2 & H3).
    cbv zeta. repeat split; try assumption; try apply Hs. lra. }
  split.
  - intros es u position uv Hes Hu. apply Hfinish.
    enough (H : forall s, presentable maxAberration (refs s) ->
                presentable maxAberration
                  (refs (TimeScaled.run maxAberration s es))).
    { apply (H (TimeScaled.mount w0)); [now apply mount_presentable | exact Hu]. }
    clear Hu. induction Hes as [| e es He Hes IH]; intros s Hp; [exact Hp |].
    cbn. apply IH. now apply timeScaled_step_presentable.
  - intros es u position uv Hu. apply Hfinish.
    enough (H : forall s, presentable maxAberration (refs s) ->
                presentable maxAberration
                  (refs (Watchdog.run maxAberration s es))).
    { apply (H (Watchdog.mount w0)); [now apply mount_presentable | exact Hu]. }
    clear Hu. induction es as [| e es IH]; intros s Hp; [exact Hp |].
    cbn. apply IH. now apply watchdog_step_presentable.
Qed.

Lemma uniforms_stay_in_range_witness :
  match materialRef
          (refs (TimeScaled.run 2 (TimeScaled.mount (desktopWindow 0))
                   [TimeScaled.TextureLoaded;
                    TimeScaled.Scroll (desktopWindow 10);
                    TimeScaled.Frame (desktopWindow 10) (1 / 60)]))
  with
  | Some u => 0 <= aberrationStrength u <= 2
  | None => True
  end.
Proof.
  destruct (materialRef _) as [u |] eqn:Hu; [| exact I].
  destruct (uniforms_stay_in_range 2 (desktopWindow 0)) as [H _]; [lra |].
  apply (H _ u {| Shader.px := 0; Shader.py := 0; Shader.pz := 0 |}
           (Vector2.mk 0 0)) in Hu.
  - apply Hu.
  - repeat constructor; cbn; lra.
Defined.

Lemma vec4_eta (c : Shader.vec4) :
  {| Shader.r := Shader.r c; Shader.g := Shader.g c;
     Shader.b := Shader.b c; Shader.a := Shader.a c |} = c.
Proof. now destruct c. Qed.

(** X6. The fragment shader shows the image untouched at rest.  With a strength
    that is not positive, or with a zero direction, the colour it writes is
    the texture's own colour at that point; and whatever strength and
    direction are, the green channel and the alpha are the texture's own:
    only red and blue are ever displaced. *)
Theorem fragment_untouched_at_rest
    (map : Shader.sampler2D) (strength : R) (direction uv : Vector2.t) :
  (strength <= 0 -> Shader.fragment map strength direction uv = map uv) /\
  (direction = Vector2.mk 0 0 ->
   Shader.fragment map strength direction uv = map uv) /\
  Shader.g (Shader.fragment map strength direction uv) = Shader.g (map uv) /\
  Shader.a (Shader.fragment map strength direction uv) = Shader.a (map uv).
Proof.
  unfold Shader.fragment, Shader.texture2D, JS.gt.
  split; [| split; [| split]].
  - intros Hs. destruct (JS.lt 0 strength) eqn:H.
    + apply lt_true in H. lra.
    + apply vec4_eta.
  - intros ->. destruct (JS.lt 0 strength); cbn; [| apply vec4_eta].
    replace (Vector2.mk (Vector2.x uv + 0 * strength)
                        (Vector2.y uv + 0 * strength)) with uv
      by (destruct uv; cbn; f_equal; ring).
    replace (Vector2.mk (Vector2.x uv + - 0 * strength)
                        (Vector2.y uv + - 0 * strength)) with uv
      by (destruct uv; cbn; f_equal; ring).
    apply vec4_eta.
  - destruct (JS.lt 0 strength); reflexivity.
  - destruct (JS.lt 0 strength); reflexivity.
Qed.

Lemma fragment_untouched_at_rest_witness :
  let map := fun uv : Vector2.t =>
               {| Shader.r := Vector2.x uv; Shader.g := Vector2.y uv;
                  Shader.b := 0.5; Shader.a := 1 |} in
  Shader.fragment map 0 (Vector2.mk 0 1) (Vector2.mk 0.25 0.75)
  = map (Vector2.mk 0.25 0.75).
Proof.
  intros map.
  destruct (fragment_untouched_at_rest map 0 (Vector2.mk 0 1)
              (Vector2.mk 0.25 0.75)) as [H _].
  apply H. lra.
Defined.

(** ** Timers of a mounted item *)

(** Every pending timer of a time-scaled item is the one [scrollTimer]
    names. *)
Lemma timeScaled_step_single_timer m (s : World TimeScaled.Callback) e :
  (forall id t, pending (timers s) !! id = Some t ->
                scrollTimer (refs s) = Some id) ->
  forall id t, pending (timers (TimeScaled.step m s e)) !! id = Some t ->
               scrollTimer (refs (TimeScaled.step m s e)) = Some id.
Proof.
  intros Hone id t. destruct e as [| w | id' | w delta]; cbn [TimeScaled.step].
  - apply Hone.
  - destruct (Rlt_le_dec (Rabs (scrollY w - lastScrollY (refs s))) 0.1) as [H | H].
    + rewrite timeScaled_handleScroll_small by exact H. apply Hone.
    + rewrite timeScaled_handleScroll_large by exact H. cbv zeta. cbn [refs timers].
      intros Hid. cbn.
      destruct (Nat.eq_dec id (nextId (timers s))) as [-> | Hne]; [reflexivity |].
      exfalso. unfold rescheduled in Hid.
      destruct (scrollTimer (refs s)) as [old |] eqn:Hold; cbn in Hid;
        rewrite lookup_insert_ne in Hid by congruence.
      * rewrite lookup_delete in Hid. case_decide; [discriminate |].
        apply Hone in Hid. congruence.
      * apply Hone in Hid. congruence.
  - unfold TimeScaled.fire.
    destruct (pending (timers s) !! id') as [t' |] eqn:Hid'; [| apply Hone].
    destruct (callback t'). cbn. rewrite lookup_delete.
    case_decide; [discriminate | apply Hone].
  - cbn [refs timers]. intros Hid. apply Hone in Hid.
    unfold TimeScaled.useFrame, TimeScaled.smooth.
    destruct (materialRef (refs s)); [| exact Hid].
    repeat match goal with |- context [if ?b then _ else _] => destruct b end;
      cbn; exact Hid.
Qed.

(** X7. The time-scaled revision never has two timers pending, and its cleanup
    leaves none.  After any events following the mount, every pending timer
    is the one whose id [scrollTimer] holds; unmounting then leaves the
    timer table empty and the handler attached to no event of the window. *)
Theorem timeScaled_unmount_leaves_nothing
    (maxAberration : R) (w0 : Window) (es : list TimeScaled.Event) :
  let s := TimeScaled.run maxAberration (TimeScaled.mount w0) es in
  let m := timeScaled_cleanup (timeScaled_effect (Build_Mounted s [])) in
  (forall id1 t1 id2 t2,
     pending (timers s) !! id1 = Some t1 ->
     pending (timers s) !! id2 = Some t2 -> id1 = id2) /\
  pending (timers (world m)) = ∅ /\
  listening m = [].
Proof.
  cbv zeta.
  assert (Hone : forall id t,
            pending (timers (TimeScaled.run maxAberration (TimeScaled.mount w0) es))
              !! id = Some t ->
            scrollTimer (refs (TimeScaled.run maxAberration (TimeScaled.mount w0) es))
            = Some id).
  { enough (H : forall s : World TimeScaled.Callback,
              (forall id t, pending (timers s) !! id = Some t ->
                            scrollTimer (refs s) = Some id) ->
              forall id t,
                pending (timers (TimeScaled.run maxAberration s es)) !! id = Some t ->
                scrollTimer (refs (TimeScaled.run maxAberration s es)) = Some id).
    { apply H. intros id t Hid. cbn in Hid. rewrite lookup_empty in Hid.
      discriminate. }
    induction es as [| e es IH]; intros s Hs; [exact Hs |].
    cbn. apply IH. now apply timeScaled_step_single_timer. }
  set (s := TimeScaled.run maxAberration (TimeScaled.mount w0) es) in *.
  split; [| split].
  - intros id1 t1 id2 t2 H1 H2. apply Hone in H1, H2. congruence.
  - cbn. unfold clearScrollTimer. apply map_eq. intros id.
    rewrite lookup_empty.
    destruct (scrollTimer (refs s)) as [old |] eqn:Hold; cbn.
    + rewrite lookup_delete. case_decide; [reflexivity |].
      destruct (pending (timers s) !! id) eqn:Hid; [| reflexivity].
      apply Hone in Hid. congruence.
    + destruct (pending (timers s) !! id) eqn:Hid; [| reflexivity].
      apply Hone in Hid. congruence.
  - reflexivity.
Qed.

Lemma timeScaled_unmount_leaves_nothing_witness :
  pending (timers (TimeScaled.run 2 (TimeScaled.mount (desktopWindow 0))
                     [TimeScaled.Scroll (desktopWindow 40)])) !! 0%nat
  = Some {| callback := TimeScaled.ScrollStop; delay := 200%nat |} /\
  0%nat = 0%nat.
Proof.
  assert (H : pending (timers (TimeScaled.run 2 (TimeScaled.mount (desktopWindow 0))
                                 [TimeScaled.Scroll (desktopWindow 40)])) !! 0%nat
              = Some {| callback := TimeScaled.ScrollStop; delay := 200%nat |}).
  { cbn [TimeScaled.run fold_left TimeScaled.step].
    rewrite timeScaled_handleScroll_large
      by (cbn; replace (40 - 0) with 40 by lra; rewrite Rabs_right; lra).
    cbv zeta. rewrite isMobile_desktop. cbn [timers].
    apply (rescheduled_new TimeScaled.ScrollStop 200 None). }
  split; [exact H |].
  destruct (timeScaled_unmount_leaves_nothing 2 (desktopWindow 0)
              [TimeScaled.Scroll (desktopWindow 40)]) as [Hone _].
  exact (Hone _ _ _ _ H H).
Defined.

Lemma watchdog_frame_scrollTimer delta r :
  scrollTimer (Watchdog.useFrame delta r) = scrollTimer r.
Proof.
  unfold Watchdog.useFrame, Watchdog.smooth.
  destruct (materialRef r); [| reflexivity].
  repeat match goal with |- context [if ?b then _ else _] => destruct b end;
    reflexivity.
Qed.

(** In the watchdog revision the id in [scrollTimer], while still pending,
    names a debounce timer and never a check. *)
Lemma watchdog_step_timer_kinds m (s : World Watchdog.Callback) e :
  world_wf s ->
  (forall id t, scrollTimer (refs s) = Some id ->
                pending (timers s) !! id = Some t ->
                callback t = Watchdog.ScrollStop) ->
  forall id t, scrollTimer (refs (Watchdog.step m s e)) = Some id ->
               pending (timers (Watchdog.step m s e)) !! id = Some t ->
               callback t = Watchdog.ScrollStop.
Proof.
  intros [Hwf Hst] Hkind id t.
  destruct e as [| w | id' | delta]; cbn [Watchdog.step].
  - apply Hkind.
  - destruct (Rlt_le_dec (Rabs (scrollY w - lastScrollY (refs s))) 0.5) as [H | H].
    + rewrite watchdog_handleScroll_small by exact H. apply Hkind.
    + rewrite watchdog_handleScroll_large by exact H. cbv zeta. cbn [refs timers].
      cbn [scrollTimer set_scrollTimer]. intros [= <-].
      rewrite rescheduled_new. now intros [= <-].
  - unfold Watchdog.fire.
    destruct (pending (timers s) !! id') as [t' |] eqn:Hid'; [| apply Hkind].
    destruct (callback t'); cbn [Watchdog.onTimeout refs timers].
    + cbn. intros Hs Hp. pose proof (Hst _ Hs) as Hlt.
      rewrite lookup_insert_ne in Hp by lia.
      rewrite lookup_delete in Hp. case_decide; [discriminate |].
      eapply Hkind; eassumption.
    + destruct (_ && _); cbn; intros Hs Hp;
        rewrite lookup_delete in Hp; (case_decide; [discriminate |]);
        eapply Hkind; eassumption.
  - cbn [refs timers]. rewrite watchdog_frame_scrollTimer. apply Hkind.
Qed.

(** X8. Nothing cancels the watchdog's check.  In the watchdog revision, after
    any events following the mount, a pending check survives every further
    scroll event and the cleanup of the item.  In particular it is still
    pending after an above-threshold scroll has set the scrolling flag
    again, and if it fires then while the current strength lies strictly
    between 0 and 0.05, it sets [forceReset]. *)
Theorem watchdog_check_never_cancelled
    (maxAberration : R) (w0 : Window) (es : list Watchdog.Event)
    (id : nat) (t : Timer Watchdog.Callback) :
  let s := Watchdog.run maxAberration (Watchdog.mount w0) es in
  pending (timers s) !! id = Some t ->
  callback t = Watchdog.StuckCheck ->
  (forall w, pending (timers (Watchdog.handleScroll maxAberration w s)) !! id
             = Some t) /\
  (forall types,
     pending (timers (world (watchdog_cleanup (Build_Mounted s types)))) !! id
     = Some t) /\
  (forall w,
     0.5 <= Rabs (scrollY w - lastScrollY (refs s)) ->
     0 < currentAberrationStrength (refs s) < 0.05 ->
     let s1 := Watchdog.handleScroll maxAberration w s in
     isScrolling (refs s1) = true /\
     forceReset (refs s1) = false /\
     forceReset (refs (Watchdog.fire id s1)) = true).
Proof.
  intros s Hid Hcb.
  assert (Hinv : world_wf s /\
                 forall id t, scrollTimer (refs s) = Some id ->
                              pending (timers s) !! id = Some t ->
                              callback t = Watchdog.ScrollStop).
  { subst s.
    enough (H : forall s0 : World Watchdog.Callback,
              (world_wf s0 /\
               forall id t, scrollTimer (refs s0) = Some id ->
                            pending (timers s0) !! id = Some t ->
                            callback t = Watchdog.ScrollStop) ->
              world_wf (Watchdog.run maxAberration s0 es) /\
              forall id t,
                scrollTimer (refs (Watchdog.run maxAberration s0 es)) = Some id ->
                pending (timers (Watchdog.run maxAberration s0 es)) !! id = Some t ->
                callback t = Watchdog.ScrollStop).
    { apply H. split; [apply watchdog_mount_wf | cbn; discriminate]. }
    clear Hid. induction es as [| e es IH]; intros s0 Hs0; [exact Hs0 |].
    cbn. apply IH. destruct Hs0 as [Hwf Hk]. split.
    - now apply watchdog_step_wf.
    - now apply watchdog_step_timer_kinds. }
  destruct Hinv as [[Hwf Hst] Hkind].
  assert (Hnot : scrollTimer (refs s) <> Some id).
  { intros Hs. specialize (Hkind _ _ Hs Hid). congruence. }
  assert (Hlt : (id < nextId (timers s))%nat) by (apply Hwf; eauto).
  assert (Hscroll : forall w,
            pending (timers (Watchdog.handleScroll maxAberration w s)) !! id
            = Some t).
  { intros w.
    destruct (Rlt_le_dec (Rabs (scrollY w - lastScrollY (refs s))) 0.5) as [H | H].
    - now rewrite watchdog_handleScroll_small.
    - rewrite watchdog_handleScroll_large by exact H. cbv zeta. cbn [timers].
      rewrite rescheduled_other; [exact Hid | lia | exact Hnot]. }
  split; [exact Hscroll |]. split.
  - intros types. cbn. unfold clearScrollTimer.
    destruct (scrollTimer (refs s)) as [old |] eqn:Hold; [| exact Hid].
    cbn. rewrite lookup_delete_ne by congruence. exact Hid.
  - intros w Hd Hband. cbv zeta.
    pose proof (Hscroll w) as Hp.
    unfold Watchdog.fire. rewrite Hp, Hcb.
    rewrite watchdog_handleScroll_large by exact Hd. cbv zeta.
    cbn. unfold JS.gt.
    destruct Hband as [H0 H1]. apply lt_true in H0, H1. rewrite H0, H1.
    repeat split.
Qed.

Lemma watchdog_check_never_cancelled_witness :
  let s := Watchdog.run 2 (Watchdog.mount (desktopWindow 0))
             [Watchdog.Scroll (desktopWindow 40); Watchdog.Timeout 0] in
  pending (timers (Watchdog.handleScroll 2 (desktopWindow 80) s)) !! 1%nat
  = Some {| callback := Watchdog.StuckCheck; delay := 1000%nat |}.
Proof.
  intros s.
  assert (H : pending (timers s) !! 1%nat
              = Some {| callback := Watchdog.StuckCheck; delay := 1000%nat |}).
  { subst s. cbn [Watchdog.run fold_left Watchdog.step].
    rewrite watchdog_handleScroll_large
      by (cbn; replace (40 - 0) with 40 by lra; rewrite Rabs_right; lra).
    cbv zeta.
    rewrite (watchdog_fire_scrollStop 0 200)
      by (cbn [timers]; apply (rescheduled_new Watchdog.ScrollStop 200 None)).
    cbn [timers]. apply lookup_insert_eq. }
  destruct (watchdog_check_never_cancelled 2 (desktopWindow 0)
              [Watchdog.Scroll (desktopWindow 40); Watchdog.Timeout 0] 1%nat
              {| callback := Watchdog.StuckCheck; delay := 1000%nat |} H)
    as [Hs _]; [reflexivity |].
  apply Hs.
Defined.

(** ** How long the decay takes *)

Lemma watchdog_frame_forceReset delta r :
  forceReset (Watchdog.useFrame delta r) = false \/
  Watchdog.useFrame delta r = r.
Proof.
  unfold Watchdog.useFrame. destruct (materialRef r); [left | now right].
  unfold Watchdog.smooth.
  destruct (forceReset r) eqn:Hf; cbn;
    repeat match goal with |- context [if ?b then _ else _] => destruct b end;
    cbn; congruence.
Qed.

(** Idle frames of the watchdog revision in closed form. *)
Lemma watchdog_idle_frames ds : forall d r,
  materialRef r <> None -> forceReset r = false -> isScrolling r = false ->
  targetAberrationStrength r = 0 -> 0 <= currentAberrationStrength r ->
  currentAberrationStrength (watchdog_frames (d :: ds) r)
  = snap 0.001 (currentAberrationStrength r * 0.92 ^ S (length ds)).
Proof.
  induction ds as [| d' ds IH]; intros d r Hm Hf Hs Ht Hc.
  - cbn [watchdog_frames fold_left length].
    rewrite watchdog_frame_current, Hs, Ht by assumption.
    unfold JS.lerp. f_equal. cbn. lra.
  - change (watchdog_frames (d :: d' :: ds) r)
      with (watchdog_frames (d' :: ds) (Watchdog.useFrame d r)).
    destruct (watchdog_frame_keeps d r) as (Ht' & Hs' & Hm').
    assert (Hf' : forceReset (Watchdog.useFrame d r) = false).
    { destruct (watchdog_frame_forceReset d r) as [H | H];
        [exact H | now rewrite H]. }
    destruct (watchdog_decay_step d r) as [[Hc0 Hc1] _]; try assumption.
    rewrite IH; try (rewrite ?Ht', ?Hs'; auto).
    rewrite watchdog_frame_current, Hs, Ht by assumption. unfold JS.lerp.
    set (c := currentAberrationStrength r) in *.
    assert (Hp : 0 < 0.92 ^ S (length ds) <= 1).
    { split; [apply pow_lt; lra |].
      rewrite <- (pow1 (S (length ds))). apply pow_incr. lra. }
    cbn [length].
    replace (c * 0.92 ^ S (S (length ds)))
      with ((1 - 0.08) * c * 0.92 ^ S (length ds)) by (cbn; lra).
    destruct (snap_cases 0.001 ((1 - 0.08) * c + 0.08 * 0)) as [[Hlt ->] | [Hge ->]].
    + rewrite Rmult_0_l.
      destruct (snap_cases 0.001 0) as [[_ ->] | [H _]]; [| lra].
      destruct (snap_cases 0.001 ((1 - 0.08) * c * 0.92 ^ S (length ds)))
        as [[_ ->] | [H _]]; [reflexivity | nra].
    + f_equal. lra.
Qed.

Lemma watchdog_rest_by_frames (r : Refs) (ds : list R) :
  materialRef r <> None -> isScrolling r = false ->
  targetAberrationStrength r = 0 ->
  0 <= currentAberrationStrength r <= 2 ->
  (92 <= length ds)%nat ->
  currentAberrationStrength (watchdog_frames ds r) = 0.
Proof.
  intros Hm0 Hs0 Ht0 Hc0 Hlen.
  destruct ds as [| d ds]; [cbn in Hlen; lia |].
  cbn [length] in Hlen.
  destruct (forceReset r) eqn:Hf0.
  - change (watchdog_frames (d :: ds) r)
      with (watchdog_frames ds (Watchdog.useFrame d r)).
    assert (H0 : currentAberrationStrength (Watchdog.useFrame d r) = 0)
      by now apply watchdog_frame_resetting.
    destruct (watchdog_frame_keeps d r) as (Ht' & Hs' & _).
    rewrite Ht0 in Ht'.
    revert H0 Ht'. generalize (Watchdog.useFrame d r). clear.
    induction ds as [| d' ds IH]; intros r H0 Ht; [exact H0 |].
    cbn. apply IH.
    + apply watchdog_rest_step; [exact H0 |]. rewrite Ht.
      destruct (isScrolling r); lra.
    + destruct (watchdog_frame_keeps d' r) as (-> & _). exact Ht.
  - rewrite watchdog_idle_frames by (auto; lra).
    set (c := currentAberrationStrength r) in *.
    assert (Hp : 0 < 0.92 ^ S (length ds) <= 0.92 ^ 92).
    { split; [apply pow_lt; lra |].
      replace (S (length ds)) with (92 + (S (length ds) - 92))%nat by lia.
      rewrite Rfunctions.pow_add.
      assert (0 < 0.92 ^ 92) by (apply pow_lt; lra).
      assert (0.92 ^ (S (length ds) - 92) <= 1).
      { rewrite <- (pow1 (S (length ds) - 92)). apply pow_incr. lra. }
      assert (0 < 0.92 ^ (S (length ds) - 92)) by (apply pow_lt; lra).
      nra. }
    assert (Hnum : 2 * 0.92 ^ 92 < 0.001) by lra.
    destruct (snap_cases 0.001 (c * 0.92 ^ S (length ds)))
      as [[_ ->] | [H _]]; [reflexivity | nra].
Qed.

(** X9. The watchdog revision is at rest after 92 frames.  Once the debounce
    timer has fired on an item that smooths and whose current strength is at
    most the default maximum of 2, the current strength is exactly 0 after
    any 92 or more frames.  Each idle frame keeps 92% of the strength until
    the result drops below 0.001; from a strength of exactly 2, 91 frames
    are not enough. *)
Theorem watchdog_rest_after_92_frames
    (s : World Watchdog.Callback) (id ms : nat) (ds : list R) :
  pending (timers s) !! id
  = Some {| callback := Watchdog.ScrollStop; delay := ms |} ->
  materialRef (refs s) <> None ->
  0 <= currentAberrationStrength (refs s) <= 2 ->
  ((92 <= length ds)%nat ->
   currentAberrationStrength (watchdog_frames ds (refs (Watchdog.fire id s))) = 0) /\
  (forceReset (refs s) = false -> currentAberrationStrength (refs s) = 2 ->
   length ds = 91%nat ->
   currentAberrationStrength (watchdog_frames ds (refs (Watchdog.fire id s)))
   = 2 * 0.92 ^ 91).
Proof.
  intros Hid Hm Hc.
  rewrite (watchdog_fire_scrollStop id ms) by exact Hid. cbn [refs].
  set (r0 := set_targetAberrationStrength 0 (set_isScrolling false (refs s))).
  assert (Hm0 : materialRef r0 <> None) by exact Hm.
  assert (Hs0 : isScrolling r0 = false) by reflexivity.
  assert (Ht0 : targetAberrationStrength r0 = 0) by reflexivity.
  assert (Hc0 : 0 <= currentAberrationStrength r0 <= 2) by exact Hc.
  split.
  - intros Hlen. now apply watchdog_rest_by_frames.
  - intros Hf Hc2 Hlen. destruct ds as [| d ds]; [discriminate |].
    cbn [length] in Hlen.
    rewrite watchdog_idle_frames by (auto; lra).
    replace (S (length ds)) with 91%nat by lia.
    change (currentAberrationStrength r0) with (currentAberrationStrength (refs s)).
    rewrite Hc2.
    destruct (snap_cases 0.001 (2 * 0.92 ^ 91)) as [[H _] | [_ ->]];
      [lra | reflexivity].
Qed.

Lemma watchdog_rest_after_92_frames_witness :
  currentAberrationStrength
    (watchdog_frames (repeat (1 / 60) 92)
       (refs (Watchdog.fire 0 (watchdog_scrolling 2 2)))) = 0.
Proof.
  destruct (watchdog_rest_after_92_frames (watchdog_scrolling 2 2) 0 200
              (repeat (1 / 60) 92)) as [H _].
  - apply lookup_singleton_eq.
  - cbn. discriminate.
  - cbn. lra.
  - apply H. rewrite repeat_length. lia.
Defined.

Lemma timeScaled_rest_by_time (w : Window) (r : Refs) (d : R) (ds : list R) :
  materialRef r <> None -> forceReset r = false ->
  targetAberrationStrength r = 0 ->
  0 <= currentAberrationStrength r <= 2 ->
  0 <= d -> Forall (Rle 0) ds ->
  65 / 60 <= total (d :: ds) ->
  currentAberrationStrength (timeScaled_frames w (d :: ds) r) = 0.
Proof.
  intros Hm Hf Ht Hc Hd Hds Htot.
  rewrite timeScaled_frames_split by (auto; right; lra).
  rewrite timeScaled_frame_current, Ht, lerp_kept by assumption.
  pose proof (strengthDamping_range w) as Hk.
  assert (Hq : 0 < kept w (total (d :: ds)) <= 0.88 ^ 65).
  { split; [apply exp_pos |].
    apply Rle_trans with (r2 := kept w (INR 65 * (1 / 60))).
    - unfold kept. apply pow_antitone; [lra |].
      replace (INR 65) with 65 by (rewrite INR_IZR_INZ; reflexivity). lra.
    - rewrite kept_repeat, kept_60fps. apply pow_incr. lra. }
  assert (Hnum : 2 * 0.88 ^ 65 < 0.0005) by lra.
  set (c := currentAberrationStrength r) in *.
  destruct (snap_cases 0.0005 (0 + (c - 0) * kept w (total (d :: ds))))
    as [[_ ->] | [H _]]; [reflexivity | nra].
Qed.

(** X10. The time-scaled revision is at rest 65/60 s after the debounce, at any
    frame rate.  Once the target is 0, on an item that smooths and whose
    current strength is at most the default maximum of 2, the current
    strength is exactly 0 after any frames whose durations add up to 65/60
    of a second or more, however the time is split into frames and on either
    kind of device. *)
Theorem timeScaled_rest_after_65_sixtieths
    (w : Window) (r : Refs) (d : R) (ds : list R) :
  materialRef r <> None -> forceReset r = false ->
  targetAberrationStrength r = 0 ->
  0 <= currentAberrationStrength r <= 2 ->
  0 <= d -> Forall (Rle 0) ds ->
  65 / 60 <= total (d :: ds) ->
  currentAberrationStrength (timeScaled_frames w (d :: ds) r) = 0.
Proof.
  apply timeScaled_rest_by_time.
Qed.

Lemma timeScaled_rest_after_65_sixtieths_witness :
  currentAberrationStrength
    (timeScaled_frames (phoneWindow 0) [1 / 2; 1 / 2; 1 / 10]
       (set_currentAberrationStrength 2 (loadedAt 0))) = 0.
Proof.
  apply timeScaled_rest_after_65_sixtieths.
  - cbn. discriminate.
  - reflexivity.
  - reflexivity.
  - cbn. lra.
  - lra.
  - repeat constructor; lra.
  - cbn. lra.
Defined.

(** ** The overlay follows the page *)

Lemma shaderImages_filter doc :
  OverlayFrame.shaderImages doc = List.filter data_shader doc.
Proof.
  unfold OverlayFrame.shaderImages, querySelectorAll.
  pose proof (matchingFrom_omap data_shader (fun i => i) doc []) as H.
  cbn [length app] in H. rewrite map_id in H. rewrite <- H. clear H.
  apply list_omap_ext.
  induction (matchingFrom data_shader 0 doc) as [| n l IH]; constructor.
  - now destruct (doc !! n).
  - exact IH.
Qed.

Lemma differs_false a b : OverlayFrame.differs a b = false <-> Rabs (a - b) <= 0.01.
Proof. unfold OverlayFrame.differs, JS.gt, JS.Math_abs. apply lt_false. Qed.

Lemma differs_same a : OverlayFrame.differs a a = false.
Proof. apply differs_false. rewrite Rminus_diag, Rabs_R0. lra. Qed.

Lemma refreshed_tracks w viewport sized img entry :
  OverlayFrame.tracks w viewport sized img
    (default entry (OverlayFrame.refreshed w viewport sized img entry)).
Proof.
  unfold OverlayFrame.refreshed. cbv zeta.
  destruct (_ || _) eqn:Hmoved; cbn [default].
  - unfold OverlayFrame.tracks. cbn.
    rewrite !Rminus_diag, Rabs_R0. split; [lra |]. split; [lra |].
    intros ->. cbn. rewrite !Rminus_diag, Rabs_R0. lra.
  - apply orb_false_iff in Hmoved. destruct Hmoved as [Hxy Hsize].
    apply orb_false_iff in Hxy. destruct Hxy as [Hx Hy].
    unfold OverlayFrame.tracks. cbv zeta.
    split; [now apply differs_false |]. split; [now apply differs_false |].
    intros ->. cbn in Hsize. apply orb_false_iff in Hsize.
    destruct Hsize as [Hw Hh]. split; now apply differs_false.
Qed.

Lemma refreshed_settled w viewport sized img entry entry' :
  OverlayFrame.refreshed w viewport sized img entry = Some entry' ->
  OverlayFrame.refreshed w viewport sized img entry' = None /\
  ShaderEffectOverlay.data_src entry' = ShaderEffectOverlay.data_src entry.
Proof.
  unfold OverlayFrame.refreshed. cbv zeta.
  destruct (_ || _); [| discriminate]. intros [= <-]. cbn.
  rewrite !differs_same. split; [| reflexivity].
  destruct sized; cbn; [| reflexivity].
  now rewrite !differs_same.
Qed.

(** What [reconcile] leaves at each index. *)
Lemma reconcile_lookup w viewport sized images :
  forall index data flag,
    let result := OverlayFrame.reconcile w viewport sized index images data flag in
    length (fst result) = length data /\
    (forall k,
       fst result !! k
       = match data !! k with
         | Some entry =>
             if (index <=? k)%nat
             then match images !! (k - index)%nat with
                  | Some img =>
                      Some (default entry
                              (OverlayFrame.refreshed w viewport sized img entry))
                  | None => Some entry
                  end
             else Some entry
         | None => None
         end) /\
    (snd result = false -> flag = false /\ fst result = data).
Proof.
  induction images as [| img rest IH]; intros index data flag; cbv zeta.
  - cbn. split; [reflexivity |]. split; [| now intros ->].
    intros k. destruct (data !! k); [| reflexivity].
    destruct (index <=? k)%nat; [| reflexivity].
    now rewrite lookup_nil.
  - cbn [OverlayFrame.reconcile].
    assert (Hskip :
      (forall entry, data !! index = Some entry ->
                     OverlayFrame.refreshed w viewport sized img entry = None) ->
      let result := OverlayFrame.reconcile w viewport sized (S index) rest data flag in
      length (fst result) = length data /\
      (forall k,
         fst result !! k
         = match data !! k with
           | Some entry =>
               if (index <=? k)%nat
               then match (img :: rest) !! (k - index)%nat with
                    | Some img =>
                        Some (default entry
                                (OverlayFrame.refreshed w viewport sized img entry))
                    | None => Some entry
                    end
               else Some entry
           | None => None
           end) /\
      (snd result = false -> flag = false /\ fst result = data)).
    { intros Hnone. cbv zeta.
      destruct (IH (S index) data flag) as (Hlen & Hlook & Hflag).
      split; [exact Hlen |]. split; [| exact Hflag].
      intros k. rewrite Hlook. destruct (data !! k) as [entry |] eqn:Hk;
        [| reflexivity].
      destruct (Nat.eq_dec k index) as [-> | Hne].
      - rewrite (proj2 (Nat.leb_gt _ _)) by lia.
        rewrite Nat.leb_refl, Nat.sub_diag. cbn.
        now rewrite (Hnone _ Hk).
      - destruct (index <=? k)%nat eqn:Hle.
        + apply Nat.leb_le in Hle.
          rewrite (proj2 (Nat.leb_le _ _)) by lia.
          replace (k - index)%nat with (S (k - S index)) by lia. reflexivity.
        + apply Nat.leb_gt in Hle.
          now rewrite (proj2 (Nat.leb_gt _ _)) by lia. }
    destruct (length data <=? index)%nat eqn:Hlen0.
    { apply Hskip. intros entry Hentry. apply Nat.leb_le in Hlen0.
      apply lookup_lt_Some in Hentry. lia. }
    destruct (data !! index) as [entry |] eqn:Hentry;
      [| apply Hskip; discriminate].
    destruct (OverlayFrame.refreshed w viewport sized img entry) as [entry' |]
      eqn:Hre; [| apply Hskip; now intros ? [= <-]].
    apply Nat.leb_gt in Hlen0.
    destruct (IH (S index) (<[index := entry']> data) true)
      as (Hlen & Hlook & Hflag).
    rewrite length_insert in Hlen.
    split; [exact Hlen |]. split; [| intros H; apply Hflag in H; now destruct H].
    intros k. rewrite Hlook.
    destruct (Nat.eq_dec k index) as [-> | Hne].
    + rewrite list_lookup_insert_eq by lia. rewrite Hentry.
      rewrite (proj2 (Nat.leb_gt _ _)) by lia.
      rewrite Nat.leb_refl, Nat.sub_diag. cbn. now rewrite Hre.
    + rewrite list_lookup_insert_ne by congruence.
      destruct (data !! k) as [e |]; [| reflexivity].
      destruct (index <=? k)%nat eqn:Hle.
      * apply Nat.leb_le in Hle.
        rewrite (proj2 (Nat.leb_le _ _)) by lia.
        replace (k - index)%nat with (S (k - S index)) by lia. reflexivity.
      * apply Nat.leb_gt in Hle.
        now rewrite (proj2 (Nat.leb_gt _ _)) by lia.
Qed.

Lemma overlay_frame_imageData w viewport sized st :
  ShaderEffectOverlay.setupComplete st = true ->
  ShaderEffectOverlay.imageData (OverlayFrame.useFrame w viewport sized st)
  = fst (OverlayFrame.reconcile w viewport sized 0
           (List.filter data_shader (ShaderEffectOverlay.document st))
           (ShaderEffectOverlay.imageData st) false).
Proof.
  intros Hs. unfold OverlayFrame.useFrame. rewrite Hs, shaderImages_filter.
  destruct (reconcile_lookup w viewport sized
              (List.filter data_shader (ShaderEffectOverlay.document st)) 0
              (ShaderEffectOverlay.imageData st) false) as (_ & _ & Hflag).
  destruct (OverlayFrame.reconcile _ _ _ _ _ _ _) as [data' [|]]; cbn in *.
  - reflexivity.
  - now destruct Hflag.
Qed.

Lemma overlay_frame_rest w viewport sized st :
  ShaderEffectOverlay.document (OverlayFrame.useFrame w viewport sized st)
  = ShaderEffectOverlay.document st /\
  ShaderEffectOverlay.listeners (OverlayFrame.useFrame w viewport sized st)
  = ShaderEffectOverlay.listeners st /\
  ShaderEffectOverlay.setupComplete (OverlayFrame.useFrame w viewport sized st)
  = ShaderEffectOverlay.setupComplete st.
Proof.
  unfold OverlayFrame.useFrame.
  destruct (ShaderEffectOverlay.setupComplete st) eqn:Hs; [| easy].
  destruct (OverlayFrame.reconcile _ _ _ _ _ _ _) as [data' [|]];
    cbn; repeat split; congruence.
Qed.

(** X11. After a frame of the overlay every tracked image is where the page
    shows it, up to the tolerance.  When setup has completed, the entry the
    frame loop leaves at index [k] lies within 0.01 world units, in both
    coordinates, of the position [setupImages] would compute now for the
    [k]-th marked image of the document; in the third revision the same
    holds for its width and height. *)
Theorem overlay_frame_tracks
    (w : Window) (viewport : Viewport.t) (sized : bool)
    (st : ShaderEffectOverlay.State) (k : nat) (img : Img)
    (entry : ShaderEffectOverlay.ImageData) :
  ShaderEffectOverlay.setupComplete st = true ->
  OverlayFrame.shaderImages (ShaderEffectOverlay.document st) !! k = Some img ->
  ShaderEffectOverlay.imageData (OverlayFrame.useFrame w viewport sized st) !! k
  = Some entry ->
  OverlayFrame.tracks w viewport sized img entry.
Proof.
  intros Hs Himg Hentry.
  rewrite shaderImages_filter in Himg.
  rewrite overlay_frame_imageData in Hentry by exact Hs.
  destruct (reconcile_lookup w viewport sized
              (List.filter data_shader (ShaderEffectOverlay.document st)) 0
              (ShaderEffectOverlay.imageData st) false) as (_ & Hlook & _).
  rewrite Hlook in Hentry. cbn [Nat.leb] in Hentry.
  rewrite Nat.sub_0_r, Himg in Hentry.
  destruct (ShaderEffectOverlay.imageData st !! k) as [old |]; [| discriminate].
  injection Hentry as <-. apply refreshed_tracks.
Qed.

Lemma overlay_frame_tracks_witness :
  let st := {| ShaderEffectOverlay.document := [skillsImg "js.png"];
               ShaderEffectOverlay.listeners := [];
               ShaderEffectOverlay.imageData :=
                 [{| ShaderEffectOverlay.data_src := "js.png";
                     ShaderEffectOverlay.position := (0, 0, 0);
                     ShaderEffectOverlay.size :=
                       {| ShaderEffectOverlay.width := 1;
                          ShaderEffectOverlay.height := 1 |} |}];
               ShaderEffectOverlay.setupComplete := true |} in
  match ShaderEffectOverlay.imageData
          (OverlayFrame.useFrame (desktopWindow 0) canvasViewport true st) !! 0%nat
  with
  | Some entry =>
      OverlayFrame.tracks (desktopWindow 0) canvasViewport true
        (skillsImg "js.png") entry
  | None => True
  end.
Proof.
  intros st.
  destruct (ShaderEffectOverlay.imageData _ !! 0%nat) as [entry |] eqn:Hentry;
    [| exact I].
  apply (overlay_frame_tracks (desktopWindow 0) canvasViewport true st 0%nat);
    [reflexivity | reflexivity | exact Hentry].
Defined.

(** X12. The frame loop of the overlay never adds, drops or renames an entry.
    The number of entries stays what setup made it, so images marked later
    are not picked up; every entry keeps its source; entries beyond the
    marked images of the document are left alone; the document and the
    listeners are untouched; and the fourth revision never changes a size. *)
Theorem overlay_frame_keeps_entries
    (w : Window) (viewport : Viewport.t) (sized : bool)
    (st : ShaderEffectOverlay.State) :
  let st' := OverlayFrame.useFrame w viewport sized st in
  length (ShaderEffectOverlay.imageData st')
  = length (ShaderEffectOverlay.imageData st) /\
  (forall k,
     ShaderEffectOverlay.data_src <$> ShaderEffectOverlay.imageData st' !! k
     = ShaderEffectOverlay.data_src <$> ShaderEffectOverlay.imageData st !! k) /\
  (forall k,
     (length (OverlayFrame.shaderImages (ShaderEffectOverlay.document st)) <= k)%nat ->
     ShaderEffectOverlay.imageData st' !! k
     = ShaderEffectOverlay.imageData st !! k) /\
  (sized = false ->
   forall k,
     ShaderEffectOverlay.size <$> ShaderEffectOverlay.imageData st' !! k
     = ShaderEffectOverlay.size <$> ShaderEffectOverlay.imageData st !! k) /\
  ShaderEffectOverlay.document st' = ShaderEffectOverlay.document st /\
  ShaderEffectOverlay.listeners st' = ShaderEffectOverlay.listeners st.
Proof.
  cbv zeta.
  destruct (overlay_frame_rest w viewport sized st) as (Hdoc & Hls & _).
  destruct (ShaderEffectOverlay.setupComplete st) eqn:Hs.
  2: { unfold OverlayFrame.useFrame. rewrite Hs. repeat split. }
  rewrite overlay_frame_imageData by exact Hs.
  rewrite shaderImages_filter.
  destruct (reconcile_lookup w viewport sized
              (List.filter data_shader (ShaderEffectOverlay.document st)) 0
              (ShaderEffectOverlay.imageData st) false) as (Hlen & Hlook & _).
  split; [exact Hlen |].
  assert (Hone : forall k,
            ShaderEffectOverlay.imageData st !! k = None /\
            fst (OverlayFrame.reconcile w viewport sized 0
                   (List.filter data_shader (ShaderEffectOverlay.document st))
                   (ShaderEffectOverlay.imageData st) false) !! k = None \/
            exists old,
              ShaderEffectOverlay.imageData st !! k = Some old /\
              (fst (OverlayFrame.reconcile w viewport sized 0
                      (List.filter data_shader (ShaderEffectOverlay.document st))
                      (ShaderEffectOverlay.imageData st) false) !! k = Some old \/
               exists img,
                 List.filter data_shader (ShaderEffectOverlay.document st) !! k
                 = Some img /\
                 fst (OverlayFrame.reconcile w viewport sized 0
                        (List.filter data_shader (ShaderEffectOverlay.document st))
                        (ShaderEffectOverlay.imageData st) false) !! k
                 = Some (default old
                           (OverlayFrame.refreshed w viewport sized img old)))).
  { intros k. rewrite Hlook. cbn [Nat.leb]. rewrite Nat.sub_0_r.
    destruct (ShaderEffectOverlay.imageData st !! k) as [old |];
      [right; exists old; split; [reflexivity |] | now left].
    destruct (List.filter data_shader (ShaderEffectOverlay.document st) !! k)
      as [img |]; [right; exists img; split; reflexivity | now left]. }
  assert (Hkeep : forall img old,
            ShaderEffectOverlay.data_src
              (default old (OverlayFrame.refreshed w viewport sized img old))
            = ShaderEffectOverlay.data_src old /\
            (sized = false ->
             ShaderEffectOverlay.size
               (default old (OverlayFrame.refreshed w viewport sized img old))
             = ShaderEffectOverlay.size old)).
  { intros img old. unfold OverlayFrame.refreshed. cbv zeta.
    destruct (_ || _); cbn; split; try reflexivity. now intros ->. }
  split; [| split; [| split; [| split]]].
  - intros k.
    destruct (Hone k) as [[-> ->] | (old & -> & [-> | (img & _ & ->)])];
      try reflexivity.
    cbn. f_equal. apply Hkeep.
  - intros k Hk.
    destruct (Hone k) as [[-> ->] | (old & -> & [-> | (img & Himg & _)])];
      try reflexivity.
    apply lookup_lt_Some in Himg. lia.
  - intros Hsized k.
    destruct (Hone k) as [[-> ->] | (old & -> & [-> | (img & _ & ->)])];
      try reflexivity.
    cbn. f_equal. now apply Hkeep.
  - exact Hdoc.
  - exact Hls.
Qed.

Lemma reconcile_settled w viewport sized images :
  forall index data flag,
    (forall k entry img,
       data !! (index + k)%nat = Some entry -> images !! k = Some img ->
       OverlayFrame.refreshed w viewport sized img entry = None) ->
    OverlayFrame.reconcile w viewport sized index images data flag = (data, flag).
Proof.
  induction images as [| img rest IH]; intros index data flag Hnone;
    [reflexivity |].
  cbn [OverlayFrame.reconcile].
  assert (Hrest : OverlayFrame.reconcile w viewport sized (S index) rest data flag
                  = (data, flag)).
  { apply IH. intros k entry img' Hk Himg.
    apply (Hnone (S k) entry img'); [| exact Himg].
    now replace (index + S k)%nat with (S index + k)%nat by lia. }
  destruct (length data <=? index)%nat; [exact Hrest |].
  destruct (data !! index) as [entry |] eqn:Hentry; [| exact Hrest].
  rewrite (Hnone 0%nat entry img); [exact Hrest | | reflexivity].
  now rewrite Nat.add_0_r.
Qed.

Lemma forEach_app f a b (doc : list Img) :
  forEach f (a ++ b) doc = forEach f b (forEach f a doc).
Proof. apply fold_left_app. Qed.

Lemma forEach_matching f sel doc : forall pre,
  forEach f (matchingFrom sel (length pre) doc) (pre ++ doc)
  = pre ++ map (fun i => if sel i then f i else i) doc.
Proof.
  induction doc as [| i doc IH]; intros pre; [reflexivity |].
  cbn [matchingFrom map]. rewrite forEach_app.
  specialize (IH (pre ++ [if sel i then f i else i])).
  rewrite length_app, Nat.add_1_r, <- !app_assoc in IH. cbn [app] in IH.
  rewrite <- IH. f_equal.
  destruct (sel i); [| reflexivity].
  cbn. rewrite alter_app_r_alt, Nat.sub_diag by lia. reflexivity.
Qed.

Lemma filter_marked f doc :
  (forall i, data_shader (f i) = data_shader i) ->
  List.filter data_shader (map (fun i => if data_shader i then f i else i) doc)
  = map f (List.filter data_shader doc).
Proof.
  intros Hf. induction doc as [| i doc IH]; [reflexivity |].
  cbn. destruct (data_shader i) eqn:Hi.
  - rewrite Hf, Hi. cbn. now rewrite IH.
  - rewrite Hi. exact IH.
Qed.

Lemma refreshed_measured w viewport sized fromRect img :
  (sized = true -> fromRect = true) ->
  OverlayFrame.refreshed w viewport sized (set_style_opacity "0" img)
    (ShaderEffectOverlay.measure w viewport fromRect img) = None.
Proof.
  intros Hrev. unfold OverlayFrame.refreshed. cbn.
  rewrite !differs_same. destruct sized; [| reflexivity].
  rewrite Hrev by reflexivity. cbn. now rewrite !differs_same.
Qed.

(** X13. The overlay settles in one frame.  On an unchanged page a second frame
    changes nothing, so it causes no further re-render; and the first frame
    after [setupImages] changes nothing either, because setup and the frame
    loop compute the same mapping (in either revision, each with its own
    way of sizing). *)
Theorem overlay_frame_settles
    (w : Window) (viewport : Viewport.t) (sized : bool)
    (st : ShaderEffectOverlay.State) :
  OverlayFrame.useFrame w viewport sized (OverlayFrame.useFrame w viewport sized st)
  = OverlayFrame.useFrame w viewport sized st /\
  OverlayFrame.useFrame w viewport sized
    (ShaderEffectOverlay.setupImages w viewport sized st)
  = ShaderEffectOverlay.setupImages w viewport sized st.
Proof.
  assert (Hquiet : forall st0,
            (forall k entry img,
               ShaderEffectOverlay.imageData st0 !! k = Some entry ->
               List.filter data_shader (ShaderEffectOverlay.document st0) !! k
               = Some img ->
               OverlayFrame.refreshed w viewport sized img entry = None) ->
            OverlayFrame.useFrame w viewport sized st0 = st0).
  { intros st0 Hnone. unfold OverlayFrame.useFrame.
    destruct (ShaderEffectOverlay.setupComplete st0); [| reflexivity].
    rewrite shaderImages_filter, reconcile_settled; [reflexivity |].
    intros k entry img. cbn [Nat.add]. apply Hnone. }
  split.
  - destruct (ShaderEffectOverlay.setupComplete st) eqn:Hs.
    2: { unfold OverlayFrame.useFrame. now rewrite Hs, Hs. }
    apply Hquiet. intros k entry img Hentry Himg.
    destruct (overlay_frame_rest w viewport sized st) as (Hdoc & _ & _).
    rewrite Hdoc in Himg.
    rewrite overlay_frame_imageData in Hentry by exact Hs.
    destruct (reconcile_lookup w viewport sized
                (List.filter data_shader (ShaderEffectOverlay.document st)) 0
                (ShaderEffectOverlay.imageData st) false) as (_ & Hlook & _).
    rewrite Hlook in Hentry. cbn [Nat.leb] in Hentry.
    rewrite Nat.sub_0_r, Himg in Hentry.
    destruct (ShaderEffectOverlay.imageData st !! k) as [old |]; [| discriminate].
    injection Hentry as <-.
    destruct (OverlayFrame.refreshed w viewport sized img old) as [new |] eqn:Hre;
      cbn [default]; [| exact Hre].
    now apply refreshed_settled in Hre.
  - apply Hquiet. intros k entry img.
    rewrite setupImages_imageData. cbn [ShaderEffectOverlay.document
      ShaderEffectOverlay.setupImages].
    unfold querySelectorAll.
    pose proof (forEach_matching (set_style_opacity "0") data_shader
                  (ShaderEffectOverlay.document st) []) as Hfe.
    cbn [length app] in Hfe. rewrite Hfe.
    rewrite filter_marked by reflexivity.
    rewrite !list_lookup_fmap.
    destruct (List.filter data_shader (ShaderEffectOverlay.document st) !! k)
      as [img0 |]; [| discriminate].
    cbn. intros [= <-] [= <-].
    apply refreshed_measured. now intros ->.
Qed.

(** ** The second revision: strength, placement and visibility *)

Lemma chromaticImage_frames_strength size target clock : forall st,
  ChromaticImage.strength (ChromaticImage.frames size target clock st)
  = target + (ChromaticImage.strength st - target) * 0.98 ^ length clock.
Proof.
  induction clock as [| t clock IH]; intros st; [cbn; ring |].
  cbn [ChromaticImage.frames fold_left length].
  change (fold_left (ChromaticImage.useFrame size target) clock ?s)
    with (ChromaticImage.frames size target clock s).
  rewrite IH. cbn. replace 0.02 with (1 - 0.98) by lra. ring.
Qed.

(** X14. The second revision eases the strength towards its target and never
    gets there.  After [n] frames towards a fixed target the strength is
    [target + (start - target) * 0.98^n]: it comes as close to the target as
    wanted, but if it did not start on the target it is never equal to it;
    a visible image, whose target is 0, is drawn with some aberration on
    every frame.  The material, when there is one, holds that strength after
    each frame. *)
Theorem chromaticImage_strength_eases
    (size : ChromaticImage.Size) (target : R) (st : ChromaticImage.Rendered) :
  (forall clock,
     ChromaticImage.strength (ChromaticImage.frames size target clock st)
     = target + (ChromaticImage.strength st - target) * 0.98 ^ length clock) /\
  (ChromaticImage.strength st <> target ->
   forall clock,
     ChromaticImage.strength (ChromaticImage.frames size target clock st) <> target) /\
  (forall eps, 0 < eps ->
   exists N, forall clock, (N <= length clock)%nat ->
     Rabs (ChromaticImage.strength (ChromaticImage.frames size target clock st)
           - target) < eps) /\
  (forall clock t u,
     ChromaticImage.material
       (ChromaticImage.frames size target (clock ++ [t]) st) = Some u ->
     ChromaticImage.abberationStrength u
     = ChromaticImage.strength
         (ChromaticImage.frames size target (clock ++ [t]) st) /\
     ChromaticImage.uTime u = t).
Proof.
  split; [| split; [| split]].
  - intros clock. apply chromaticImage_frames_strength.
  - intros Hne clock. rewrite chromaticImage_frames_strength.
    assert (Hp : 0 < 0.98 ^ length clock) by (apply pow_lt; lra).
    intros Heq. apply Hne. nra.
  - intros eps Heps.
    set (c := ChromaticImage.strength st).
    destruct (pow_lt_1_zero 0.98) with (y := eps / (Rabs (c - target) + 1))
      as [N HN].
    + rewrite Rabs_right; lra.
    + apply Rdiv_lt_0_compat; [lra |]. pose proof (Rabs_pos (c - target)). lra.
    + exists N. intros clock Hlen. rewrite chromaticImage_frames_strength.
      fold c.
      replace (target + (c - target) * 0.98 ^ length clock - target)
        with ((c - target) * 0.98 ^ length clock) by ring.
      rewrite Rabs_mult.
      pose proof (HN (length clock) Hlen) as Hsmall.
      pose proof (Rabs_pos (c - target)) as Ha.
      pose proof (Rabs_pos (0.98 ^ length clock)) as Hb.
      apply Rle_lt_trans
        with (r2 := (Rabs (c - target) + 1) * Rabs (0.98 ^ length clock));
        [nra |].
      apply Rlt_le_trans
        with (r2 := (Rabs (c - target) + 1) * (eps / (Rabs (c - target) + 1))).
      * apply Rmult_lt_compat_l; lra.
      * right. field. lra.
  - intros clock t u. unfold ChromaticImage.frames.
    rewrite fold_left_app. cbn [fold_left].
    set (prev := fold_left (ChromaticImage.useFrame size target) clock st).
    unfold ChromaticImage.useFrame, ChromaticImage.updateMaterial.
    destruct (ChromaticImage.material prev); cbn; [| discriminate].
    intros [= <-]. split; reflexivity.
Qed.

Lemma chromaticImage_strength_eases_witness :
  ChromaticImage.strength
    (ChromaticImage.frames
       {| ChromaticImage.size_width := 1280; ChromaticImage.size_height := 800 |}
       0 [0.1; 0.2; 0.3]
       {| ChromaticImage.material := None; ChromaticImage.strength := 1 |})
  <> 0.
Proof.
  destruct (chromaticImage_strength_eases
              {| ChromaticImage.size_width := 1280;
                 ChromaticImage.size_height := 800 |}
              0 {| ChromaticImage.material := None;
                   ChromaticImage.strength := 1 |}) as (_ & H & _).
  apply H. cbn. lra.
Defined.

(** X15. The plane of the second revision covers its image exactly.  With a
    canvas as large as the window, and measured from the left and top bounds
    [CameraSetup] gives the camera, the left and top edges of the plane
    [updatePosition] computes are the left and top of the image's bounding
    rectangle, and the plane has the rectangle's width and height. *)
Theorem chromaticImage_plane_covers_rect
    (w : Window) (img : Img) (dimensions : ChromaticImage.Dimensions) :
  let d := ChromaticImage.updatePosition w (Some img) dimensions in
  let camera :=
    ChromaticImage.CameraSetup
      {| ChromaticImage.size_width := innerWidth w;
         ChromaticImage.size_height := innerHeight w |} in
  let rect := getBoundingClientRect img in
  (ChromaticImage.x d - ChromaticImage.width d / 2)
    - ChromaticImage.cam_left camera = DOMRect.left rect /\
  ChromaticImage.cam_top camera
    - (ChromaticImage.y d + ChromaticImage.height d / 2) = DOMRect.top rect /\
  ChromaticImage.cam_right camera
    - (ChromaticImage.x d + ChromaticImage.width d / 2)
  = innerWidth w - (DOMRect.left rect + DOMRect.width rect) /\
  (ChromaticImage.y d - ChromaticImage.height d / 2)
    - ChromaticImage.cam_bottom camera
  = innerHeight w - (DOMRect.top rect + DOMRect.height rect).
Proof. cbn. repeat split; field. Qed.

Lemma chromaticId_inj a b :
  ChromaticImages.chromaticId a = ChromaticImages.chromaticId b -> a = b.
Proof.
  unfold ChromaticImages.chromaticId. cbn. intros H.
  injection H as H. unfold String.append in H.
  apply DecimalNat.Unsigned.to_uint_inj.
  assert (Hs : DecimalString.NilEmpty.uint_of_string
                 (DecimalString.NilEmpty.string_of_uint (Nat.to_uint a))
               = DecimalString.NilEmpty.uint_of_string
                   (DecimalString.NilEmpty.string_of_uint (Nat.to_uint b)))
    by now rewrite H.
  rewrite !DecimalString.NilEmpty.usu in Hs. now injection Hs.
Qed.

Lemma chromaticId_nonempty a :
  String.eqb (ChromaticImages.chromaticId a) "" = false.
Proof. reflexivity. Qed.

Lemma matchingFrom_NoDup sel doc : forall k, List.NoDup (matchingFrom sel k doc).
Proof.
  induction doc as [| i doc IH]; intros k; cbn [matchingFrom]; [constructor |].
  destruct (sel i); cbn [app]; [| apply IH].
  constructor; [| apply IH].
  intros Hin. apply matchingFrom_In in Hin. lia.
Qed.

Lemma forEach_length f nodes : forall doc : list Img,
  length (forEach f nodes doc) = length doc.
Proof.
  induction nodes as [| n nodes IH]; intros doc; [reflexivity |].
  cbn. change (fold_left _ nodes ?d) with (forEach f nodes d).
  now rewrite IH, length_alter.
Qed.

Lemma forEach_preserves {B} (g : Img -> B) f nodes :
  (forall i, g (f i) = g i) ->
  forall (doc : list Img) n, g <$> forEach f nodes doc !! n = g <$> doc !! n.
Proof.
  intros Hg. induction nodes as [| m nodes IH]; intros doc n; [reflexivity |].
  cbn. change (fold_left _ nodes ?d) with (forEach f nodes d).
  rewrite IH, list_lookup_alter. case_decide; [subst | reflexivity].
  destruct (doc !! n); cbn; [now rewrite Hg | reflexivity].
Qed.

(** The entries [createEntries] appends: ids count up from [index], elements
    are the nodes, nothing is visible yet. *)
Lemma createEntries_images nodes : forall index st,
  (forall n, In n nodes -> (n < length (ChromaticImages.document st))%nat) ->
  map ChromaticImages.id (ChromaticImages.images
                            (ChromaticImages.createEntries index nodes st))
  = map ChromaticImages.id (ChromaticImages.images st)
    ++ map ChromaticImages.chromaticId (seq index (length nodes)) /\
  map ChromaticImages.element (ChromaticImages.images
                                 (ChromaticImages.createEntries index nodes st))
  = map ChromaticImages.element (ChromaticImages.images st) ++ nodes /\
  (Forall (fun e => ChromaticImages.visible e = false) (ChromaticImages.images st) ->
   Forall (fun e => ChromaticImages.visible e = false)
          (ChromaticImages.images (ChromaticImages.createEntries index nodes st))).
Proof.
  induction nodes as [| n nodes IH]; intros index st Hvalid.
  - cbn. now rewrite !app_nil_r.
  - cbn [ChromaticImages.createEntries].
    assert (Hn : (n < length (ChromaticImages.document st))%nat)
      by (apply Hvalid; now left).
    destruct (lookup_lt_is_Some_2 (ChromaticImages.document st) n Hn) as [i Hi].
    rewrite list_lookup_alter_eq, Hi. cbn [fmap option_fmap option_map].
    match goal with |- context [ChromaticImages.createEntries _ _ ?s] =>
      destruct (IH (S index) s) as (Hid & Hel & Hvis)
    end.
    { intros m Hm. cbn. rewrite length_alter. apply Hvalid. now right. }
    cbn [ChromaticImages.images ChromaticImages.document] in *.
    rewrite Hid, Hel, !map_app. cbn [map length seq].
    rewrite <- !app_assoc. cbn [app]. split; [reflexivity |].
    split; [reflexivity |].
    intros Hall. apply Hvis. apply Forall_app. split; [exact Hall |].
    now repeat constructor.
Qed.

Lemma createEntries_ids nodes : forall index st j n,
  List.NoDup nodes ->
  (forall n, In n nodes -> (n < length (ChromaticImages.document st))%nat) ->
  nodes !! j = Some n ->
  dataset_chromaticId
    <$> ChromaticImages.document (ChromaticImages.createEntries index nodes st) !! n
  = Some (Some (ChromaticImages.chromaticId (index + j))).
Proof.
  induction nodes as [| m nodes IH]; intros index st j n Hnd Hvalid Hj;
    [discriminate |].
  inversion Hnd as [| ? ? Hm Hnd']; subst.
  cbn [ChromaticImages.createEntries].
  destruct j as [| j]; cbn in Hj.
  - injection Hj as ->.
    rewrite createEntries_untouched by exact Hm. cbn.
    rewrite list_lookup_alter_eq.
    assert (Hn : (n < length (ChromaticImages.document st))%nat)
      by (apply Hvalid; now left).
    destruct (lookup_lt_is_Some_2 (ChromaticImages.document st) n Hn) as [i ->].
    cbn. now rewrite Nat.add_0_r.
  - replace (index + S j)%nat with (S index + j)%nat by lia.
    apply IH; [exact Hnd' | | exact Hj].
    intros n' Hn'. cbn. rewrite length_alter. apply Hvalid. now right.
Qed.

Lemma markVisible_lookup imageId visible images j :
  markVisible imageId visible images !! j
  = (fun img =>
       if String.eqb (ChromaticImages.id img) imageId
       then {| ChromaticImages.entry_src := ChromaticImages.entry_src img;
               ChromaticImages.element := ChromaticImages.element img;
               ChromaticImages.id := ChromaticImages.id img;
               ChromaticImages.visible := visible |}
       else img) <$> images !! j.
Proof. unfold markVisible. apply list_lookup_fmap. Qed.

(** X16. An intersection entry reaches the entry of its own image and no other.
    After the effect of [ChromaticImages] there is one entry per discovered
    image, in document order, each naming its element and not yet visible.
    When the observer then reports the [k]-th discovered image, the
    callback sets the [visible] flag of the [k]-th entry to what was
    reported and leaves every other entry, and the document, as they
    were. *)
Theorem intersection_reaches_its_image
    (doc : list Img) (k n : nat) (reported : bool) :
  let st := fst (ChromaticImages.effect doc) in
  let chromaticImages := snd (ChromaticImages.effect doc) in
  let st' := onIntersect [{| target := n; isIntersecting := reported |}] st in
  chromaticImages !! k = Some n ->
  map ChromaticImages.element (ChromaticImages.images st) = chromaticImages /\
  Forall (fun e => ChromaticImages.visible e = false) (ChromaticImages.images st) /\
  ChromaticImages.document st' = ChromaticImages.document st /\
  forall j,
    ChromaticImages.images st' !! j
    = (fun e => if (j =? k)%nat
                then {| ChromaticImages.entry_src := ChromaticImages.entry_src e;
                        ChromaticImages.element := ChromaticImages.element e;
                        ChromaticImages.id := ChromaticImages.id e;
                        ChromaticImages.visible := reported |}
                else e) <$> ChromaticImages.images st !! j.
Proof.
  cbv zeta. unfold ChromaticImages.effect. cbn [fst snd].
  set (nodes := querySelectorAll data_chromatic_decay doc).
  set (st0 := {| ChromaticImages.document := doc;
                 ChromaticImages.images := [];
                 ChromaticImages.observer := [] |}).
  intros Hk.
  assert (Hvalid : forall m, In m nodes ->
                             (m < length (ChromaticImages.document st0))%nat).
  { intros m Hm. apply querySelectorAll_In in Hm. destruct Hm as (i & Hi & _).
    cbn. now apply lookup_lt_Some in Hi. }
  destruct (createEntries_images nodes 0 st0 Hvalid) as (Hids & Hels & Hvis).
  cbn [ChromaticImages.images st0 map app] in Hids, Hels.
  split; [exact Hels |]. split; [apply Hvis; constructor |].
  assert (Hid : dataset_chromaticId
                  <$> forEach (set_style_opacity "0") nodes
                        (ChromaticImages.document
                           (ChromaticImages.createEntries 0 nodes st0)) !! n
                = Some (Some (ChromaticImages.chromaticId k))).
  { rewrite forEach_preserves by reflexivity.
    rewrite (createEntries_ids nodes 0 st0 k n); try assumption;
      [reflexivity | apply matchingFrom_NoDup]. }
  unfold onIntersect, onIntersection. cbn [fold_left target isIntersecting].
  cbn [ChromaticImages.document ChromaticImages.images].
  destruct (forEach (set_style_opacity "0") nodes
              (ChromaticImages.document
                 (ChromaticImages.createEntries 0 nodes st0)) !! n)
    as [img |]; [| discriminate].
  cbn in Hid. injection Hid as ->.
  rewrite chromaticId_nonempty. cbn [ChromaticImages.document ChromaticImages.images].
  split; [reflexivity |].
  intros j. rewrite markVisible_lookup.
  destruct (ChromaticImages.images (ChromaticImages.createEntries 0 nodes st0) !! j)
    as [e |] eqn:He; [| reflexivity].
  cbn [fmap option_fmap option_map]. f_equal.
  assert (Hej : ChromaticImages.id e = ChromaticImages.chromaticId j).
  { assert (H : map ChromaticImages.id
                  (ChromaticImages.images
                     (ChromaticImages.createEntries 0 nodes st0)) !! j
                = Some (ChromaticImages.id e))
      by now rewrite list_lookup_fmap, He.
    rewrite Hids, list_lookup_fmap in H.
    destruct (seq 0 (length nodes) !! j) as [j' |] eqn:Hseq; [| discriminate].
    apply lookup_seq in Hseq. destruct Hseq as [-> _].
    cbn in H. now injection H as <-. }
  rewrite Hej.
  destruct (Nat.eqb_spec j k) as [-> | Hne].
  - now rewrite String.eqb_refl.
  - destruct (String.eqb_spec (ChromaticImages.chromaticId j)
                (ChromaticImages.chromaticId k)) as [Heq | _]; [| reflexivity].
    apply chromaticId_inj in Heq. contradiction.
Qed.

Lemma intersection_reaches_its_image_witness :
  let mounted := ChromaticImages.effect [skillsImg "js.png"; fadedImg] in
  ChromaticImages.visible
    <$> ChromaticImages.images
          (onIntersect [{| target := 1%nat; isIntersecting := true |}]
             (fst mounted)) !! 0%nat
  = Some true.
Proof.
  intros mounted.
  destruct (intersection_reaches_its_image [skillsImg "js.png"; fadedImg]
              0 1 true) as (_ & _ & _ & H); [reflexivity |].
  subst mounted. rewrite (H 0%nat). reflexivity.
Defined.

(** ** Character refs of the landing page *)

Lemma includes_In e l : existsb (Nat.eqb e) l = true <-> In e l.
Proof.
  rewrite existsb_exists. split.
  - intros (x & Hx & Heq). apply Nat.eqb_eq in Heq. now subst.
  - intros H. exists e. split; [exact H | apply Nat.eqb_refl].
Qed.

Lemma addToRefs_spec el chars :
  List.NoDup chars ->
  List.NoDup (addToRefs el chars) /\
  forall e, In e (addToRefs el chars) <-> In e chars \/ el = Some e.
Proof.
  intros Hnd. destruct el as [x |]; cbn.
  - destruct (existsb (Nat.eqb x) chars) eqn:Hin; cbn.
    + apply includes_In in Hin. split; [exact Hnd |].
      intros e. split; [now left | intros [H | [= <-]]; assumption].
    + assert (Hout : ~ In x chars).
      { intros H. apply includes_In in H. congruence. }
      split.
      * apply NoDup_ListNoDup, NoDup_app. repeat split.
        -- now apply NoDup_ListNoDup.
        -- intros y Hy Hy'. apply list_elem_of_In in Hy.
           apply list_elem_of_singleton in Hy'. now subst.
        -- apply NoDup_singleton.
      * intros e. rewrite in_app_iff. cbn. split.
        -- intros [H | [<- | []]]; [now left | now right].
        -- intros [H | [= <-]]; [now left | right; now left].
  - split; [exact Hnd |]. intros e. split; [now left | now intros [H | [=]]].
Qed.

(** X17. The collected character refs never hold an element twice.  Whatever
    elements and nulls the ref callbacks of a render receive, in whatever
    order and however often, the array ends up without duplicates and holds
    exactly the elements received; elements that are all different are
    collected in the order they arrive. *)
Theorem collectRefs_holds_each_once (els : list (option nat)) :
  List.NoDup (collectRefs els) /\
  (forall e, In e (collectRefs els) <-> In (Some e) els) /\
  (forall xs, els = map Some xs -> List.NoDup xs -> collectRefs els = xs).
Proof.
  unfold collectRefs.
  assert (Hgen : forall chars,
            List.NoDup chars ->
            List.NoDup (fold_left (fun chars el => addToRefs el chars) els chars) /\
            forall e, In e (fold_left (fun chars el => addToRefs el chars) els chars)
                      <-> In e chars \/ In (Some e) els).
  { induction els as [| el els IH]; intros chars Hnd.
    - cbn. split; [exact Hnd |]. intros e. tauto.
    - cbn [fold_left]. destruct (addToRefs_spec el chars Hnd) as [Hnd' Hin'].
      destruct (IH _ Hnd') as [Hnd'' Hin''].
      split; [exact Hnd'' |].
      intros e. rewrite Hin'', Hin'. cbn. intuition congruence. }
  destruct (Hgen [] (List.NoDup_nil nat)) as [Hnd Hin].
  split; [exact Hnd |]. split.
  - intros e. rewrite Hin. cbn. tauto.
  - intros xs -> Hxs. clear Hgen Hnd Hin.
    enough (H : forall chars,
              List.NoDup (chars ++ xs) ->
              fold_left (fun chars el => addToRefs el chars) (map Some xs) chars
              = chars ++ xs)
      by (apply (H []); exact Hxs).
    clear Hxs.
    induction xs as [| x xs IH]; intros chars Hnd; [cbn; now rewrite app_nil_r |].
    cbn [map fold_left addToRefs].
    assert (Hout : existsb (Nat.eqb x) chars = false).
    { destruct (existsb (Nat.eqb x) chars) eqn:Hin; [| reflexivity].
      apply includes_In in Hin. apply NoDup_ListNoDup in Hnd.
      apply NoDup_app in Hnd. destruct Hnd as (_ & Hdis & _).
      exfalso. apply (Hdis x); [now apply list_elem_of_In |].
      apply list_elem_of_here. }
    rewrite Hout. cbn [negb].
    rewrite IH; rewrite <- app_assoc; [reflexivity | exact Hnd].
Qed.

Lemma collectRefs_holds_each_once_witness :
  collectRefs [Some 3; Some 1; Some 4]%nat = [3; 1; 4]%nat.
Proof.
  destruct (collectRefs_holds_each_once [Some 3; Some 1; Some 4]%nat)
    as (_ & _ & H).
  apply H; [reflexivity |].
  repeat constructor; cbn; intuition lia.
Defined.

(** ** The scroll-drawn path *)

(** X18. The path is drawn in step with the scroll position.  When both refs are
    set and the svg is taller than the window, [updateScrollPath] sets the
    dash length to the path's length and the dash offset so that the share
    of the path left visible is the share of the scrollable distance
    covered: nothing at the top, everything at the bottom, never outside
    [0, pathLength] in between, and never less after scrolling further
    down. *)
Theorem squiggle_follows_scroll
    (w : Window) (pathLength clientHeight : R) (style : Squiggle.PathStyle) :
  0 <= pathLength ->
  innerHeight w < clientHeight ->
  0 <= scrollY w <= clientHeight - innerHeight w ->
  let drawn := fun w' =>
    Squiggle.updateScrollPath w' (Some pathLength) (Some clientHeight) style in
  exists offset,
    Squiggle.strokeDashoffset (drawn w) = Some offset /\
    Squiggle.strokeDasharray (drawn w) = Some pathLength /\
    0 <= offset <= pathLength /\
    pathLength - offset
    = pathLength * (scrollY w / (clientHeight - innerHeight w)) /\
    (scrollY w = 0 -> offset = pathLength) /\
    (scrollY w = clientHeight - innerHeight w -> offset = 0) /\
    forall w' offset',
      innerHeight w' = innerHeight w -> scrollY w <= scrollY w' ->
      Squiggle.strokeDashoffset (drawn w') = Some offset' ->
      offset' <= offset.
Proof.
  intros Hlen Htall [H0 H1] drawn. subst drawn. cbn.
  set (total := clientHeight - innerHeight w) in *.
  assert (Htot : 0 < total) by (unfold total; lra).
  assert (Hshare : 0 <= scrollY w / total <= 1).
  { split.
    - apply Rmult_le_pos; [exact H0 | left; now apply Rinv_0_lt_compat].
    - apply Rmult_le_reg_r with (r := total); [exact Htot |].
      unfold Rdiv. rewrite Rmult_assoc, Rinv_l by lra. lra. }
  exists (pathLength * (1 - scrollY w / total)).
  split; [reflexivity |]. split; [reflexivity |].
  split; [nra |]. split; [ring |]. split; [| split].
  - intros ->. unfold Rdiv. rewrite Rmult_0_l. ring.
  - intros ->. unfold Rdiv. rewrite Rinv_r by lra. ring.
  - intros w' offset' Hh Hs [= <-]. rewrite Hh. fold total.
    assert (scrollY w / total <= scrollY w' / total).
    { unfold Rdiv. apply Rmult_le_compat_r; [| exact Hs].
      left. now apply Rinv_0_lt_compat. }
    nra.
Qed.

Lemma squiggle_follows_scroll_witness :
  exists offset,
    Squiggle.strokeDashoffset
      (Squiggle.updateScrollPath (desktopWindow 300) (Some 5000) (Some 2000)
         {| Squiggle.strokeDasharray := None;
            Squiggle.strokeDashoffset := None |})
    = Some offset /\
    0 <= offset <= 5000.
Proof.
  destruct (squiggle_follows_scroll (desktopWindow 300) 5000 2000
              {| Squiggle.strokeDasharray := None;
                 Squiggle.strokeDashoffset := None |})
    as (offset & Ho & _ & Hr & _); try (cbn; lra).
  exists offset. split; [exact Ho | exact Hr].
Defined.

(** ** The overlay plane over its image *)

(** X19. The plane [setupImages] places covers the image's rectangle edge to
    edge.  Mapped back to the screen, the left, right, top and bottom edges
    of the plane measured for an image are the edges of its bounding
    rectangle, in the third revision always, and in the fourth, which sizes
    the plane from [img.width] and [img.height], when those equal the
    rectangle's width and height. *)
Theorem overlay_plane_covers_rect
    (w : Window) (viewport : Viewport.t) (fromRect : bool) (img : Img) :
  0 < innerWidth w -> 0 < innerHeight w ->
  0 < Viewport.width viewport -> 0 < Viewport.height viewport ->
  (fromRect = false ->
   img_width img = DOMRect.width (getBoundingClientRect img) /\
   img_height img = DOMRect.height (getBoundingClientRect img)) ->
  let d := ShaderEffectOverlay.measure w viewport fromRect img in
  let rect := getBoundingClientRect img in
  let x := fst (fst (ShaderEffectOverlay.position d)) in
  let y := snd (fst (ShaderEffectOverlay.position d)) in
  let halfWidth := ShaderEffectOverlay.width (ShaderEffectOverlay.size d) / 2 in
  let halfHeight := ShaderEffectOverlay.height (ShaderEffectOverlay.size d) / 2 in
  ShaderEffectOverlay.screenX w viewport (x - halfWidth) = DOMRect.left rect /\
  ShaderEffectOverlay.screenX w viewport (x + halfWidth)
  = DOMRect.left rect + DOMRect.width rect /\
  ShaderEffectOverlay.screenY w viewport (y + halfHeight) = DOMRect.top rect /\
  ShaderEffectOverlay.screenY w viewport (y - halfHeight)
  = DOMRect.top rect + DOMRect.height rect.
Proof.
  intros Hw Hh Hvw Hvh Himg. cbv zeta.
  unfold ShaderEffectOverlay.measure, ShaderEffectOverlay.screenX,
    ShaderEffectOverlay.screenY, ShaderEffectOverlay.worldX,
    ShaderEffectOverlay.worldY.
  cbn [ShaderEffectOverlay.position ShaderEffectOverlay.size
       ShaderEffectOverlay.width ShaderEffectOverlay.height fst snd].
  destruct fromRect.
  - repeat split; field; lra.
  - destruct (Himg eq_refl) as [-> ->]. repeat split; field; lra.
Qed.

Lemma overlay_plane_covers_rect_witness :
  let d := ShaderEffectOverlay.measure (desktopWindow 0) canvasViewport false
             (skillsImg "js.png") in
  ShaderEffectOverlay.screenX (desktopWindow 0) canvasViewport
    (fst (fst (ShaderEffectOverlay.position d))
     - ShaderEffectOverlay.width (ShaderEffectOverlay.size d) / 2)
  = 100.
Proof.
  intros d.
  destruct (overlay_plane_covers_rect (desktopWindow 0) canvasViewport false
              (skillsImg "js.png")) as (H & _); try (cbn; lra).
  exact H.
Defined.

(** ** Frame time and device *)

(** X20. The time scaling is calibrated to 60 frames per second.  A smoothing
    frame of exactly 1/60 s applies the damping constant itself (0.15, or
    0.12 on a mobile device), a frame of no duration applies nothing, and of
    two frames the longer one leaves the strength at least as close to the
    target (all this away from the snap, with current strength and target at
    least 0.0005). *)
Theorem timeScaled_calibrated_to_60fps (w : Window) (r : Refs) :
  materialRef r <> None -> forceReset r = false ->
  0.0005 <= currentAberrationStrength r ->
  0.0005 <= targetAberrationStrength r ->
  currentAberrationStrength (TimeScaled.useFrame w (1 / 60) r)
  = JS.lerp (currentAberrationStrength r) (targetAberrationStrength r)
            (strengthDamping w) /\
  currentAberrationStrength (TimeScaled.useFrame w 0 r)
  = currentAberrationStrength r /\
  forall d1 d2, 0 <= d1 <= d2 ->
    Rabs (currentAberrationStrength (TimeScaled.useFrame w d2 r)
          - targetAberrationStrength r)
    <= Rabs (currentAberrationStrength (TimeScaled.useFrame w d1 r)
             - targetAberrationStrength r).
Proof.
  intros Hm Hf Hc Ht.
  set (c := currentAberrationStrength r) in *.
  set (t := targetAberrationStrength r) in *.
  assert (Hframe : forall d, 0 <= d ->
            currentAberrationStrength (TimeScaled.useFrame w d r)
            = t + (c - t) * kept w d).
  { intros d Hd. rewrite timeScaled_frame_current by assumption.
    fold c t. rewrite lerp_kept.
    pose proof (kept_unit w d Hd) as Hq.
    destruct (snap_cases 0.0005 (t + (c - t) * kept w d)) as [[H _] | [_ ->]];
      [nra | reflexivity]. }
  split; [| split].
  - rewrite Hframe, kept_60fps by lra. unfold JS.lerp. ring.
  - rewrite Hframe, kept_0 by lra. ring.
  - intros d1 d2 [H1 H2]. rewrite !Hframe by lra.
    replace (t + (c - t) * kept w d2 - t) with ((c - t) * kept w d2) by ring.
    replace (t + (c - t) * kept w d1 - t) with ((c - t) * kept w d1) by ring.
    rewrite !Rabs_mult.
    pose proof (kept_unit w d1 H1) as Hq1.
    assert (Hq2 : 0 < kept w d2 <= 1) by (apply kept_unit; lra).
    rewrite (Rabs_right (kept w d1)), (Rabs_right (kept w d2)) by lra.
    apply Rmult_le_compat_l; [apply Rabs_pos |].
    unfold kept. pose proof (strengthDamping_range w).
    apply pow_antitone; lra.
Qed.

Lemma timeScaled_calibrated_to_60fps_witness :
  currentAberrationStrength
    (TimeScaled.useFrame (desktopWindow 0) 0
       (set_currentAberrationStrength 1 (loadedAt 2))) = 1.
Proof.
  destruct (timeScaled_calibrated_to_60fps (desktopWindow 0)
              (set_currentAberrationStrength 1 (loadedAt 2)))
    as (_ & H & _).
  - cbn. discriminate.
  - reflexivity.
  - cbn. lra.
  - cbn. lra.
  - exact H.
Defined.

(** X21. A mobile device responds more strongly to the same scroll.  For one and
    the same above-threshold scroll distance, the time-scaled handler sets a
    target strength and a target direction at least as large on a mobile
    device as on a desktop, and its debounce is 250 ms instead of 200 ms. *)
Theorem mobile_responds_more_strongly
    (maxAberration : R) (phone desktop : Window)
    (s : World TimeScaled.Callback) :
  0 <= maxAberration ->
  TimeScaled.isMobile phone = true -> TimeScaled.isMobile desktop = false ->
  scrollY phone = scrollY desktop ->
  0.1 <= Rabs (scrollY desktop - lastScrollY (refs s)) ->
  let onPhone := TimeScaled.handleScroll maxAberration phone s in
  let onDesktop := TimeScaled.handleScroll maxAberration desktop s in
  targetAberrationStrength (refs onDesktop)
  <= targetAberrationStrength (refs onPhone) /\
  Rabs (Vector2.y (targetDirection (refs onDesktop)))
  <= Rabs (Vector2.y (targetDirection (refs onPhone))) /\
  (delay <$> pending (timers onPhone) !! nextId (timers s)) = Some 250%nat /\
  (delay <$> pending (timers onDesktop) !! nextId (timers s)) = Some 200%nat.
Proof.
  intros Hmax Hp Hd Hy Habs. cbv zeta.
  rewrite (timeScaled_handleScroll_large maxAberration desktop) by exact Habs.
  rewrite (timeScaled_handleScroll_large maxAberration phone) by (rewrite Hy; exact Habs).
  cbv zeta. rewrite Hp, Hd, Hy. cbn [refs timers].
  set (delta := scrollY desktop - lastScrollY (refs s)) in *.
  assert (Ha : 0 <= Rabs delta) by apply Rabs_pos.
  split; [| split; [| split]].
  - cbn. apply Rmult_le_compat_r; [exact Hmax |].
    apply Rmin_one_monotone. lra.
  - cbn. rewrite !Rabs_mult.
    apply Rmult_le_compat_r; [apply Rabs_pos |].
    assert (H1 : 0 <= Rmin 1 (Rabs delta / 30) <= 1) by (apply speedFactor_unit; lra).
    assert (H2 : 0 <= Rmin 1 (Rabs delta / 15) <= 1) by (apply speedFactor_unit; lra).
    rewrite (Rabs_right (Rmin 1 (Rabs delta / 30))) by lra.
    rewrite (Rabs_right (Rmin 1 (Rabs delta / 15))) by lra.
    apply Rmin_one_monotone. lra.
  - now rewrite rescheduled_new.
  - now rewrite rescheduled_new.
Qed.

Lemma mobile_responds_more_strongly_witness :
  targetAberrationStrength
    (refs (TimeScaled.handleScroll 2 (desktopWindow 10)
             (TimeScaled.mount (desktopWindow 0))))
  <= targetAberrationStrength
       (refs (TimeScaled.handleScroll 2 (phoneWindow 10)
                (TimeScaled.mount (desktopWindow 0)))).
Proof.
  apply (mobile_responds_more_strongly 2 (phoneWindow 10) (desktopWindow 10)
           (TimeScaled.mount (desktopWindow 0))).
  - lra.
  - apply isMobile_phone.
  - apply isMobile_desktop.
  - reflexivity.
  - cbn. replace (10 - 0) with 10 by lra. rewrite Rabs_right; lra.
Defined.

(** ** At rest nothing is left of the effect *)

Lemma timeScaled_frames_uniforms w ds : forall d r,
  materialRef r <> None ->
  materialRef (timeScaled_frames w (d :: ds) r)
  = Some {| aberrationStrength :=
              currentAberrationStrength (timeScaled_frames w (d :: ds) r);
            aberrationDirection :=
              currentDirection (timeScaled_frames w (d :: ds) r);
            uOffset :=
              Vector2.mk 0
                (currentAberrationStrength (timeScaled_frames w (d :: ds) r) * 0.5
                 * Vector2.y (currentDirection (timeScaled_frames w (d :: ds) r))) |}.
Proof.
  induction ds as [| d' ds IH]; intros d r Hm.
  - now apply timeScaled_frame_uniforms.
  - change (timeScaled_frames w (d :: d' :: ds) r)
      with (timeScaled_frames w (d' :: ds) (TimeScaled.useFrame w d r)).
    apply IH. now apply timeScaled_frame_keeps.
Qed.

Lemma watchdog_frames_uniforms ds : forall d r,
  materialRef r <> None ->
  exists y,
    materialRef (watchdog_frames (d :: ds) r)
    = Some {| aberrationStrength :=
                currentAberrationStrength (watchdog_frames (d :: ds) r);
              aberrationDirection := currentDirection (watchdog_frames (d :: ds) r);
              uOffset :=
                Vector2.mk 0
                  (currentAberrationStrength (watchdog_frames (d :: ds) r) * 0.5 * y) |}.
Proof.
  induction ds as [| d' ds IH]; intros d r Hm.
  - eexists. now apply watchdog_frame_uniforms.
  - change (watchdog_frames (d :: d' :: ds) r)
      with (watchdog_frames (d' :: ds) (Watchdog.useFrame d r)).
    apply IH. now apply watchdog_frame_keeps.
Qed.

Lemma shaders_idle map direction oy position uv :
  Shader.fragment map 0 direction uv = map uv /\
  Shader.vertex (Vector2.mk 0 (0 * 0.5 * oy)) position uv = position.
Proof.
  split.
  - unfold Shader.fragment, Shader.texture2D, JS.gt.
    destruct (JS.lt 0 0) eqn:H; [apply lt_true in H; lra | apply vec4_eta].
  - unfold Shader.vertex, Shader.deformationCurve. destruct position. cbn.
    f_equal; ring.
Qed.

(** X22. Once the strength is back at 0 nothing of the effect is drawn.  After
    the debounce, when the frames that followed add up to 65/60 s in the
    time-scaled revision, or number 92 in the watchdog revision, on an item
    whose strength was at most the default maximum of 2, the uniforms handed
    to the shaders make the fragment shader write the texture's own colour
    at every point and the vertex shader leave every vertex where it
    was. *)
Theorem effect_vanishes_at_rest (r : Refs) (d : R) (ds : list R) :
  materialRef r <> None ->
  targetAberrationStrength r = 0 ->
  0 <= currentAberrationStrength r <= 2 ->
  (forall w,
     forceReset r = false -> 0 <= d -> Forall (Rle 0) ds ->
     65 / 60 <= total (d :: ds) ->
     exists u,
       materialRef (timeScaled_frames w (d :: ds) r) = Some u /\
       forall map position uv,
         Shader.fragment map (aberrationStrength u) (aberrationDirection u) uv
         = map uv /\
         Shader.vertex (uOffset u) position uv = position) /\
  (isScrolling r = false -> (92 <= length (d :: ds))%nat ->
   exists u,
     materialRef (watchdog_frames (d :: ds) r) = Some u /\
     forall map position uv,
       Shader.fragment map (aberrationStrength u) (aberrationDirection u) uv
       = map uv /\
       Shader.vertex (uOffset u) position uv = position).
Proof.
  intros Hm Ht Hc. split.
  - intros w Hf Hd Hds Htot.
    eexists. split; [now apply timeScaled_frames_uniforms |].
    intros map position uv. cbn [aberrationStrength aberrationDirection uOffset].
    rewrite timeScaled_rest_by_time by assumption.
    apply shaders_idle.
  - intros Hs Hlen.
    destruct (watchdog_frames_uniforms ds d r Hm) as [y Hu].
    eexists. split; [exact Hu |].
    intros map position uv. cbn [aberrationStrength aberrationDirection uOffset].
    rewrite watchdog_rest_by_frames by assumption.
    apply shaders_idle.
Qed.

Lemma effect_vanishes_at_rest_witness :
  exists u,
    materialRef
      (timeScaled_frames (desktopWindow 0) [1 / 2; 1 / 2; 1 / 10]
         (set_currentAberrationStrength 2 (loadedAt 0))) = Some u /\
    Shader.vertex (uOffset u)
      {| Shader.px := 1; Shader.py := 2; Shader.pz := 0 |} (Vector2.mk 0.5 0.5)
    = {| Shader.px := 1; Shader.py := 2; Shader.pz := 0 |}.
Proof.
  destruct (effect_vanishes_at_rest
              (set_currentAberrationStrength 2 (loadedAt 0)) (1 / 2)
              [1 / 2; 1 / 10]) as [H _].
  - cbn. discriminate.
  - reflexivity.
  - cbn. lra.
  - destruct (H (desktopWindow 0)) as (u & Hu & Hshaders).
    + reflexivity.
    + lra.
    + repeat constructor; lra.
    + cbn. lra.
    + exists u. split; [exact Hu |].
      apply (Hshaders (fun _ => {| Shader.r := 0; Shader.g := 0;
                                   Shader.b := 0; Shader.a := 1 |})).
Defined.
